(** * Cerebras documentation RAG system: a shallow embedding

    The development follows the two Python modules that carry the
    repository's own logic:

    - [cerebras_rag/agents/rag_agent.py]: the text normalizer [_clean], the
      history-question classifier, retrieval, citation generation, the
      streaming generator and [ask_question];
    - [cerebras_rag/utils/populate_vectordb.py]: [clean_text],
      [chunk_documents], [setup_pinecone_index], [populate_index] and
      [main].

    Python [str] values are Rocq [string]s; the regular-expression passes
    work on the list of characters of a string.  A character is an [ascii],
    read as the code point of the same number, and classified the way
    Python classifies the code points below 256.  Calls to the hosted
    services (vector store, reranker, language model, crawler, embedding
    service) are oracles collected in a record: a theorem that quantifies
    over the record holds whatever those services answer, including when
    they raise. *)

From stdpp Require Import base list strings gmap pretty.
From Stdlib Require Import ZArith QArith Lia Ascii String Sorted.

Close Scope Q_scope.
Open Scope string_scope.

(** ** Characters *)

Module Chars.

Definition code (c : ascii) : nat := nat_of_ascii c.

Definition between (lo hi : nat) (c : ascii) : bool :=
  (lo <=? code c)%nat && (code c <=? hi)%nat.

Definition is_char (n : nat) (c : ascii) : bool := (code c =? n)%nat.

(** The class [[A-Za-z]] of the patterns. *)
Definition is_letter (c : ascii) : bool :=
  between 65 90 c || between 97 122 c.

(** [\s] on a [str] pattern, and the characters [str.strip()] removes:
    tab, line feed, vertical tab, form feed, carriage return, the four
    separators 0x1c..0x1f, space, and in the Latin-1 block NEL (0x85) and
    the no-break space (0xa0). *)
Definition is_space (c : ascii) : bool :=
  between 9 13 c || between 28 32 c || is_char 133 c || is_char 160 c.

(** [\w] on a [str] pattern: alphanumeric code points and the
    underscore.  Below 256 the alphanumerics are the digits, the ASCII
    letters, and the Latin-1 letters and numerics. *)
Definition is_word (c : ascii) : bool :=
  between 48 57 c || is_letter c || is_char 95 c
  || is_char 170 c || is_char 178 c || is_char 179 c || is_char 181 c
  || is_char 185 c || is_char 186 c || between 188 190 c
  || between 192 214 c || between 216 246 c || between 248 255 c.

(** The class [[:;,.\$]] of the punctuation pattern. *)
Definition is_punct (c : ascii) : bool :=
  is_char 58 c || is_char 59 c || is_char 44 c || is_char 46 c
  || is_char 36 c.

Definition is_underscore (c : ascii) : bool := is_char 95 c.
Definition is_backslash (c : ascii) : bool := is_char 92 c.
Definition is_blank (c : ascii) : bool := is_char 32 c.
Definition is_lparen (c : ascii) : bool := is_char 40 c.
Definition is_rparen (c : ascii) : bool := is_char 41 c.

Definition space : ascii := ascii_of_nat 32.

(** [\b]: the position between [prev] and [next] is a word boundary
    when exactly one side is a word character; the outside of the
    string counts as a non-word character. *)
Definition word_opt (c : option ascii) : bool :=
  match c with Some c => is_word c | None => false end.

Definition boundary (prev next : option ascii) : bool :=
  xorb (word_opt prev) (word_opt next).

(** [str.lower()] on the code points below 256: the ASCII capitals and
    the Latin-1 capitals (0xc0..0xde except the multiplication sign). *)
Definition lower (c : ascii) : ascii :=
  if between 65 90 c
     || (between 192 222 c && negb (is_char 215 c))
  then ascii_of_nat (code c + 32) else c.

End Chars.

(** ** [re.sub] for patterns that never match the empty string *)

Module Re.
Import Chars.

(** What a pattern does at one position: [None] when it does not match
    there, otherwise the replacement text and the length of the match.
    The first argument is the character before the position (for [\b]),
    the second the rest of the subject from the position on. *)
Definition matcher := option ascii -> list ascii -> option (list ascii * nat).

(** [sub m prev skip s] scans [s] from left to right.  [skip] counts the
    characters of the current match that are still to be consumed; at
    [skip = 0] the pattern is tried at the position, a match emits its
    replacement and the scan resumes after it, and otherwise the
    character is copied.  This is [re.sub]'s leftmost, non-overlapping
    replacement. *)
Fixpoint sub (m : matcher) (prev : option ascii) (skip : nat)
         (s : list ascii) : list ascii :=
  match s with
  | [] => []
  | c :: rest =>
      match skip with
      | S k => sub m (Some c) k rest
      | O =>
          match m prev s with
          | Some (repl, S k) => repl ++ sub m (Some c) k rest
          | _ => c :: sub m (Some c) 0 rest
          end
      end
  end.

Definition re_sub (m : matcher) (s : list ascii) : list ascii :=
  sub m None 0 s.

(** Length of the longest prefix made of characters in the class [p]:
    what a greedy [p*] consumes. *)
Fixpoint span (p : ascii -> bool) (s : list ascii) : nat :=
  match s with
  | c :: rest => if p c then S (span p rest) else 0
  | [] => 0
  end.

(** [re.search]: is there a position of [s], the end included, where
    the pattern [p] matches? *)
Fixpoint search (p : option ascii -> list ascii -> bool)
         (prev : option ascii) (s : list ascii) : bool :=
  p prev s ||
  match s with
  | [] => false
  | c :: rest => search p (Some c) rest
  end.

End Re.

(** ** The text normalizer: [CerebrasRAGAgent._clean] *)

Module Normalizer.
Import Chars Re.

(** [(?:\b[A-Za-z]\s){2,}\b[A-Za-z]] at one position.
    [spaced_letters prev s = Some n] when [s] starts with a letter at a
    word boundary and [n] is the largest number of groups
    [\b[A-Za-z]\s] that can be followed by a last [\b[A-Za-z]]; the
    greedy [{2,}] takes that many groups when [n >= 2]. *)
Fixpoint spaced_letters (prev : option ascii) (s : list ascii) : option nat :=
  match s with
  | c :: rest =>
      if boundary prev (Some c) && is_letter c then
        match rest with
        | w :: rest' =>
            if is_space w then
              match spaced_letters (Some w) rest' with
              | Some n => Some (S n)
              | None => Some 0
              end
            else Some 0
        | [] => Some 0
        end
      else None
  | [] => None
  end.

(** The replacement is [m.group(0).replace(' ', '')]: the match without
    its space characters (U+0020 only; other whitespace stays). *)
Definition m_spaced : matcher := fun prev s =>
  match spaced_letters prev s with
  | Some n =>
      if (2 <=? n)%nat
      then Some (List.filter (fun c => negb (is_blank c)) (take (2 * n + 1) s),
                 2 * n + 1)
      else None
  | None => None
  end.

(** [\s*_+\s*] replaced by one space. *)
Definition m_underscores : matcher := fun _ s =>
  let a := span is_space s in
  let s1 := drop a s in
  let b := span is_underscore s1 in
  let c := span is_space (drop b s1) in
  if (1 <=? b)%nat then Some ([space], a + b + c) else None.

(** [\s+] replaced by one space. *)
Definition m_whitespace : matcher := fun _ s =>
  let a := span is_space s in
  if (1 <=? a)%nat then Some ([space], a) else None.

(** [\(\s+] replaced by the parenthesis. *)
Definition m_lparen : matcher := fun _ s =>
  match s with
  | c :: rest =>
      let a := span is_space rest in
      if is_lparen c && (1 <=? a)%nat then Some ([c], S a) else None
  | [] => None
  end.

(** [\s+\)] replaced by the parenthesis. *)
Definition m_rparen : matcher := fun _ s =>
  let a := span is_space s in
  match drop a s with
  | c :: _ =>
      if (1 <=? a)%nat && is_rparen c then Some ([c], S a) else None
  | [] => None
  end.

(** [\s*([:;,.\$])\s*] replaced by [\1] and one space. *)
Definition m_punct : matcher := fun _ s =>
  let a := span is_space s in
  match drop a s with
  | c :: rest =>
      if is_punct c then Some ([c; space], a + 1 + span is_space rest)
      else None
  | [] => None
  end.

(** [text.replace('\\', '')]. *)
Definition drop_backslashes (s : list ascii) : list ascii :=
  List.filter (fun c => negb (is_backslash c)) s.

(** [text.strip()]. *)
Definition lstrip (s : list ascii) : list ascii := drop (span is_space s) s.
Definition rstrip (s : list ascii) : list ascii := rev (lstrip (rev s)).
Definition strip (s : list ascii) : list ascii := rstrip (lstrip s).

(** The seven passes of [_clean], in the order of the source. *)
Definition join_spaced (s : list ascii) := re_sub m_spaced s.
Definition drop_underscores (s : list ascii) := re_sub m_underscores s.
Definition collapse_whitespace (s : list ascii) := re_sub m_whitespace s.
Definition tidy_lparen (s : list ascii) := re_sub m_lparen s.
Definition tidy_rparen (s : list ascii) := re_sub m_rparen s.
Definition tidy_punct (s : list ascii) := re_sub m_punct s.

Definition clean_chars (s : list ascii) : list ascii :=
  let s := join_spaced s in
  let s := drop_underscores s in
  let s := collapse_whitespace s in
  let s := tidy_lparen s in
  let s := tidy_rparen s in
  let s := tidy_punct s in
  let s := drop_backslashes s in
  strip s.

Definition _clean (text : string) : string :=
  string_of_list_ascii (clean_chars (list_ascii_of_string text)).

(** A tame character: no underscore, no backslash, and no whitespace
    other than the space character. *)
Definition tame_char (c : ascii) : bool :=
  negb (is_underscore c) && negb (is_backslash c)
  && (negb (is_space c) || is_blank c).

Fixpoint single_spaced (s : list ascii) : bool :=
  match s with
  | c :: rest =>
      match rest with
      | d :: _ => negb (is_space c && is_space d)
      | [] => true
      end && single_spaced rest
  | [] => true
  end.

(** No character of the class [p] is directly followed by one of the
    class [q]. *)
Fixpoint no_pair (p q : ascii -> bool) (s : list ascii) : bool :=
  match s with
  | c :: rest =>
      match rest with
      | d :: _ => negb (p c && q d)
      | [] => true
      end && no_pair p q rest
  | [] => true
  end.

(** Tame text: no underscore and no backslash, and no whitespace other
    than single space characters; parentheses and punctuation are
    allowed. *)
Definition tame_chars (s : list ascii) : bool :=
  forallb tame_char s && single_spaced s.

Definition tame_text (text : string) : bool :=
  tame_chars (list_ascii_of_string text).

End Normalizer.

(** ** The history-question classifier *)

Module Classifier.
Import Chars Re.

(** The eleven patterns have the shape [\bG1 G2 ... Gn\b] where each
    group [Gi] is a literal or an alternation of literals.  A pattern is
    the list of its groups, a group the list of its alternatives. *)
Definition pattern := list (list string).

Definition history_patterns : list pattern :=
  [ [["first message"]];
    [["earlier"]];
    [["previous"]];
    [["what did i "]; ["say"; "ask"; "tell"]];
    [["my "]; ["first"; "last"; "previous"]; [" "]; ["message"; "question"]];
    [["our conversation"]];
    [["history"]];
    [["before"]];
    [["remember when"]];
    [["i "]; ["said"; "asked"; "told"]];
    [["you "]; ["said"; "told"; "answered"]] ].

(** The literal [lit] at the head of [s]: what is left of [s] and the
    character before it. *)
Fixpoint literal (lit : list ascii) (prev : option ascii) (s : list ascii)
  : option (option ascii * list ascii) :=
  match lit with
  | [] => Some (prev, s)
  | c :: lit' =>
      match s with
      | d :: s' =>
          if Ascii.eqb c d then literal lit' (Some d) s' else None
      | [] => None
      end
  end.

(** The groups in sequence and the closing [\b]; an alternation tries
    its alternatives in order and moves to the next one when the rest of
    the pattern fails. *)
Fixpoint groups (gs : pattern) (prev : option ascii) (s : list ascii) : bool :=
  match gs with
  | [] => boundary prev (head s)
  | alts :: gs' =>
      existsb
        (fun alt =>
           match literal (list_ascii_of_string alt) prev s with
           | Some (prev', s') => groups gs' prev' s'
           | None => false
           end)
        alts
  end.

(** The whole pattern at one position: the opening [\b], then the
    groups. *)
Definition at_position (p : pattern) (prev : option ascii) (s : list ascii)
  : bool :=
  boundary prev (head s) && groups p prev s.

Definition lower_str (s : string) : list ascii :=
  List.map lower (list_ascii_of_string s).

(** [is_conversation_history_question]. *)
Definition is_conversation_history_question (question : string) : bool :=
  let question_lower := lower_str question in
  existsb (fun p => search (at_position p) None question_lower)
          history_patterns.

End Classifier.

(** ** Python values used by both modules *)

(** An exception, carrying what [str(e)] prints. *)
Inductive exn := Exn (msg : string).

Definition exn_str (e : exn) : string := match e with Exn msg => msg end.

(** The outcome of a Python call: it returns a value or raises. *)
Inductive result (A : Type) :=
| Ok (a : A)
| Raised (e : exn).
Arguments Ok {A} a.
Arguments Raised {A} e.

(** [s[:n]] on a string. *)
Fixpoint str_take (n : nat) (s : string) : string :=
  match n, s with
  | S n', String c s' => String c (str_take n' s')
  | _, _ => EmptyString
  end.

(** [part] is made of the first [n] characters of [whole], or is all of
    [whole] when [whole] is shorter. *)
Definition first_chars (n : nat) (whole part : string) : Prop :=
  (exists rest, whole = part ++ rest)
  /\ String.length part = Nat.min n (String.length whole).

(** [sep.join(parts)]. *)
Fixpoint join (sep : string) (parts : list string) : string :=
  match parts with
  | [] => ""
  | [p] => p
  | p :: rest => p ++ sep ++ join sep rest
  end.

Definition newline : string := String (ascii_of_nat 10) EmptyString.

(** [l[i]] for a Python integer [i]: positions count from the end when
    [i] is negative, and an [IndexError] is raised outside
    [-len(l) <= i < len(l)].  The text of the error is CPython's: an
    index that does not fit the 64-bit [Py_ssize_t] is refused before the
    list is looked at.  (A list holds fewer than [2^63] items, so an
    index within range always fits.) *)
Definition fits_index (i : Z) : bool :=
  (- 2 ^ 63 <=? i)%Z && (i <? 2 ^ 63)%Z.

Definition index_error (i : Z) : exn :=
  if fits_index i then Exn "list index out of range"
  else Exn "cannot fit 'int' into an index-sized integer".

Definition py_index {A : Type} (l : list A) (i : Z) : result A :=
  let n := Z.of_nat (List.length l) in
  let j := if (i <? 0)%Z then (n + i)%Z else i in
  if (0 <=? j)%Z && (j <? n)%Z then
    match l !! Z.to_nat j with
    | Some x => Ok x
    | None => Raised (index_error i)
    end
  else Raised (index_error i).

(** [langchain_core.documents.Document].  The [metadata] dictionary is read
    with [.get(key, default)] only, so a key is present or absent. *)
Record Metadata := {
  md_source : option string;
  md_title : option string;
  md_section : option string;
  md_content_type : option string;
  md_chunk_index : option nat;
  md_total_chunks : option nat
}.

Record Document := {
  page_content : string;
  metadata : Metadata
}.

(** A state-and-exception monad: a Python procedure acts on a state [S]
    and returns or raises.  The state reached when an exception is raised
    is kept, as the side effects made before a Python exception are. *)
Module Py.

Definition M (S A : Type) : Type := S -> result A * S.

Definition ret {S A} (a : A) : M S A := fun s => (Ok a, s).

Definition raise {S A} (e : exn) : M S A := fun s => (Raised e, s).

Definition bind {S A B} (m : M S A) (k : A -> M S B) : M S B :=
  fun s =>
    match m s with
    | (Ok a, s') => k a s'
    | (Raised e, s') => (Raised e, s')
    end.

(** [try: m  except Exception as e: handler e]. *)
Definition try_except {S A} (m : M S A) (handler : exn -> M S A) : M S A :=
  fun s =>
    match m s with
    | (Ok a, s') => (Ok a, s')
    | (Raised e, s') => handler e s'
    end.

Definition get {S} : M S S := fun s => (Ok s, s).
Definition modify {S} (f : S -> S) : M S unit := fun s => (Ok tt, f s).

(** Lift the outcome of an external call. *)
Definition lift {S A} (r : result A) : M S A := fun s => (r, s).

(** [for x in xs: body x]. *)
Fixpoint for_each {S A} (xs : list A) (body : A -> M S unit) : M S unit :=
  match xs with
  | [] => ret tt
  | x :: rest => bind (body x) (fun _ => for_each rest body)
  end.

(** A procedure keeps a relation between the state it starts from and
    the state it leaves, whether it returns or raises. *)
Definition keeps {S A} (R : S -> S -> Prop) (m : M S A) : Prop :=
  forall s, R s (snd (m s)).

(** Whatever a procedure returns satisfies [P]. *)
Definition returns_only {S A} (P : A -> Prop) (m : M S A) : Prop :=
  forall s a s', m s = (Ok a, s') -> P a.

End Py.

Declare Scope py_scope.
Delimit Scope py_scope with py.
Notation "x <- m ;; k" := (Py.bind m (fun x => k))
  (at level 20, m at level 99, k at level 200, only parsing) : py_scope.
Notation "m ;;; k" := (Py.bind m (fun _ => k))
  (at level 100, k at level 200, right associativity, only parsing) : py_scope.

(** ** The agent: [cerebras_rag/agents] *)

Module Agent.
Import Py.

(** [models.py]. *)
Record Citation := {
  source_id : Z;
  quote : string
}.

Record QuotedAnswer := {
  answer : string;
  citations : list Citation
}.

Inductive Message :=
| HumanMessage (content : string)
| AIMessage (content : string).

Definition content_of (m : Message) : string :=
  match m with HumanMessage c => c | AIMessage c => c end.

(** What [generate_with_citations] can return: the structured answer,
    [None] when the structured-output chain parsed nothing out of the
    model's reply, the model's message when structured output is off, or
    the fallback dictionary [{"answer": ...}] of that mode. *)
Inductive Generated :=
| GenQuoted (a : QuotedAnswer)
| GenNone
| GenMessage (content : string)
| GenDict (answer_text : string).

(** The dictionaries that the streaming generator yields. *)
Inductive StatusMessage :=
| StRetrieving
| StRetrieved (count : nat)
| StGenerating
| StGeneratingPlain
| StSearchingHistory.

Inductive Chunk :=
| ChStatus (message : StatusMessage)
| ChError (message : string)
| ChWarning (message : string)
| ChAnswer (content : string)
| ChCitationsHeader
| ChCitation (source_id : Z) (quote title url : string).

(** Calls that leave the process. *)
Inductive Event :=
| EvSimilaritySearch (question : string) (k : nat)
| EvRerank (question : string) (k top_n : nat)
| EvChain (structured : bool) (context question : string)
| EvLlm (messages : list Message)
| EvGetState (thread : string)
| EvGraphInvoke (thread : string) (messages : list Message)
| EvGraphStream (thread : string) (messages : list Message).

(** The hosted services, as oracles.
    - [similarity_search q k]: [self.vector_store.similarity_search(q, k=k)]
      (it raises when the store is not initialised);
    - [cohere_key]: [os.getenv("COHERE_API_KEY")] is set;
    - [rerank q k top_n]: building the [CohereRerank] compressor with
      [top_n], the compression retriever over the store with [k], and
      [invoke(q)];
    - [structured_chain context q], [plain_chain context q]:
      [chain.invoke] with and without [with_structured_output]; the
      structured chain returns the parsed [QuotedAnswer], returns [None]
      when there is nothing to parse, or raises;
    - [llm msgs]: [self.llm.invoke(msgs).content];
    - [get_state_fault thread]: the exception, if any, that
      [self.graph.get_state] raises. *)
Record Services := {
  similarity_search : string -> nat -> result (list Document);
  cohere_key : bool;
  rerank : string -> nat -> nat -> result (list Document);
  structured_chain : string -> string -> result (option QuotedAnswer);
  plain_chain : string -> string -> result string;
  llm : list Message -> result string;
  get_state_fault : string -> option exn
}.

(** The agent's mutable state: whether [self.graph] is set, the
    checkpointer's messages per thread, the external calls made so far
    and, for the generator, the chunks yielded so far. *)
Record State := {
  graph : bool;
  memory : gmap string (list Message);
  log : list Event;
  yielded : list Chunk
}.

Definition with_memory (f : gmap string (list Message) -> gmap string (list Message))
           (s : State) : State :=
  {| graph := graph s; memory := f (memory s); log := log s;
     yielded := yielded s |}.

Definition with_log (e : Event) (s : State) : State :=
  {| graph := graph s; memory := memory s; log := (log s ++ [e])%list;
     yielded := yielded s |}.

Definition with_chunk (c : Chunk) (s : State) : State :=
  {| graph := graph s; memory := memory s; log := log s;
     yielded := (yielded s ++ [c])%list |}.

Definition call {A} (e : Event) (r : result A) : M State A :=
  (modify (with_log e) ;;; lift r)%py.

(** [yield c]. *)
Definition yield (c : Chunk) : M State unit := modify (with_chunk c).

Section WithServices.
Variable svc : Services.

Definition default_thread : string := "1".

(** [config] is [None] or [{"configurable": {"thread_id": t}}]. *)
Definition thread_of (config : option string) : string :=
  match config with Some t => t | None => default_thread end.

(** [format_docs_with_id]. *)
Definition format_doc (i : nat) (doc : Document) : string :=
  let source := default "Unknown source" (md_source (metadata doc)) in
  let title := default "Untitled" (md_title (metadata doc)) in
  let snippet := Normalizer._clean (page_content doc) in
  "Source ID: " ++ pretty i ++ newline
  ++ "Document Title: " ++ title ++ newline
  ++ "Source: " ++ source ++ newline
  ++ "Content: " ++ snippet.

Definition format_docs_with_id (docs : list Document) : string :=
  join (newline ++ newline ++ "---" ++ newline ++ newline)
       (imap format_doc docs).

(** [retrieve_with_citations]. *)
Definition retrieve_with_citations (question : string) (k : nat)
           (use_reranking : bool) : M State (list Document) :=
  try_except
    (retrieved_docs <- call (EvSimilaritySearch question k)
                            (similarity_search svc question k) ;;
     if use_reranking && cohere_key svc then
       try_except
         (reranked_docs <- call (EvRerank question k 4)
                                (rerank svc question k 4) ;;
          ret reranked_docs)
         (fun _ => ret retrieved_docs)
     else ret retrieved_docs)%py
    (fun _ => ret []).

(** The default [k] of [retrieve_with_citations]. *)
Definition default_k : nat := 6.

(** [generate_with_citations]. *)
Definition generation_failure (e : exn) : string :=
  "I encountered an error generating a response: " ++ exn_str e.

Definition generate_with_citations (question : string)
           (documents : list Document) (use_structured_output : bool)
  : M State Generated :=
  let context := format_docs_with_id documents in
  try_except
    (if use_structured_output then
       (response <- call (EvChain true context question)
                         (structured_chain svc context question) ;;
        ret (match response with
             | Some a => GenQuoted a
             | None => GenNone
             end))%py
     else
       (response <- call (EvChain false context question)
                         (plain_chain svc context question) ;;
        ret (GenMessage response))%py)
    (fun e =>
       if use_structured_output then
         ret (GenQuoted {| answer := generation_failure e;
                           citations := [] |})
       else ret (GenDict (generation_failure e))).

(** [response.answer] in the callers: an [AttributeError] on a value
    that is not a [QuotedAnswer]. *)
Definition as_quoted (g : Generated) : M State QuotedAnswer :=
  match g with
  | GenQuoted a => ret a
  | GenNone => raise (Exn "'NoneType' object has no attribute 'answer'")
  | GenMessage _ => raise (Exn "'AIMessage' object has no attribute 'answer'")
  | GenDict _ => raise (Exn "'dict' object has no attribute 'answer'")
  end.

(** [self.graph.invoke({"messages": msgs}, config)]: the graph has the
    single node [call_model].  The input is appended to the thread's
    messages and checkpointed, the node calls the model on the whole
    list, and the reply is appended.  The value is the final list. *)
Definition graph_invoke (thread : string) (msgs : list Message)
  : M State (list Message) :=
  (s <- get ;;
   let history := (default [] (memory s !! thread) ++ msgs)%list in
   modify (with_log (EvGraphInvoke thread msgs)) ;;;
   modify (with_memory <[thread := history]>) ;;;
   reply <- call (EvLlm history) (llm svc history) ;;
   let final := (history ++ [AIMessage reply])%list in
   modify (with_memory <[thread := final]>) ;;;
   ret final)%py.

(** [get_conversation_history]. *)
Definition get_conversation_history (thread : string)
  : M State (list Message) :=
  (s <- get ;;
   if negb (graph s) then ret []
   else
     try_except
       (modify (with_log (EvGetState thread)) ;;;
        match get_state_fault svc thread with
        | Some e => raise e
        | None =>
            match memory s !! thread with
            | Some msgs => ret msgs
            | None => ret []
            end
        end)
       (fun _ => ret []))%py.

Definition is_human (m : Message) : bool :=
  match m with HumanMessage _ => true | AIMessage _ => false end.

Definition history_line (m : Message) : string :=
  (if is_human m then "Human" else "Assistant") ++ ": " ++ content_of m.

Definition history_prompt (question : string) (history : list Message)
  : string :=
  "Based on our conversation history, please answer this question: "
  ++ question ++ newline ++ newline ++ "Conversation History:" ++ newline
  ++ join newline (List.map history_line history).

Definition no_history_message : string :=
  "I don't have any conversation history to reference. This appears to be the start of our conversation.".

Definition no_documents_message : string :=
  "No relevant documents found. Please check if the vector database is populated.".

Definition save_failure (e : exn) : string :=
  "Failed to save to memory: " ++ exn_str e.

(** The two messages that both paths hand to the graph after an
    exchange. *)
Definition exchange (question reply : string) : list Message :=
  [HumanMessage question; AIMessage reply].

(** [_handle_history_question], a generator. *)
Definition _handle_history_question (question thread : string)
  : M State unit :=
  (yield (ChStatus StSearchingHistory) ;;;
   history <- get_conversation_history thread ;;
   match history with
   | [] => yield (ChAnswer no_history_message)
   | _ :: _ =>
       let prompt := [HumanMessage (history_prompt question history)] in
       response <- call (EvLlm prompt) (llm svc prompt) ;;
       yield (ChAnswer response) ;;;
       s <- get ;;
       if graph s then
         try_except
           (graph_invoke thread (exchange question response) ;;; ret tt)
           (fun e => yield (ChWarning (save_failure e)))
       else ret tt
   end)%py.

(** The body of the loop over [response.citations]. *)
Definition emit_citation (documents : list Document) (citation : Citation)
  : M State unit :=
  if (source_id citation <? Z.of_nat (List.length documents))%Z then
    (doc <- lift (py_index documents (source_id citation)) ;;
     let source_url := default "Unknown source" (md_source (metadata doc)) in
     let title := default "Untitled" (md_title (metadata doc)) in
     yield (ChCitation (source_id citation) (quote citation) title source_url))%py
  else ret tt.

(** [self.graph.stream(..., stream_mode="values")] and the loop over
    it: the state after the input and the state after [call_model]
    are visited, and the last message is yielded when it is an
    [AIMessage]. *)
Definition yield_last_ai (msgs : list Message) : M State unit :=
  match last msgs with
  | Some (AIMessage c) => yield (ChAnswer c)
  | _ => ret tt
  end.

Definition graph_stream (thread : string) (msgs : list Message)
  : M State unit :=
  (s <- get ;;
   let history := (default [] (memory s !! thread) ++ msgs)%list in
   modify (with_log (EvGraphStream thread msgs)) ;;;
   modify (with_memory <[thread := history]>) ;;;
   yield_last_ai history ;;;
   reply <- call (EvLlm history) (llm svc history) ;;
   let final := (history ++ [AIMessage reply])%list in
   modify (with_memory <[thread := final]>) ;;;
   yield_last_ai final)%py.

(** [stream_response_with_citations], a generator: the chunks it
    yields are appended to [yielded]. *)
Definition stream_response_with_citations (question : string)
           (use_citations use_reranking : bool) (config : option string)
  : M State unit :=
  let thread := thread_of config in
  try_except
    (if Classifier.is_conversation_history_question question then
       _handle_history_question question thread
     else if use_citations then
       (yield (ChStatus StRetrieving) ;;;
        documents <- retrieve_with_citations question default_k use_reranking ;;
        match documents with
        | [] => yield (ChError no_documents_message)
        | _ :: _ =>
            yield (ChStatus (StRetrieved (List.length documents))) ;;;
            yield (ChStatus StGenerating) ;;;
            generated <- generate_with_citations question documents true ;;
            response <- as_quoted generated ;;
            yield (ChAnswer (answer response)) ;;;
            match citations response with
            | [] => ret tt
            | _ :: _ =>
                yield ChCitationsHeader ;;;
                for_each (citations response) (emit_citation documents)
            end ;;;
            s <- get ;;
            if graph s then
              try_except
                (graph_invoke thread (exchange question (answer response)) ;;;
                 ret tt)
                (fun e => yield (ChWarning (save_failure e)))
            else ret tt
        end)%py
     else
       (yield (ChStatus StGeneratingPlain) ;;;
        s <- get ;;
        if graph s then graph_stream thread [HumanMessage question]
        else
          (response <- call (EvLlm [HumanMessage question])
                            (llm svc [HumanMessage question]) ;;
           yield (ChAnswer response)))%py)
    (fun e => yield (ChError ("An error occurred: " ++ exn_str e))).

Definition processing_failure (e : exn) : string :=
  "An error occurred while processing your question: " ++ exn_str e.

(** [result["messages"][-1].content]. *)
Definition last_content (msgs : list Message) : M State string :=
  (m <- lift (py_index msgs (-1)) ;; ret (content_of m))%py.

(** [ask_question].  On the citation path the value of
    [generate_with_citations] is returned as it is, so the function
    returns a [Generated]; every other [return] builds a
    [QuotedAnswer]. *)
Definition ask_question (question : string)
           (use_citations use_reranking : bool) (config : option string)
  : M State Generated :=
  let thread := thread_of config in
  try_except
    (if Classifier.is_conversation_history_question question then
       (history <- get_conversation_history thread ;;
        match history with
        | [] =>
            ret (GenQuoted {| answer := no_history_message; citations := [] |})
        | _ :: _ =>
            let prompt := [HumanMessage (history_prompt question history)] in
            response <- call (EvLlm prompt) (llm svc prompt) ;;
            let result := {| answer := response; citations := [] |} in
            s <- get ;;
            (if graph s then
               graph_invoke thread (exchange question response) ;;; ret tt
             else ret tt) ;;;
            ret (GenQuoted result)
        end)%py
     else if use_citations then
       (documents <- retrieve_with_citations question default_k use_reranking ;;
        match documents with
        | [] =>
            ret (GenQuoted {| answer := no_documents_message;
                              citations := [] |})
        | _ :: _ =>
            response <- generate_with_citations question documents true ;;
            s <- get ;;
            (if graph s then
               quoted <- as_quoted response ;;
               graph_invoke thread (exchange question (answer quoted)) ;;;
               ret tt
             else ret tt) ;;;
            ret response
        end)%py
     else
       (s <- get ;;
        if graph s then
          (result <- graph_invoke thread [HumanMessage question] ;;
           content <- last_content result ;;
           ret (GenQuoted {| answer := content; citations := [] |}))
        else
          (response <- call (EvLlm [HumanMessage question])
                            (llm svc [HumanMessage question]) ;;
           ret (GenQuoted {| answer := response; citations := [] |})))%py)
    (fun e =>
       ret (GenQuoted {| answer := processing_failure e; citations := [] |})).

End WithServices.

(** A fresh agent: no graph, nothing remembered, nothing called or
    yielded yet; [initialize_graph] sets the graph. *)
Definition fresh : State :=
  {| graph := false; memory := ∅; log := []; yielded := [] |}.

Definition initialize_graph (s : State) : State :=
  if graph s then s
  else {| graph := true; memory := ∅; log := log s; yielded := yielded s |}.

(** The chunks a consumer that drains the generator receives. *)
Definition chunks_of {A} (r : result A * State) : list Chunk := yielded (snd r).

Definition is_citation (c : Chunk) : bool :=
  match c with ChCitation _ _ _ _ => true | _ => false end.

(** The citation chunk yielded for [citation] when its source resolves to
    [doc]. *)
Definition citation_chunk (citation : Citation) (doc : Document) : Chunk :=
  ChCitation (source_id citation) (quote citation)
             (default "Untitled" (md_title (metadata doc)))
             (default "Unknown source" (md_source (metadata doc))).

(** What the loop body yields for [citation]: nothing when the guard
    rejects it, otherwise the chunk for the document that indexing
    resolves. *)
Definition emitted (documents : list Document) (citation : Citation)
  : list Chunk :=
  if (source_id citation <? Z.of_nat (List.length documents))%Z then
    match py_index documents (source_id citation) with
    | Ok doc => [citation_chunk citation doc]
    | Raised _ => []
    end
  else [].

(** [0 <= source_id < len(documents)]. *)
Definition in_range (documents : list Document) (sid : Z) : Prop :=
  (0 <= sid < Z.of_nat (List.length documents))%Z.

(** The thread's messages as [get_conversation_history] sees them when
    the checkpointer answers. *)
Definition remembered (s : State) (thread : string) : list Message :=
  if graph s then default [] (memory s !! thread) else [].

(** The contracts of the hosted services that the retrieval bounds rest
    on: the store answers a query for [k] neighbours with at most [k]
    documents in descending similarity, and the reranker keeps at most
    [top_n] of its candidates. *)
Definition ranked (score : Document -> Q) (docs : list Document) : Prop :=
  Sorted (fun a b => (score b <= score a)%Q) docs.

Definition store_contract (svc : Services)
           (similarity : string -> Document -> Q)
           (question : string) (k : nat) : Prop :=
  forall found,
    similarity_search svc question k = Ok found ->
    (List.length found <= k)%nat /\ ranked (similarity question) found.

Definition rerank_contract (svc : Services) (question : string) (k : nat)
  : Prop :=
  forall kept,
    rerank svc question k 4 = Ok kept -> (List.length kept <= 4)%nat.

(** The retrieval and citation calls among the external calls. *)
Definition is_retrieval_event (e : Event) : bool :=
  match e with
  | EvSimilaritySearch _ _ | EvRerank _ _ _ | EvChain _ _ _ => true
  | _ => false
  end.

(** Relations between the state before and after a call of the agent:
    chunks are only added; the graph flag and the messages of the threads
    other than [thread] stay; the calls added are not retrieval calls. *)
Definition extends_yielded (s s' : State) : Prop :=
  exists extra, yielded s' = (yielded s ++ extra)%list.

Definition same_elsewhere (thread : string) (s s' : State) : Prop :=
  graph s' = graph s
  /\ forall t, t <> thread -> memory s' !! t = memory s !! t.

Definition no_retrieval (s s' : State) : Prop :=
  exists new,
    log s' = (log s ++ new)%list
    /\ Forall (fun e => is_retrieval_event e = false) new.

End Agent.

(** ** The indexing pipeline: [cerebras_rag/utils/populate_vectordb.py] *)

Module Indexer.
Import Py.

(** An embedding vector.  The pipeline passes the vectors through
    without looking at their components. *)
Definition Embedding := list Z.

(** The metadata dictionary of an upserted vector. *)
Record VectorMetadata := {
  vm_text : string;
  vm_title : string;
  vm_source : string;
  vm_section : string;
  vm_content_type : string;
  vm_chunk_index : nat
}.

(** One element of [vectors]: [{'id': ..., 'values': ..., 'metadata': ...}]. *)
Record Vector := {
  v_id : string;
  v_values : Embedding;
  v_metadata : VectorMetadata
}.

Inductive Event :=
| EvCrawlFirecrawl (base_url : string)
| EvCrawlFallback (urls : list string)
| EvListIndexes
| EvCreateIndex (name : string) (dimension : nat)
| EvDescribeIndex (name : string)
| EvIndex (name : string)
| EvEmbed (texts : list string)
| EvUpsert (vectors : list Vector)
| EvDescribeStats.

(** The environment and the hosted services.
    - [cohere_key], [pinecone_key], [firecrawl_key]: the variable is set;
    - [init_fault]: the exception, if any, raised while the clients are
      built in [_initialize_services];
    - [firecrawl_documents url]: what [crawl_with_firecrawl(url)] returns
      when a Firecrawl client exists (the method catches every exception
      and returns a list);
    - [fallback_documents urls]: what [crawl_fallback(urls)] returns (it
      catches the exceptions of each fetch);
    - [split doc]: [text_splitter.split_documents([doc])];
    - [index_exists]: [INDEX_NAME] is among [list_indexes()];
    - [polls_not_ready], [wait_ready_fault]: the readiness loop
      [while not describe_index(INDEX_NAME).status['ready']] is answered
      "not ready" [polls_not_ready] times, and the poll after those
      answers "ready" or raises [wait_ready_fault].  (A service that
      answers "not ready" for ever keeps the loop running for ever; the
      record describes the services for which the loop ends.)
    - [index_fault]: the exception, if any, of
      [self.pinecone_client.Index(INDEX_NAME)];
    - [embed texts]: [self.embeddings.embed_documents(texts)];
    - the other faults: the exception, if any, of the named Pinecone
      call. *)
Record Services := {
  cohere_key : bool;
  pinecone_key : bool;
  firecrawl_key : bool;
  init_fault : option exn;
  firecrawl_documents : string -> list Document;
  fallback_documents : list string -> list Document;
  split : Document -> list Document;
  index_exists : bool;
  list_indexes_fault : option exn;
  create_index_fault : option exn;
  polls_not_ready : nat;
  wait_ready_fault : option exn;
  index_fault : option exn;
  embed : list string -> result (list Embedding);
  upsert_fault : list Vector -> option exn;
  stats_fault : option exn
}.

(** The Pinecone side: the vectors stored under their ids, whether the
    index exists, and the calls made so far. *)
Record State := {
  created : bool;
  store : gmap string Vector;
  log : list Event
}.

Definition with_log (e : Event) (s : State) : State :=
  {| created := created s; store := store s; log := (log s ++ [e])%list |}.

Definition with_created (s : State) : State :=
  {| created := true; store := store s; log := log s |}.

(** [index.upsert(vectors=...)]: each vector is written under its id, a
    vector already stored under that id being replaced. *)
Definition upsert_all (vectors : list Vector) (m : gmap string Vector)
  : gmap string Vector :=
  foldl (fun acc v => <[v_id v := v]> acc) m vectors.

Definition with_upsert (vectors : list Vector) (s : State) : State :=
  {| created := created s; store := upsert_all vectors (store s);
     log := log s |}.

Definition fault (f : option exn) : M State unit :=
  match f with Some e => raise e | None => ret tt end.

Definition call (e : Event) (f : option exn) : M State unit :=
  (modify (with_log e) ;;; fault f)%py.

Definition INDEX_NAME : string := "cerebras-docs".
Definition EMBEDDING_DIMENSION : nat := 1024.
Definition batch_size : nat := 10.

Section WithServices.
Variable svc : Services.

(** [crawl_with_firecrawl]. *)
Definition crawl_with_firecrawl (base_url : string) : M State (list Document) :=
  (modify (with_log (EvCrawlFirecrawl base_url)) ;;;
   if negb (firecrawl_key svc) then ret []
   else ret (firecrawl_documents svc base_url))%py.

(** [crawl_fallback]. *)
Definition crawl_fallback (urls : list string) : M State (list Document) :=
  (modify (with_log (EvCrawlFallback urls)) ;;;
   ret (fallback_documents svc urls))%py.

(** [chunk_documents]: every chunk of a document gets its index and
    the number of chunks of that document. *)
Definition set_chunk (i total : nat) (chunk : Document) : Document :=
  {| page_content := page_content chunk;
     metadata :=
       {| md_source := md_source (metadata chunk);
          md_title := md_title (metadata chunk);
          md_section := md_section (metadata chunk);
          md_content_type := md_content_type (metadata chunk);
          md_chunk_index := Some i;
          md_total_chunks := Some total |} |}.

Definition chunk_documents (documents : list Document) : list Document :=
  List.concat (List.map
            (fun doc =>
               let chunks := split svc doc in
               imap (fun i chunk => set_chunk i (List.length chunks) chunk)
                    chunks)
            documents).

(** The loop [while not describe_index(INDEX_NAME).status['ready']]:
    one [describe_index] call per turn, [not_ready] of them answered
    "not ready", and the one that ends the loop. *)
Fixpoint wait_until_ready (not_ready : nat) : M State unit :=
  match not_ready with
  | O => call (EvDescribeIndex INDEX_NAME) (wait_ready_fault svc)
  | S n =>
      (modify (with_log (EvDescribeIndex INDEX_NAME)) ;;;
       wait_until_ready n)%py
  end.

(** [setup_pinecone_index]: both [return]s build the handle with
    [self.pinecone_client.Index(INDEX_NAME)]. *)
Definition setup_pinecone_index : M State unit :=
  (call EvListIndexes (list_indexes_fault svc) ;;;
   s <- get ;;
   if index_exists svc || created s then
     call (EvIndex INDEX_NAME) (index_fault svc)
   else
     (call (EvCreateIndex INDEX_NAME EMBEDDING_DIMENSION)
           (create_index_fault svc) ;;;
      modify with_created ;;;
      wait_until_ready (polls_not_ready svc) ;;;
      call (EvIndex INDEX_NAME) (index_fault svc)))%py.

(** The vector built for the document at position [j] of the batch
    that starts at offset [i]. *)
Definition vector_id (n : nat) : string := "doc_" ++ pretty n.

Definition vector_metadata (doc : Document) : VectorMetadata :=
  {| vm_text := str_take 1000 (page_content doc);
     vm_title := str_take 100 (default "" (md_title (metadata doc)));
     vm_source := str_take 200 (default "" (md_source (metadata doc)));
     vm_section := default "" (md_section (metadata doc));
     vm_content_type := default "" (md_content_type (metadata doc));
     vm_chunk_index := default 0 (md_chunk_index (metadata doc)) |}.

Definition make_vector (i j : nat) (pair : Document * Embedding) : Vector :=
  {| v_id := vector_id (i + j);
     v_values := snd pair;
     v_metadata := vector_metadata (fst pair) |}.

(** [enumerate(zip(batch, embeddings))]: [zip] stops at the shorter
    list. *)
Definition batch_vectors (i : nat) (batch : list Document)
           (embeddings : list Embedding) : list Vector :=
  imap (make_vector i) (zip batch embeddings).

(** [range(0, n, batch_size)]. *)
Definition batch_offsets (n : nat) : list nat :=
  List.map (fun b => b * batch_size) (seq 0 ((n + batch_size - 1) / batch_size)).

(** [documents[i:i + batch_size]]. *)
Definition batch_at (documents : list Document) (i : nat) : list Document :=
  take batch_size (drop i documents).

(** One turn of the loop: the [try] block and its [except ... continue]. *)
Definition process_batch (documents : list Document) (i : nat) : M State unit :=
  let batch := batch_at documents i in
  try_except
    (let texts := List.map page_content batch in
     modify (with_log (EvEmbed texts)) ;;;
     embeddings <- lift (embed svc texts) ;;
     let vectors := batch_vectors i batch embeddings in
     call (EvUpsert vectors) (upsert_fault svc vectors) ;;;
     modify (with_upsert vectors))%py
    (fun _ => ret tt).

(** [populate_index]. *)
Definition populate_index (documents : list Document) : M State unit :=
  match documents with
  | [] => ret tt
  | _ :: _ =>
      (setup_pinecone_index ;;;
       for_each (batch_offsets (List.length documents))
                (process_batch documents) ;;;
       call EvDescribeStats (stats_fault svc))%py
  end.

Definition base_urls : list string :=
  ["https://inference-docs.cerebras.ai/"].

Definition fallback_urls : list string :=
  ["https://inference-docs.cerebras.ai/introduction";
   "https://inference-docs.cerebras.ai/quickstart";
   "https://inference-docs.cerebras.ai/api-reference";
   "https://inference-docs.cerebras.ai/guides"].

(** The loop over [base_urls] that extends [all_documents]. *)
Fixpoint crawl_all (urls : list string) (all_documents : list Document)
  : M State (list Document) :=
  match urls with
  | [] => ret all_documents
  | base_url :: rest =>
      (docs <- crawl_with_firecrawl base_url ;;
       crawl_all rest (all_documents ++ docs)%list)%py
  end.

(** [main].  The [except] clause prints and raises the exception
    again, so [main] raises what its body raises. *)
Definition main : M State unit :=
  if negb (cohere_key svc) || negb (pinecone_key svc) then ret tt
  else
    (fault (init_fault svc) ;;;
     all_documents <- crawl_all base_urls [] ;;
     all_documents <-
       (if (List.length all_documents <? 5)%nat then
          (fallback_docs <- crawl_fallback fallback_urls ;;
           ret (all_documents ++ fallback_docs)%list)
        else ret all_documents) ;;
     match all_documents with
     | [] => ret tt
     | _ :: _ =>
         let chunked_documents := chunk_documents all_documents in
         populate_index chunked_documents
     end)%py.

End WithServices.

Definition initial : State := {| created := false; store := ∅; log := [] |}.

(** The calls that change the index. *)
Definition is_mutation (e : Event) : bool :=
  match e with
  | EvCreateIndex _ _ | EvUpsert _ => true
  | _ => false
  end.

Definition is_fallback (e : Event) : bool :=
  match e with EvCrawlFallback _ => true | _ => false end.

Definition upserts (l : list Event) : list (list Vector) :=
  omap (fun e => match e with EvUpsert vs => Some vs | _ => None end) l.

(** The batches of texts sent to the embedding service. *)
Definition embedded (l : list Event) : list (list string) :=
  omap (fun e => match e with EvEmbed texts => Some texts | _ => None end) l.

(** What the primary crawl of [main] produces: the documents crawled from
    the one base URL, none without a Firecrawl client. *)
Definition primary_documents (svc : Services) : list Document :=
  if firecrawl_key svc
  then firecrawl_documents svc "https://inference-docs.cerebras.ai/"
  else [].

(** [main] gets as far as crawling: both required variables are set and
    the clients are built. *)
Definition reaches_crawl (svc : Services) : Prop :=
  cohere_key svc = true /\ pinecone_key svc = true /\ init_fault svc = None.

(** The vectors that the batch at offset [i] stores: all of the batch's
    vectors when the embedding call returns and the upsert goes through,
    none otherwise. *)
Definition batch_stored (svc : Services) (documents : list Document)
           (i : nat) : list Vector :=
  let batch := batch_at documents i in
  match embed svc (List.map page_content batch) with
  | Ok embeddings =>
      let vectors := batch_vectors i batch embeddings in
      match upsert_fault svc vectors with
      | None => vectors
      | Some _ => []
      end
  | Raised _ => []
  end.

(** The calls that the batch at offset [i] makes. *)
Definition batch_events (svc : Services) (documents : list Document)
           (i : nat) : list Event :=
  let batch := batch_at documents i in
  let texts := List.map page_content batch in
  match embed svc texts with
  | Ok embeddings => [EvEmbed texts; EvUpsert (batch_vectors i batch embeddings)]
  | Raised _ => [EvEmbed texts]
  end.

(** The embedding service answers every batch with one vector per text,
    and no upsert fails. *)
Definition services_up (svc : Services) : Prop :=
  (forall texts, exists embeddings,
      embed svc texts = Ok embeddings
      /\ List.length embeddings = List.length texts)
  /\ (forall vectors, upsert_fault svc vectors = None).

(** The offset of the batch that holds the document at offset [n], and
    what it means for that batch to go through: the embedding service
    returns one vector per text and the upsert does not fail. *)
Definition batch_of (n : nat) : nat := n / batch_size * batch_size.

Definition batch_succeeds (svc : Services) (documents : list Document)
           (i : nat) : Prop :=
  exists embeddings,
    embed svc (List.map page_content (batch_at documents i)) = Ok embeddings
    /\ List.length embeddings = List.length (batch_at documents i)
    /\ upsert_fault svc (batch_vectors i (batch_at documents i) embeddings)
       = None.

(** The documents that [main] hands to [chunk_documents]: the primary
    crawl, and the fallback crawl when the primary one gave fewer than
    five. *)
Definition crawled_documents (svc : Services) : list Document :=
  (primary_documents svc ++
   if (List.length (primary_documents svc) <? 5)%nat
   then fallback_documents svc fallback_urls else [])%list.

(** [clean_text].  Its passes are [re.sub] calls, scanned like the passes
    of the agent's normalizer. *)

(** A literal at the head of [s]; [same] compares a character of the
    pattern with one of the text. *)
Fixpoint starts_with (same : ascii -> ascii -> bool) (lit s : list ascii)
  : bool :=
  match lit with
  | [] => true
  | c :: lit' =>
      match s with
      | d :: s' => same c d && starts_with same lit' s'
      | [] => false
      end
  end.

(** Under [re.IGNORECASE] two characters match when they lower to the
    same character. *)
Definition same_letter (c d : ascii) : bool :=
  Ascii.eqb (Chars.lower c) (Chars.lower d).

(** [Skip to main content] replaced by the empty text. *)
Definition m_skip_link : Re.matcher := fun _ s =>
  let lit := list_ascii_of_string "Skip to main content" in
  if starts_with Ascii.eqb lit s then Some ([], List.length lit) else None.

(** [Table of contents?] under [re.IGNORECASE], replaced by the empty
    text; the greedy [s?] takes the [s] when there is one. *)
Definition m_contents : Re.matcher := fun _ s =>
  let lit := list_ascii_of_string "Table of content" in
  if starts_with same_letter lit s then
    if starts_with same_letter (list_ascii_of_string "s")
         (drop (List.length lit) s)
    then Some ([], S (List.length lit))
    else Some ([], List.length lit)
  else None.

Definition fence : list ascii := list_ascii_of_string "```".

(** The number of characters before the first fence of [s]. *)
Fixpoint to_fence (s : list ascii) : option nat :=
  if starts_with Ascii.eqb fence s then Some 0
  else
    match s with
    | _ :: rest => option_map S (to_fence rest)
    | [] => None
    end.

(** [```[\s\S]*?```]: a fence, the fewest characters that reach another
    fence, and that fence; the replacement is [m.group(0).strip()]. *)
Definition m_code_block : Re.matcher := fun _ s =>
  if starts_with Ascii.eqb fence s then
    match to_fence (drop 3 s) with
    | Some n =>
        Some (Normalizer.strip (take (3 + n + 3) s), 3 + n + 3)
    | None => None
    end
  else None.

Definition is_dot (c : ascii) : bool := Chars.is_char 46 c.
Definition is_dash (c : ascii) : bool := Chars.is_char 45 c.

(** [p{3,}] replaced by [repl]. *)
Definition m_run (p : ascii -> bool) (repl : string) : Re.matcher := fun _ s =>
  let a := Re.span p s in
  if (3 <=? a)%nat then Some (list_ascii_of_string repl, a) else None.

Definition tidy_code_blocks (s : list ascii) : list ascii :=
  Re.re_sub m_code_block s.

Definition clean_text_chars (s : list ascii) : list ascii :=
  let s := Re.re_sub Normalizer.m_whitespace s in
  let s := Re.re_sub m_skip_link s in
  let s := Re.re_sub m_contents s in
  let s := tidy_code_blocks s in
  let s := Re.re_sub (m_run is_dot "...") s in
  let s := Re.re_sub (m_run is_dash "---") s in
  Normalizer.strip s.

Definition clean_text (text : string) : string :=
  match text with
  | EmptyString => ""
  | String _ _ =>
      string_of_list_ascii (clean_text_chars (list_ascii_of_string text))
  end.

(** No more than three characters of the class [p] in a row. *)
Fixpoint short_runs (p : ascii -> bool) (s : list ascii) : bool :=
  match s with
  | [] => true
  | _ :: rest => (Re.span p s <=? 3)%nat && short_runs p rest
  end.

End Indexer.

(** ** Concrete services and documents used in the examples *)

Module Scenario.
Import Agent.

Definition unavailable : exn := Exn "service unavailable".

Definition page (url title text : string) : Document :=
  {| page_content := text;
     metadata :=
       {| md_source := Some url;
          md_title := Some title;
          md_section := Some "Documentation";
          md_content_type := Some "documentation";
          md_chunk_index := Some 0;
          md_total_chunks := Some 1 |} |}.

Definition quickstart : Document :=
  page "https://inference-docs.cerebras.ai/quickstart" "Quickstart"
       "Create an API key , then call the chat completions endpoint .".

Definition models : Document :=
  page "https://inference-docs.cerebras.ai/models" "Models"
       "The endpoint serves several open models.".

Definition six_documents : list Document :=
  [quickstart; models; quickstart; models; quickstart; models].

(** Every hosted service is unreachable. *)
Definition all_down : Services :=
  {| similarity_search := fun _ _ => Raised unavailable;
     cohere_key := true;
     rerank := fun _ _ _ => Raised unavailable;
     structured_chain := fun _ _ => Raised unavailable;
     plain_chain := fun _ _ => Raised unavailable;
     llm := fun _ => Raised unavailable;
     get_state_fault := fun _ => None |}.

(** The store answers with the first [k] of six documents, which all
    score the same; the reranker is unreachable. *)
Definition reranker_down : Services :=
  {| similarity_search := fun _ k => Ok (take k six_documents);
     cohere_key := true;
     rerank := fun _ _ _ => Raised unavailable;
     structured_chain := fun _ _ => Raised unavailable;
     plain_chain := fun _ _ => Raised unavailable;
     llm := fun _ => Raised unavailable;
     get_state_fault := fun _ => None |}.

Definition flat_similarity : string -> Document -> Q := fun _ _ => 1%Q.

(** The store and the reranker answer; the model is unreachable. *)
Definition model_down : Services :=
  {| similarity_search := fun _ k => Ok (take k six_documents);
     cohere_key := true;
     rerank := fun _ _ top_n => Ok (take top_n [models; quickstart]);
     structured_chain := fun _ _ => Raised unavailable;
     plain_chain := fun _ _ => Raised unavailable;
     llm := fun _ => Raised unavailable;
     get_state_fault := fun _ => None |}.

(** The store holds nothing that matches. *)
Definition empty_store : Services :=
  {| similarity_search := fun _ _ => Ok [];
     cohere_key := true;
     rerank := fun _ _ _ => Ok [];
     structured_chain := fun _ _ => Raised unavailable;
     plain_chain := fun _ _ => Raised unavailable;
     llm := fun _ => Raised unavailable;
     get_state_fault := fun _ => None |}.

(** One document is retrieved, and the model's structured answer cites
    the positions [-1] and [7]. *)
Definition stray_answer : QuotedAnswer :=
  {| answer := "Create a key and call the chat completions endpoint.";
     citations :=
       [ {| source_id := (-1)%Z; quote := "Create an API key" |};
         {| source_id := 7%Z; quote := "call the chat completions endpoint" |} ] |}.

Definition stray_citations : Services :=
  {| similarity_search := fun _ k => Ok (take k [quickstart]);
     cohere_key := true;
     rerank := fun _ _ _ => Raised unavailable;
     structured_chain := fun _ _ => Ok (Some stray_answer);
     plain_chain := fun _ _ => Raised unavailable;
     llm := fun _ => Ok "noted";
     get_state_fault := fun _ => None |}.

(** Six documents are retrieved and the model's answer cites the
    positions [0] and [1]; the model also answers the graph's calls. *)
Definition cited_answer : QuotedAnswer :=
  {| answer := "Create a key, then pick one of the open models.";
     citations :=
       [ {| source_id := 0%Z; quote := "Create an API key" |};
         {| source_id := 1%Z; quote := "several open models" |} ] |}.

Definition well_cited : Services :=
  {| similarity_search := fun _ k => Ok (take k six_documents);
     cohere_key := true;
     rerank := fun _ _ _ => Raised unavailable;
     structured_chain := fun _ _ => Ok (Some cited_answer);
     plain_chain := fun _ _ => Raised unavailable;
     llm := fun _ => Ok "noted";
     get_state_fault := fun _ => None |}.

(** The same, with a model that is unreachable when the graph calls it. *)
Definition saving_fails : Services :=
  {| similarity_search := fun _ k => Ok (take k six_documents);
     cohere_key := true;
     rerank := fun _ _ _ => Raised unavailable;
     structured_chain := fun _ _ => Ok (Some cited_answer);
     plain_chain := fun _ _ => Raised unavailable;
     llm := fun _ => Raised unavailable;
     get_state_fault := fun _ => None |}.

(** One document is retrieved and the second citation of the answer
    points at [-5]. *)
Definition far_answer : QuotedAnswer :=
  {| answer := "Create a key first.";
     citations :=
       [ {| source_id := 0%Z; quote := "Create an API key" |};
         {| source_id := (-5)%Z; quote := "call the endpoint" |};
         {| source_id := (-1)%Z; quote := "Create an API key" |} ] |}.

Definition far_citation : Services :=
  {| similarity_search := fun _ k => Ok (take k [quickstart]);
     cohere_key := true;
     rerank := fun _ _ _ => Raised unavailable;
     structured_chain := fun _ _ => Ok (Some far_answer);
     plain_chain := fun _ _ => Raised unavailable;
     llm := fun _ => Ok "noted";
     get_state_fault := fun _ => None |}.

(** The model's only citation lies below [-2^63]. *)
Definition huge_answer : QuotedAnswer :=
  {| answer := "Create a key first.";
     citations :=
       [ {| source_id := (-9223372036854775809)%Z;
            quote := "Create an API key" |} ] |}.

Definition huge_citation : Services :=
  {| similarity_search := fun _ k => Ok (take k [quickstart]);
     cohere_key := true;
     rerank := fun _ _ _ => Raised unavailable;
     structured_chain := fun _ _ => Ok (Some huge_answer);
     plain_chain := fun _ _ => Raised unavailable;
     llm := fun _ => Ok "noted";
     get_state_fault := fun _ => None |}.

(** The store answers with the first [k] of six documents and the
    reranker keeps the first [top_n] of them, in reverse order. *)
Definition reranker_up : Services :=
  {| similarity_search := fun _ k => Ok (take k six_documents);
     cohere_key := true;
     rerank := fun _ k top_n => Ok (take top_n (rev (take k six_documents)));
     structured_chain := fun _ _ => Raised unavailable;
     plain_chain := fun _ _ => Raised unavailable;
     llm := fun _ => Raised unavailable;
     get_state_fault := fun _ => None |}.

(** One document is retrieved, and the structured-output chain finds
    nothing to parse in the model's reply: it returns [None]. *)
Definition unparsed_reply : Services :=
  {| similarity_search := fun _ k => Ok (take k [quickstart]);
     cohere_key := true;
     rerank := fun _ _ _ => Raised unavailable;
     structured_chain := fun _ _ => Ok None;
     plain_chain := fun _ _ => Raised unavailable;
     llm := fun _ => Ok "noted";
     get_state_fault := fun _ => None |}.

(** The indexing side.  The embedding service answers every text with
    the same one-component vector. *)
Definition embed_ones (texts : list string) : result (list Indexer.Embedding) :=
  Ok (List.map (fun _ => [1%Z]) texts).

(** No Firecrawl key, and the fallback fetches fail. *)
Definition nothing_crawled : Indexer.Services :=
  {| Indexer.cohere_key := true;
     Indexer.pinecone_key := true;
     Indexer.firecrawl_key := false;
     Indexer.init_fault := None;
     Indexer.firecrawl_documents := fun _ => six_documents;
     Indexer.fallback_documents := fun _ => [];
     Indexer.split := fun doc => [doc];
     Indexer.index_exists := false;
     Indexer.list_indexes_fault := None;
     Indexer.create_index_fault := None;
     Indexer.polls_not_ready := 2;
     Indexer.wait_ready_fault := None;
     Indexer.index_fault := None;
     Indexer.embed := embed_ones;
     Indexer.upsert_fault := fun _ => None;
     Indexer.stats_fault := None |}.

(** Firecrawl returns six pages; every service answers. *)
Definition six_crawled : Indexer.Services :=
  {| Indexer.cohere_key := true;
     Indexer.pinecone_key := true;
     Indexer.firecrawl_key := true;
     Indexer.init_fault := None;
     Indexer.firecrawl_documents := fun _ => six_documents;
     Indexer.fallback_documents := fun _ => [quickstart];
     Indexer.split := fun doc => [doc];
     Indexer.index_exists := false;
     Indexer.list_indexes_fault := None;
     Indexer.create_index_fault := None;
     Indexer.polls_not_ready := 2;
     Indexer.wait_ready_fault := None;
     Indexer.index_fault := None;
     Indexer.embed := embed_ones;
     Indexer.upsert_fault := fun _ => None;
     Indexer.stats_fault := None |}.

(** Everything goes through until [describe_index_stats], which is
    unreachable. *)
Definition stats_down : Indexer.Services :=
  {| Indexer.cohere_key := true;
     Indexer.pinecone_key := true;
     Indexer.firecrawl_key := true;
     Indexer.init_fault := None;
     Indexer.firecrawl_documents := fun _ => six_documents;
     Indexer.fallback_documents := fun _ => [quickstart];
     Indexer.split := fun doc => [doc];
     Indexer.index_exists := false;
     Indexer.list_indexes_fault := None;
     Indexer.create_index_fault := None;
     Indexer.polls_not_ready := 2;
     Indexer.wait_ready_fault := None;
     Indexer.index_fault := None;
     Indexer.embed := fun _ => Raised (Exn "embedding service unavailable");
     Indexer.upsert_fault := fun _ => None;
     Indexer.stats_fault := Some unavailable |}.

Definition twelve_documents : list Document :=
  (six_documents ++ six_documents)%list.

(** The embedding service refuses a full batch of ten texts and answers
    for shorter ones. *)
Definition full_batches_fail : Indexer.Services :=
  {| Indexer.cohere_key := true;
     Indexer.pinecone_key := true;
     Indexer.firecrawl_key := true;
     Indexer.init_fault := None;
     Indexer.firecrawl_documents := fun _ => six_documents;
     Indexer.fallback_documents := fun _ => [quickstart];
     Indexer.split := fun doc => [doc];
     Indexer.index_exists := false;
     Indexer.list_indexes_fault := None;
     Indexer.create_index_fault := None;
     Indexer.polls_not_ready := 2;
     Indexer.wait_ready_fault := None;
     Indexer.index_fault := None;
     Indexer.embed := fun texts =>
       if (List.length texts =? 10)%nat then Raised unavailable
       else embed_ones texts;
     Indexer.upsert_fault := fun _ => None;
     Indexer.stats_fault := None |}.

Definition key_question : string := "How do I create an API key?".
Definition first_question : string := "What was my first question?".

End Scenario.

(** * Properties of the agent *)

Ltac py_run :=
  unfold Py.try_except, Py.bind, Py.ret, Py.raise, Py.modify, Py.lift, Py.get,
    Agent.call, Agent.yield; simpl.

Section Retrieval.
Import Py Agent.
Variable svc : Services.

(** [retrieve_with_citations] by cases on what the services answer. *)
Lemma retrieve_cases question k use_reranking s :
  retrieve_with_citations svc question k use_reranking s =
  let s1 := with_log (EvSimilaritySearch question k) s in
  match similarity_search svc question k with
  | Raised _ => (Ok [], s1)
  | Ok found =>
      if use_reranking && cohere_key svc then
        let s2 := with_log (EvRerank question k 4) s1 in
        match rerank svc question k 4 with
        | Ok reranked => (Ok reranked, s2)
        | Raised _ => (Ok found, s2)
        end
      else (Ok found, s1)
  end.
Proof.
  unfold retrieve_with_citations. py_run.
  destruct (similarity_search svc question k) as [found|e]; simpl; [|done].
  destruct (use_reranking && cohere_key svc); simpl; [|done].
  by destruct (rerank svc question k 4).
Qed.

(** What is retrieved does not depend on the agent's state. *)
Lemma retrieve_result_any_state question k use_reranking s s' :
  fst (retrieve_with_citations svc question k use_reranking s) =
  fst (retrieve_with_citations svc question k use_reranking s').
Proof.
  rewrite !retrieve_cases; simpl.
  destruct (similarity_search svc question k); [|done].
  destruct (use_reranking && cohere_key svc); [|done].
  by destruct (rerank svc question k 4).
Qed.

(** C3. Retrieval never raises: it returns a list for every query and
    whatever the services do; when the similarity search raises the list is
    empty, and when the search returns [found] and the reranking call
    raises the list is [found], the un-reranked result. *)
Theorem retrieve_with_citations_never_raises question k use_reranking s :
  exists docs s',
    retrieve_with_citations svc question k use_reranking s = (Ok docs, s')
    /\ (forall e, similarity_search svc question k = Raised e -> docs = [])
    /\ (forall found e,
          similarity_search svc question k = Ok found ->
          rerank svc question k 4 = Raised e ->
          docs = found).
Proof.
  rewrite retrieve_cases.
  destruct (similarity_search svc question k) as [found|e] eqn:Hs; simpl.
  - destruct (use_reranking && cohere_key svc).
    + destruct (rerank svc question k 4) as [r|e] eqn:Hr;
        eexists _, _; (split; [done|]); split; intros; congruence.
    + eexists _, _; split; [done|]; split; intros; congruence.
  - eexists _, _; split; [done|]; split; intros; congruence.
Qed.

(** C4, as amended.  What comes back is what the store or the reranker
    returned, so the bounds are those of the two services (the store's
    contract: at most [k] documents in descending similarity; the
    reranker's: at most [top_n = 4]).  Without reranking the result is the
    store's, at most [k] documents in its order.  With reranking the
    result is the reranker's, at most 4 documents, when the reranking
    call is made and returns; otherwise (no COHERE_API_KEY, or the call
    raises) it is the un-reranked result of the store, at most [k]
    documents in its order.  When the search raises the result is
    empty. *)
Theorem retrieve_with_citations_bounds similarity question k use_reranking s :
  store_contract svc similarity question k ->
  rerank_contract svc question k ->
  exists docs s',
    retrieve_with_citations svc question k use_reranking s = (Ok docs, s')
    /\ match similarity_search svc question k with
       | Raised _ => docs = []
       | Ok found =>
           let unreranked :=
             docs = found /\ (List.length docs <= k)%nat
             /\ ranked (similarity question) docs in
           if use_reranking then
             if cohere_key svc then
               match rerank svc question k 4 with
               | Ok kept => docs = kept /\ (List.length docs <= 4)%nat
               | Raised _ => unreranked
               end
             else unreranked
           else unreranked
       end.
Proof.
  intros Hstore Hrerank. rewrite retrieve_cases. unfold store_contract in Hstore.
  destruct (similarity_search svc question k) as [found|e] eqn:Hs; cbv zeta.
  - destruct (Hstore found eq_refl) as [Hlen Hsorted].
    destruct use_reranking; cbn [andb].
    + destruct (cohere_key svc).
      * destruct (rerank svc question k 4) as [kept|e] eqn:Hr;
          eexists _, _; (split; [done|]).
        -- split; [done|]. by apply Hrerank.
        -- done.
      * eexists _, _; split; done.
    + eexists _, _; split; done.
  - eexists _, _; split; done.
Qed.

End Retrieval.

Section Generation.
Import Py Agent.
Variable svc : Services.

Lemma generate_structured_cases question documents s :
  generate_with_citations svc question documents true s =
  let context := format_docs_with_id documents in
  let s1 := with_log (EvChain true context question) s in
  match structured_chain svc context question with
  | Ok (Some a) => (Ok (GenQuoted a), s1)
  | Ok None => (Ok GenNone, s1)
  | Raised e =>
      (Ok (GenQuoted {| answer := generation_failure e; citations := [] |}), s1)
  end.
Proof.
  unfold generate_with_citations. py_run.
  by destruct (structured_chain svc _ question) as [[a|]|e].
Qed.

(** X25. When the chain's call raises (the model call fails, or the
    parser raises), [generate_with_citations] returns, without raising,
    the answer whose text is "I encountered an error generating a
    response: " followed by the text of the exception, with an empty
    citation list. *)
Theorem generate_with_citations_failure_is_local question documents e s :
  structured_chain svc (format_docs_with_id documents) question = Raised e ->
  exists s',
    generate_with_citations svc question documents true s =
    (Ok (GenQuoted
           {| answer :=
                "I encountered an error generating a response: " ++ exn_str e;
              citations := [] |}), s').
Proof.
  intros Hfail. rewrite generate_structured_cases; simpl. rewrite Hfail. eauto.
Qed.

End Generation.

(** The reranker answers: the four documents it kept come back.  It is
    unreachable: the six documents of the store come back although
    reranking was asked for. *)
Lemma retrieve_with_citations_bounds_witness :
  (exists s',
      Agent.retrieve_with_citations Scenario.reranker_up Scenario.key_question
        6 true Agent.fresh
      = (Ok [Scenario.models; Scenario.quickstart; Scenario.models;
             Scenario.quickstart], s'))
  /\ (exists s',
         Agent.retrieve_with_citations Scenario.reranker_down
           Scenario.key_question 6 true Agent.fresh
         = (Ok Scenario.six_documents, s')).
Proof.
  split.
  - destruct (retrieve_with_citations_bounds Scenario.reranker_up
                Scenario.flat_similarity Scenario.key_question 6 true
                Agent.fresh)
      as (docs & s' & Hrun & Hdocs).
    + intros found Hfound. injection Hfound as <-. split; [simpl; lia|].
      repeat constructor; done.
    + intros kept Hkept. injection Hkept as <-. simpl. lia.
    + simpl in Hdocs. destruct Hdocs as [-> _]. by exists s'.
  - destruct (retrieve_with_citations_bounds Scenario.reranker_down
                Scenario.flat_similarity Scenario.key_question 6 true
                Agent.fresh)
      as (docs & s' & Hrun & Hdocs).
    + intros found Hfound. injection Hfound as <-. split; [simpl; lia|].
      repeat constructor; done.
    + intros kept Hkept. discriminate.
    + simpl in Hdocs. destruct Hdocs as [-> _]. by exists s'.
Defined.

Section Answering.
Import Py Agent.
Variable svc : Services.

Lemma retrieve_keeps_yielded question k use_reranking s :
  yielded (snd (retrieve_with_citations svc question k use_reranking s)) =
  yielded s.
Proof.
  rewrite retrieve_cases; simpl.
  destruct (similarity_search svc question k); [|done].
  destruct (use_reranking && cohere_key svc); [|done].
  by destruct (rerank svc question k 4).
Qed.

(** [get_conversation_history] on a thread without messages. *)
Lemma no_history thread s :
  remembered s thread = [] ->
  get_conversation_history svc thread s =
  (Ok [], if graph s then with_log (EvGetState thread) s else s).
Proof.
  unfold remembered, get_conversation_history. py_run.
  destruct (graph s); simpl; [|done].
  intros Hmem. destruct (get_state_fault svc thread); simpl; [done|].
  destruct (memory s !! thread) as [msgs|]; simpl in *; by subst.
Qed.

(** C6, as amended.  With citations enabled and a question that is not
    classified as history-referencing, an empty retrieval result makes
    [ask_question] return, without raising, the answer "No relevant
    documents found. Please check if the vector database is populated."
    with no citations; the streaming generator ends normally after the
    status chunk and an error chunk with the same text, and yields no
    citation. *)
Theorem empty_retrieval_gives_no_documents_answer
        question use_reranking config s :
  Classifier.is_conversation_history_question question = false ->
  fst (retrieve_with_citations svc question default_k use_reranking s) = Ok [] ->
  (exists s',
      ask_question svc question true use_reranking config s =
      (Ok (GenQuoted
             {| answer :=
                  "No relevant documents found. Please check if the vector database is populated.";
                citations := [] |}), s'))
  /\ (exists s',
         stream_response_with_citations svc question true use_reranking config s
         = (Ok tt, s')
         /\ yielded s' =
            (yielded s ++
             [ChStatus StRetrieving;
              ChError
                "No relevant documents found. Please check if the vector database is populated."])%list).
Proof.
  intros Hclass Hempty. split.
  - unfold ask_question. rewrite Hclass. py_run.
    destruct (retrieve_with_citations svc question default_k use_reranking s)
      as [r s1]. simpl in Hempty. subst r. eauto.
  - unfold stream_response_with_citations. rewrite Hclass. py_run.
    pose proof (retrieve_result_any_state svc question default_k use_reranking
                  (with_chunk (ChStatus StRetrieving) s) s) as Hsame.
    pose proof (retrieve_keeps_yielded question default_k use_reranking
                  (with_chunk (ChStatus StRetrieving) s)) as Hkeep.
    destruct (retrieve_with_citations svc question default_k use_reranking
                (with_chunk (ChStatus StRetrieving) s)) as [r s1].
    simpl in Hsame, Hkeep. rewrite Hempty in Hsame. subst r.
    eexists. split; [done|]. simpl. rewrite Hkeep.
    by rewrite <- app_assoc.
Qed.

(** C7. A history-referencing question on a thread without remembered
    messages is answered, by [ask_question], with the text "I don't have
    any conversation history to reference. This appears to be the start
    of our conversation." and no citations, and by the generator with
    that text as its only answer chunk; the only external call is the
    read of the checkpointer, so neither the similarity search, nor the
    reranker, nor the citation chain is called. *)
Theorem history_question_without_history
        question use_citations use_reranking config s :
  Classifier.is_conversation_history_question question = true ->
  remembered s (thread_of config) = [] ->
  let new := if graph s then [EvGetState (thread_of config)] else [] in
  Forall (fun e => is_retrieval_event e = false) new
  /\ (exists s',
         ask_question svc question use_citations use_reranking config s =
         (Ok (GenQuoted
                {| answer :=
                     "I don't have any conversation history to reference. This appears to be the start of our conversation.";
                   citations := [] |}), s')
         /\ log s' = (log s ++ new)%list)
  /\ (exists s',
         stream_response_with_citations svc question use_citations
           use_reranking config s = (Ok tt, s')
         /\ yielded s' =
            (yielded s ++
             [ChStatus StSearchingHistory;
              ChAnswer
                "I don't have any conversation history to reference. This appears to be the start of our conversation."])%list
         /\ log s' = (log s ++ new)%list).
Proof.
  intros Hclass Hmem new. split; [|split].
  - subst new. destruct (graph s); repeat constructor.
  - unfold ask_question. rewrite Hclass. py_run.
    rewrite (no_history _ _ Hmem). eexists. split; [done|].
    subst new. destruct (graph s); simpl; [done|]. by rewrite app_nil_r.
  - unfold stream_response_with_citations, _handle_history_question.
    rewrite Hclass. py_run.
    assert (Hmem' : remembered (with_chunk (ChStatus StSearchingHistory) s)
                      (thread_of config) = []) by exact Hmem.
    rewrite (no_history _ _ Hmem'). simpl. eexists. split; [done|].
    subst new. destruct (graph s); simpl.
    + split; [by rewrite <- app_assoc|done].
    + split; [by rewrite <- app_assoc|by rewrite app_nil_r].
Qed.

End Answering.

Section Citations.
Import Py Agent.
Variable svc : Services.

(** Indexing from the end: [l[i]] for [-len(l) <= i < 0]. *)
Lemma py_index_negative {A} (l : list A) (i : Z) :
  (i < 0)%Z -> (- Z.of_nat (List.length l) <= i)%Z ->
  exists x,
    l !! (List.length l - Z.to_nat (- i))%nat = Some x
    /\ py_index l i = Ok x.
Proof.
  intros Hneg Hlow. unfold py_index.
  assert (Hlt : (i <? 0)%Z = true) by (apply Z.ltb_lt; lia).
  rewrite Hlt.
  assert (Hin : ((0 <=? Z.of_nat (List.length l) + i)%Z
                 && (Z.of_nat (List.length l) + i <? Z.of_nat (List.length l))%Z)
                = true).
  { apply andb_true_iff. split; [apply Z.leb_le|apply Z.ltb_lt]; lia. }
  rewrite Hin.
  assert (Hpos : Z.to_nat (Z.of_nat (List.length l) + i)
                 = (List.length l - Z.to_nat (- i))%nat) by lia.
  rewrite Hpos.
  destruct (l !! (List.length l - Z.to_nat (- i))%nat) as [x|] eqn:Hx.
  - eauto.
  - apply lookup_ge_None in Hx. lia.
Qed.

Lemma py_index_in_bounds {A} (l : list A) (i : Z) :
  (- Z.of_nat (List.length l) <= i < Z.of_nat (List.length l))%Z ->
  exists x, py_index l i = Ok x.
Proof.
  intros Hi. destruct (Z.ltb_spec i 0) as [Hneg|Hpos].
  - destruct (py_index_negative l i) as (x & _ & Hx); [lia..|]. eauto.
  - unfold py_index.
    assert (Hlt : (i <? 0)%Z = false) by (apply Z.ltb_ge; lia).
    rewrite Hlt.
    assert (Hin : ((0 <=? i)%Z && (i <? Z.of_nat (List.length l))%Z) = true).
    { apply andb_true_iff. split; [apply Z.leb_le|apply Z.ltb_lt]; lia. }
    rewrite Hin.
    destruct (l !! Z.to_nat i) as [x|] eqn:Hx; [eauto|].
    apply lookup_ge_None in Hx. lia.
Qed.

(** One turn of the citation loop, when indexing does not raise. *)
Lemma emit_citation_yields documents citation s :
  (- Z.of_nat (List.length documents) <= source_id citation)%Z ->
  emit_citation documents citation s =
  (Ok tt,
   {| graph := graph s; memory := memory s; log := log s;
      yielded := (yielded s ++ emitted documents citation)%list |}).
Proof.
  intros Hlow. unfold emit_citation, emitted.
  destruct (Z.ltb_spec (source_id citation) (Z.of_nat (List.length documents)))
    as [Hup|Hup].
  - destruct (py_index_in_bounds documents (source_id citation)) as [doc Hdoc];
      [lia|].
    py_run. rewrite Hdoc. done.
  - py_run. rewrite app_nil_r. by destruct s.
Qed.

(** The whole loop. *)
Lemma citation_loop_yields documents cs s :
  Forall (fun c => (- Z.of_nat (List.length documents) <= source_id c)%Z) cs ->
  for_each cs (emit_citation documents) s =
  (Ok tt,
   {| graph := graph s; memory := memory s; log := log s;
      yielded := (yielded s ++ List.concat (List.map (emitted documents) cs))%list |}).
Proof.
  intros Hall. revert s. induction Hall as [|c cs Hc _ IH]; intros s; simpl.
  - py_run. rewrite app_nil_r. by destruct s.
  - unfold bind. rewrite (emit_citation_yields _ _ _ Hc).
    rewrite IH. simpl. by rewrite app_assoc.
Qed.

(** Saving the exchange keeps what was yielded and may add a warning. *)
Lemma save_exchange_extends thread msgs s :
  exists extra s',
    (if graph s then
       try_except (bind (graph_invoke svc thread msgs) (fun _ => ret tt))
                  (fun e => yield (ChWarning (save_failure e)))
     else ret tt) s = (Ok tt, s')
    /\ yielded s' = (yielded s ++ extra)%list.
Proof.
  destruct (graph s) eqn:Hg.
  - unfold graph_invoke. py_run.
    destruct (llm svc _) as [reply|e]; simpl.
    + exists []. eexists. split; [reflexivity|]. simpl. by rewrite app_nil_r.
    + exists [ChWarning (save_failure e)]. eexists. split; reflexivity.
  - exists [], s. split; [done|]. by rewrite app_nil_r.
Qed.

End Citations.

(** C1, at the failing input.  One document is retrieved and the model's
    answer cites the positions [-1] and [7].  [ask_question] hands that
    answer back with both citations, and the generator yields a citation
    chunk for [-1]; neither position lies in [[0, 1)]. *)
Theorem citations_outside_the_result_set :
  (exists s',
      Agent.ask_question Scenario.stray_citations Scenario.key_question
        true false None (Agent.initialize_graph Agent.fresh)
      = (Ok (Agent.GenQuoted Scenario.stray_answer), s'))
  /\ List.filter Agent.is_citation
       (Agent.chunks_of
          (Agent.stream_response_with_citations Scenario.stray_citations
             Scenario.key_question true false None
             (Agent.initialize_graph Agent.fresh)))
     = [Agent.ChCitation (-1) "Create an API key" "Quickstart"
          "https://inference-docs.cerebras.ai/quickstart"]
  /\ ~ Agent.in_range [Scenario.quickstart] (-1)
  /\ ~ Agent.in_range [Scenario.quickstart] 7.
Proof.
  split; [|split; [|split]].
  - eexists. vm_compute. reflexivity.
  - vm_compute. reflexivity.
  - unfold Agent.in_range. simpl. lia.
  - unfold Agent.in_range. simpl. lia.
Qed.

(** The claim C4 as stated fails: the store and the reranker keep their
    contracts, reranking is asked for, and six documents come back. *)
Lemma reranking_can_return_more_than_four :
  Agent.store_contract Scenario.reranker_down Scenario.flat_similarity
    Scenario.key_question 6
  /\ Agent.rerank_contract Scenario.reranker_down Scenario.key_question 6
  /\ exists docs s',
      Agent.retrieve_with_citations Scenario.reranker_down
        Scenario.key_question 6 true Agent.fresh = (Ok docs, s')
      /\ ~ (List.length docs <= 4)%nat.
Proof.
  split; [|split].
  - intros found Hfound. injection Hfound as <-. split; [simpl; lia|].
    repeat constructor; done.
  - intros kept Hkept. discriminate.
  - eexists _, _. split; [vm_compute; reflexivity|]. simpl. lia.
Qed.

(** The chain raises: the answer is the failure message, no citation. *)
Lemma generate_with_citations_failure_is_local_witness :
  exists s',
    Agent.generate_with_citations Scenario.model_down Scenario.key_question
      [Scenario.quickstart] true Agent.fresh
    = (Ok (Agent.GenQuoted
             {| Agent.answer :=
                  "I encountered an error generating a response: service unavailable";
                Agent.citations := [] |}), s').
Proof.
  apply (generate_with_citations_failure_is_local Scenario.model_down
           Scenario.key_question [Scenario.quickstart] Scenario.unavailable
           Agent.fresh).
  reflexivity.
Defined.

(** C5, at the failing input.  One document is retrieved and the
    structured-output chain returns [None] for the model's reply (there
    is nothing to parse).  [generate_with_citations] returns that [None]:
    no answer with a failure message is built.  [ask_question] on an agent
    without a graph hands the [None] to its caller; with a graph, reading
    [response.answer] raises and the answer is the "error occurred" text;
    the generator ends with an error chunk. *)
Theorem unparsed_reply_gives_no_answer :
  (exists s',
      Agent.generate_with_citations Scenario.unparsed_reply
        Scenario.key_question [Scenario.quickstart] true Agent.fresh
      = (Ok Agent.GenNone, s'))
  /\ (exists s',
         Agent.ask_question Scenario.unparsed_reply Scenario.key_question
           true false None Agent.fresh
         = (Ok Agent.GenNone, s'))
  /\ (exists s',
         Agent.ask_question Scenario.unparsed_reply Scenario.key_question
           true false None (Agent.initialize_graph Agent.fresh)
         = (Ok (Agent.GenQuoted
                  {| Agent.answer :=
                       "An error occurred while processing your question: 'NoneType' object has no attribute 'answer'";
                     Agent.citations := [] |}), s'))
  /\ last (Agent.chunks_of
             (Agent.stream_response_with_citations Scenario.unparsed_reply
                Scenario.key_question true false None Agent.fresh))
     = Some (Agent.ChError
               "An error occurred: 'NoneType' object has no attribute 'answer'").
Proof.
  split; [|split; [|split]].
  - eexists. vm_compute. reflexivity.
  - eexists. vm_compute. reflexivity.
  - eexists. vm_compute. reflexivity.
  - vm_compute. reflexivity.
Qed.

(** Nothing is retrieved: the "no relevant documents" answer. *)
Lemma empty_retrieval_gives_no_documents_answer_witness :
  exists s',
    Agent.ask_question Scenario.empty_store Scenario.key_question true false
      None Agent.fresh
    = (Ok (Agent.GenQuoted
             {| Agent.answer :=
                  "No relevant documents found. Please check if the vector database is populated.";
                Agent.citations := [] |}), s').
Proof.
  apply (empty_retrieval_gives_no_documents_answer Scenario.empty_store
           Scenario.key_question false None Agent.fresh).
  - vm_compute. reflexivity.
  - vm_compute. reflexivity.
Defined.

(** The claim C6 as stated fails: "What was my first question?" is asked
    with citations enabled and the store has nothing for it (retrieval
    yields the empty list), yet the answer is the "no conversation
    history" text and the generator yields no "no relevant documents"
    chunk: a history-referencing question never reaches retrieval. *)
Lemma history_question_on_empty_store :
  fst (Agent.retrieve_with_citations Scenario.empty_store
         Scenario.first_question Agent.default_k false Agent.fresh) = Ok []
  /\ (exists s',
         Agent.ask_question Scenario.empty_store Scenario.first_question
           true false None Agent.fresh
         = (Ok (Agent.GenQuoted
                  {| Agent.answer :=
                       "I don't have any conversation history to reference. This appears to be the start of our conversation.";
                     Agent.citations := [] |}), s'))
  /\ Agent.chunks_of
       (Agent.stream_response_with_citations Scenario.empty_store
          Scenario.first_question true false None Agent.fresh)
     = [Agent.ChStatus Agent.StSearchingHistory;
        Agent.ChAnswer
          "I don't have any conversation history to reference. This appears to be the start of our conversation."].
Proof.
  split; [|split].
  - vm_compute. reflexivity.
  - eexists. vm_compute. reflexivity.
  - vm_compute. reflexivity.
Qed.

(** "What was my first question?" on a new thread. *)
Lemma history_question_without_history_witness :
  exists s',
    Agent.ask_question Scenario.all_down Scenario.first_question true false
      None (Agent.initialize_graph Agent.fresh)
    = (Ok (Agent.GenQuoted
             {| Agent.answer :=
                  "I don't have any conversation history to reference. This appears to be the start of our conversation.";
                Agent.citations := [] |}), s')
    /\ Agent.log s' = [Agent.EvGetState "1"].
Proof.
  destruct (history_question_without_history Scenario.all_down
              Scenario.first_question true false None
              (Agent.initialize_graph Agent.fresh))
    as (_ & (s' & Hrun & Hlog) & _).
  - vm_compute. reflexivity.
  - vm_compute. reflexivity.
  - exists s'. split; [exact Hrun|exact Hlog].
Defined.

(** * Properties of the indexing pipeline *)

Ltac ix_step :=
  unfold Py.try_except, Py.bind, Py.ret, Py.raise, Py.modify, Py.lift, Py.get,
    Indexer.call, Indexer.fault, Indexer.with_log, Indexer.with_created,
    Indexer.with_upsert; simpl.

Ltac ix_run := ix_step; repeat (progress ix_step).

Section Batches.
Import Py Indexer.
Variable svc : Services.

(** One turn of the loop never raises; it logs its calls and stores the
    batch's vectors when both calls go through. *)
Lemma process_batch_run documents i s :
  process_batch svc documents i s =
  (Ok tt,
   {| created := created s;
      store := upsert_all (batch_stored svc documents i) (store s);
      log := (log s ++ batch_events svc documents i)%list |}).
Proof.
  unfold process_batch, batch_stored, batch_events. ix_run.
  destruct (embed svc _) as [embeddings|e]; simpl; [|done].
  destruct (upsert_fault svc _); simpl; by rewrite <- app_assoc.
Qed.

Lemma batch_loop_run documents offsets s :
  for_each offsets (process_batch svc documents) s =
  (Ok tt,
   {| created := created s;
      store := foldl (fun m i => upsert_all (batch_stored svc documents i) m)
                     (store s) offsets;
      log := (log s ++ List.concat (List.map (batch_events svc documents) offsets))%list |}).
Proof.
  revert s. induction offsets as [|i offsets IH]; intros s; simpl.
  - unfold ret. rewrite app_nil_r. by destruct s.
  - unfold bind. rewrite process_batch_run, IH. simpl.
    by rewrite <- app_assoc.
Qed.

(** The polls of the readiness loop. *)
Lemma wait_until_ready_run n s :
  wait_until_ready svc n s =
  (match wait_ready_fault svc with Some e => Raised e | None => Ok tt end,
   {| created := created s; store := store s;
      log := (log s ++ repeat (EvDescribeIndex INDEX_NAME) (S n))%list |}).
Proof.
  revert s. induction n as [|n IH]; intros s.
  - cbn [wait_until_ready]. ix_run. by destruct (wait_ready_fault svc).
  - cbn [wait_until_ready]. unfold bind at 1, modify at 1. rewrite IH.
    cbn [created store log with_log]. by rewrite <- app_assoc.
Qed.

Lemma polls_quiet n :
  embedded (repeat (EvDescribeIndex INDEX_NAME) n) = []
  /\ upserts (repeat (EvDescribeIndex INDEX_NAME) n) = []
  /\ List.filter is_fallback (repeat (EvDescribeIndex INDEX_NAME) n) = []
  /\ List.filter is_mutation (repeat (EvDescribeIndex INDEX_NAME) n) = [].
Proof. induction n as [|n IH]; [done|]. exact IH. Qed.

(** [setup_pinecone_index], by cases on what the Pinecone calls do. *)
Lemma setup_cases s :
  setup_pinecone_index svc s =
  let polls :=
    repeat (EvDescribeIndex INDEX_NAME) (S (polls_not_ready svc)) in
  let handle : result unit :=
    match index_fault svc with Some e => Raised e | None => Ok tt end in
  match list_indexes_fault svc with
  | Some e =>
      (Raised e, {| created := created s; store := store s;
                    log := (log s ++ [EvListIndexes])%list |})
  | None =>
      if index_exists svc || created s then
        (handle, {| created := created s; store := store s;
                    log := (log s ++ [EvListIndexes; EvIndex INDEX_NAME])%list |})
      else
        match create_index_fault svc with
        | Some e =>
            (Raised e,
             {| created := created s; store := store s;
                log := (log s ++
                        [EvListIndexes;
                         EvCreateIndex INDEX_NAME EMBEDDING_DIMENSION])%list |})
        | None =>
            match wait_ready_fault svc with
            | Some e =>
                (Raised e,
                 {| created := true; store := store s;
                    log := (log s ++
                            [EvListIndexes;
                             EvCreateIndex INDEX_NAME EMBEDDING_DIMENSION]
                            ++ polls)%list |})
            | None =>
                (handle,
                 {| created := true; store := store s;
                    log := (log s ++
                            [EvListIndexes;
                             EvCreateIndex INDEX_NAME EMBEDDING_DIMENSION]
                            ++ polls ++ [EvIndex INDEX_NAME])%list |})
            end
        end
  end.
Proof.
  cbv zeta. unfold setup_pinecone_index. ix_run.
  destruct (list_indexes_fault svc) as [e|]; ix_run; [done|].
  destruct (index_exists svc || created s) eqn:Hex; ix_run.
  { rewrite <- app_assoc. by destruct (index_fault svc). }
  destruct (create_index_fault svc) as [e|]; ix_run.
  { by rewrite <- app_assoc. }
  rewrite wait_until_ready_run. ix_run.
  destruct (wait_ready_fault svc) as [e|]; ix_run.
  { by rewrite <- !app_assoc. }
  rewrite <- !app_assoc. by destruct (index_fault svc).
Qed.

(** [setup_pinecone_index] touches neither the stored vectors nor the
    embedding service. *)
Lemma setup_run s :
  exists r new,
    setup_pinecone_index svc s =
    (r, {| created := created (snd (setup_pinecone_index svc s));
           store := store s;
           log := (log s ++ new)%list |})
    /\ embedded new = [] /\ upserts new = []
    /\ List.filter is_fallback new = []
    /\ (r = Ok tt ->
        index_exists svc || created (snd (setup_pinecone_index svc s)) = true
        /\ list_indexes_fault svc = None
        /\ index_fault svc = None).
Proof.
  rewrite setup_cases. cbv zeta.
  destruct (polls_quiet (S (polls_not_ready svc))) as (Hq1 & Hq2 & Hq3 & _).
  set (polls := repeat (EvDescribeIndex INDEX_NAME) (S (polls_not_ready svc)))
    in *.
  assert (Hquiet : forall pre post,
            embedded pre = [] -> upserts pre = [] ->
            List.filter is_fallback pre = [] ->
            embedded post = [] -> upserts post = [] ->
            List.filter is_fallback post = [] ->
            embedded (pre ++ polls ++ post) = []
            /\ upserts (pre ++ polls ++ post) = []
            /\ List.filter is_fallback (pre ++ polls ++ post) = []).
  { intros pre post H1 H2 H3 H4 H5 H6. unfold embedded, upserts in *.
    rewrite !omap_app, !List.filter_app, H1, H2, H3, H4, H5, H6, Hq1, Hq2, Hq3.
    done. }
  destruct (list_indexes_fault svc) as [e|].
  { eexists _, _. split; [reflexivity|]. repeat split; done. }
  destruct (index_exists svc || created s) eqn:Hex.
  { eexists _, _. split; [reflexivity|]. repeat split; try done.
    by destruct (index_fault svc). }
  destruct (create_index_fault svc) as [e|].
  { eexists _, _. split; [reflexivity|]. repeat split; done. }
  destruct (wait_ready_fault svc) as [e|].
  - eexists _, _. split; [reflexivity|].
    destruct (Hquiet [EvListIndexes; EvCreateIndex INDEX_NAME EMBEDDING_DIMENSION]
                [] ltac:(done) ltac:(done) ltac:(done) ltac:(done) ltac:(done)
                ltac:(done)) as (H1 & H2 & H3).
    rewrite app_nil_r in H1, H2, H3. repeat split; done.
  - eexists _, _. split; [reflexivity|].
    destruct (Hquiet [EvListIndexes; EvCreateIndex INDEX_NAME EMBEDDING_DIMENSION]
                [EvIndex INDEX_NAME] ltac:(done) ltac:(done) ltac:(done)
                ltac:(done) ltac:(done) ltac:(done)) as (H1 & H2 & H3).
    repeat split; try done. cbn [snd created]. apply orb_true_r.
    by destruct (index_fault svc).
Qed.

End Batches.

Section Pipeline.
Import Py Indexer.
Variable svc : Services.

Lemma batch_events_no_fallback documents offsets :
  List.filter is_fallback
    (List.concat (List.map (batch_events svc documents) offsets)) = [].
Proof.
  induction offsets as [|i offsets IH]; simpl; [done|].
  rewrite List.filter_app, IH, app_nil_r. unfold batch_events.
  by destruct (embed svc _).
Qed.

(** [populate_index] once the index is set up. *)
Lemma populate_index_run d ds s s0 :
  setup_pinecone_index svc s = (Ok tt, s0) ->
  populate_index svc (d :: ds) s =
  (match stats_fault svc with Some e => Raised e | None => Ok tt end,
   {| created := created s0;
      store := foldl (fun m i => upsert_all (batch_stored svc (d :: ds) i) m)
                     (store s0) (batch_offsets (List.length (d :: ds)));
      log := (log s0
              ++ List.concat (List.map (batch_events svc (d :: ds))
                                (batch_offsets (List.length (d :: ds))))
              ++ [EvDescribeStats])%list |}).
Proof.
  intros Hsetup. unfold populate_index. unfold bind at 1. rewrite Hsetup.
  unfold bind at 1. rewrite batch_loop_run. ix_run.
  rewrite <- app_assoc. by destruct (stats_fault svc).
Qed.

(** [populate_index] never crawls. *)
Lemma populate_index_no_fallback documents s :
  exists r s' new,
    populate_index svc documents s = (r, s')
    /\ log s' = (log s ++ new)%list
    /\ List.filter is_fallback new = [].
Proof.
  destruct documents as [|d ds].
  { exists (Ok tt), s, []. simpl. by rewrite app_nil_r. }
  destruct (setup_run svc s) as (r & new & Hsetup & _ & _ & Hnew & _).
  destruct r as [[]|e].
  - rewrite (populate_index_run _ _ _ _ Hsetup). simpl.
    eexists _, _, _. split; [done|]. simpl. split.
    + rewrite <- app_assoc. done.
    + rewrite !List.filter_app, Hnew, batch_events_no_fallback. done.
  - unfold populate_index. unfold bind at 1. rewrite Hsetup.
    eexists _, _, new. split; [done|]. done.
Qed.

(** The loop over the one base URL. *)
Lemma crawl_all_run s :
  crawl_all svc base_urls [] s =
  (Ok (primary_documents svc),
   with_log (EvCrawlFirecrawl "https://inference-docs.cerebras.ai/") s).
Proof.
  unfold base_urls, primary_documents. simpl. unfold crawl_with_firecrawl.
  ix_run. by destruct (firecrawl_key svc).
Qed.

(** C8. When the primary crawl and the fallback crawl both yield no
    document, [main] leaves the stored vectors and the index as they were
    and makes neither a [create_index] nor an [upsert] call, returning
    normally once it got as far as crawling.  And when [main] gets as far
    as crawling, the fallback crawl is called (once, on the fallback URLs)
    exactly when the primary crawl produced fewer than 5 documents. *)
Theorem main_crawl_policy s :
  (primary_documents svc = [] ->
   fallback_documents svc fallback_urls = [] ->
   exists r s',
     main svc s = (r, s')
     /\ store s' = store s
     /\ created s' = created s
     /\ List.filter is_mutation (log s') = List.filter is_mutation (log s)
     /\ (reaches_crawl svc -> r = Ok tt))
  /\ (reaches_crawl svc ->
      exists r s' new,
        main svc s = (r, s')
        /\ log s' = (log s ++ new)%list
        /\ List.filter is_fallback new =
           if (List.length (primary_documents svc) <? 5)%nat
           then [EvCrawlFallback fallback_urls] else []).
Proof.
  split.
  - intros Hprimary Hfallback. unfold main.
    destruct (negb (cohere_key svc) || negb (pinecone_key svc)) eqn:Hkeys.
    { exists (Ok tt), s. repeat split; done. }
    unfold bind at 1. unfold fault.
    destruct (init_fault svc) as [e|] eqn:Hinit.
    { exists (Raised e), s. repeat split; try done.
      intros (_ & _ & Hi). congruence. }
    unfold ret at 1. unfold bind at 1. rewrite crawl_all_run, Hprimary.
    simpl. unfold crawl_fallback. ix_run. rewrite Hfallback. simpl.
    eexists _, _. repeat split; simpl; try done.
    rewrite !List.filter_app. simpl. by rewrite !app_nil_r.
  - intros (Hc & Hp & Hi). unfold main. rewrite Hc, Hp. cbn [negb orb].
    unfold bind at 1. unfold fault. rewrite Hi. unfold ret at 1.
    unfold bind at 1. rewrite crawl_all_run.
    destruct (List.length (primary_documents svc) <? 5)%nat eqn:Hfew.
    + unfold bind at 1. unfold crawl_fallback. ix_run.
      destruct (primary_documents svc ++ fallback_documents svc fallback_urls)%list
        as [|d ds] eqn:Hall.
      * eexists _, _, _. split; [done|]. simpl. split.
        -- rewrite <- app_assoc. done.
        -- done.
      * match goal with
        | |- context [populate_index svc ?docs ?st] =>
            destruct (populate_index_no_fallback docs st)
              as (r & s' & new & Hrun & Hlog & Hnew)
        end.
        exists r, s', ([EvCrawlFirecrawl "https://inference-docs.cerebras.ai/";
                        EvCrawlFallback fallback_urls] ++ new)%list.
        split; [exact Hrun|]. split.
        -- rewrite Hlog. simpl. rewrite <- !app_assoc. done.
        -- rewrite List.filter_app, Hnew. done.
    + unfold bind at 1. unfold ret at 1.
      destruct (primary_documents svc) as [|d ds] eqn:Hall.
      { simpl in Hfew. discriminate. }
      match goal with
      | |- context [populate_index svc ?docs ?st] =>
          destruct (populate_index_no_fallback docs st)
            as (r & s' & new & Hrun & Hlog & Hnew)
      end.
      exists r, s', ([EvCrawlFirecrawl "https://inference-docs.cerebras.ai/"]
                     ++ new)%list.
      split; [exact Hrun|]. split.
      * rewrite Hlog. simpl. rewrite <- !app_assoc. done.
      * rewrite List.filter_app, Hnew. done.
Qed.

End Pipeline.

(** No Firecrawl key and nothing fetched by the fallback: [main] returns
    with the index untouched, after calling the fallback crawl. *)
Lemma main_crawl_policy_witness :
  (exists r s',
      Indexer.main Scenario.nothing_crawled Indexer.initial = (r, s')
      /\ Indexer.store s' = Indexer.store Indexer.initial
      /\ Indexer.created s' = Indexer.created Indexer.initial
      /\ List.filter Indexer.is_mutation (Indexer.log s') =
         List.filter Indexer.is_mutation (Indexer.log Indexer.initial)
      /\ (Indexer.reaches_crawl Scenario.nothing_crawled -> r = Ok tt))
  /\ (exists r s' new,
         Indexer.main Scenario.six_crawled Indexer.initial = (r, s')
         /\ Indexer.log s' = (Indexer.log Indexer.initial ++ new)%list
         /\ List.filter Indexer.is_fallback new = []).
Proof.
  split.
  - apply (main_crawl_policy Scenario.nothing_crawled Indexer.initial);
      reflexivity.
  - apply (main_crawl_policy Scenario.six_crawled Indexer.initial).
    repeat split.
Defined.

Section BatchArithmetic.
Import Indexer.
Context {A : Type}.

(** Consecutive windows of ten put end to end. *)
Lemma windows_concat (l : list A) c a :
  List.concat (List.map (fun b => take 10 (drop (b * 10) l)) (seq a c)) =
  take (c * 10) (drop (a * 10) l).
Proof.
  revert a. induction c as [|c IH]; intros a; [done|].
  cbn [seq List.map List.concat]. rewrite IH.
  replace (S a * 10)%nat with (a * 10 + 10)%nat by lia.
  rewrite <- drop_drop.
  replace (S c * 10)%nat with (10 + c * 10)%nat by lia.
  apply take_take_drop.
Qed.

Lemma windows_cover (l : list A) :
  List.concat (List.map (fun b => take 10 (drop (b * 10) l))
                        (seq 0 ((List.length l + 10 - 1) / 10))) = l.
Proof.
  rewrite windows_concat. change (0 * 10)%nat with 0%nat. rewrite drop_0.
  apply take_ge.
  pose proof (Nat.div_mod_eq (List.length l + 10 - 1) 10) as Hdiv.
  pose proof (Nat.mod_upper_bound (List.length l + 10 - 1) 10) as Hmod.
  lia.
Qed.

Lemma window_length (l : list A) b :
  (b < (List.length l + 10 - 1) / 10)%nat ->
  (1 <= List.length (take 10 (drop (b * 10) l)) <= 10)%nat
  /\ ((S b < (List.length l + 10 - 1) / 10)%nat ->
      List.length (take 10 (drop (b * 10) l)) = 10%nat).
Proof.
  intros Hb. rewrite length_take, length_drop.
  pose proof (Nat.div_mod_eq (List.length l + 10 - 1) 10) as Hdiv.
  pose proof (Nat.mod_upper_bound (List.length l + 10 - 1) 10) as Hmod.
  split; [lia|]. intros Hnext. lia.
Qed.

End BatchArithmetic.

Section Upserts.
Import Py Indexer.
Variable svc : Services.

Lemma embedded_batches documents offsets :
  embedded (List.concat (List.map (batch_events svc documents) offsets)) =
  List.map (fun i => List.map page_content (batch_at documents i)) offsets.
Proof.
  induction offsets as [|i offsets IH]; [done|].
  cbn [List.map List.concat]. unfold embedded in *. rewrite omap_app, IH.
  unfold batch_events. by destruct (embed svc _).
Qed.

Lemma upserts_batches documents offsets vectors :
  In vectors (upserts (List.concat (List.map (batch_events svc documents) offsets))) ->
  exists i embeddings,
    In i offsets
    /\ vectors = batch_vectors i (batch_at documents i) embeddings.
Proof.
  induction offsets as [|i offsets IH]; [done|].
  cbn [List.map List.concat]. unfold upserts in *. rewrite omap_app.
  intros Hin. apply in_app_or in Hin as [Hin|Hin].
  - unfold batch_events in Hin.
    destruct (embed svc _) as [embeddings|e]; simpl in Hin; [|done].
    destruct Hin as [<-|[]]. exists i, embeddings. split; [by left|done].
  - destruct (IH Hin) as (j & embeddings & Hj & Hv).
    exists j, embeddings. split; [by right|done].
Qed.

(** A vector of the batch at offset [i] belongs to the document at its
    global offset. *)
Lemma batch_vector_origin documents i embeddings v :
  In v (batch_vectors i (batch_at documents i) embeddings) ->
  exists j doc embedding,
    (j < batch_size)%nat
    /\ documents !! (i + j)%nat = Some doc
    /\ embeddings !! j = Some embedding
    /\ v = make_vector i j (doc, embedding).
Proof.
  unfold batch_vectors, batch_at. intros Hin.
  apply list_elem_of_In, elem_of_lookup_imap in Hin
    as (j & [doc embedding] & -> & Hzip).
  apply lookup_zip_Some in Hzip as [Hdoc Hemb].
  apply lookup_take_Some in Hdoc as [Hdoc Hj]. rewrite lookup_drop in Hdoc.
  by exists j, doc, embedding.
Qed.

End Upserts.

Lemma str_take_length n s :
  String.length (str_take n s) = Nat.min n (String.length s).
Proof.
  revert s. induction n as [|n IH]; intros [|c s]; simpl; try done.
  by rewrite IH.
Qed.

Lemma str_take_first_chars n s : first_chars n s (str_take n s).
Proof.
  split; [|apply str_take_length].
  revert s. induction n as [|n IH]; intros [|c s]; simpl;
    try (by eexists).
  destruct (IH s) as [rest Hrest]. exists rest.
  change (String c s = String c (str_take n s ++ rest)). by rewrite <- Hrest.
Qed.

Lemma vector_id_inj n m : Indexer.vector_id n = Indexer.vector_id m -> n = m.
Proof.
  unfold Indexer.vector_id. simpl. intros H. injection H as H.
  by apply pretty_nat_inj.
Qed.

Section Store.
Import Indexer.

Lemma upsert_all_snoc vectors v (m : gmap string Vector) :
  upsert_all (vectors ++ [v]) m = <[v_id v := v]> (upsert_all vectors m).
Proof. unfold upsert_all. by rewrite foldl_snoc. Qed.

(** What is stored under [k] after an upsert: the last of the upserted
    vectors with that id, or what was there before. *)
Lemma upsert_all_lookup vectors (m : gmap string Vector) k :
  upsert_all vectors m !! k =
  match last (List.filter (fun v => String.eqb (v_id v) k) vectors) with
  | Some v => Some v
  | None => m !! k
  end.
Proof.
  induction vectors as [|v vectors IH] using rev_ind; [done|].
  rewrite upsert_all_snoc, List.filter_app, last_app. simpl.
  destruct (String.eqb_spec (v_id v) k) as [->|Hne]; simpl.
  - by rewrite lookup_insert_eq.
  - by rewrite lookup_insert_ne.
Qed.

(** Upserting the same vectors again changes nothing. *)
Lemma upsert_all_twice vectors (m : gmap string Vector) :
  upsert_all vectors (upsert_all vectors m) = upsert_all vectors m.
Proof.
  apply map_eq. intros k. rewrite !upsert_all_lookup.
  by destruct (last _).
Qed.

Lemma upsert_all_app v1 v2 (m : gmap string Vector) :
  upsert_all (v1 ++ v2) m = upsert_all v2 (upsert_all v1 m).
Proof. unfold upsert_all. by rewrite foldl_app. Qed.

Lemma upsert_batches svc documents offsets (m : gmap string Vector) :
  foldl (fun m i => upsert_all (batch_stored svc documents i) m) m offsets =
  upsert_all (List.concat (List.map (batch_stored svc documents) offsets)) m.
Proof.
  revert m. induction offsets as [|i offsets IH]; intros m; [done|].
  cbn [List.map List.concat foldl]. by rewrite IH, upsert_all_app.
Qed.

End Store.

Section Population.
Import Py Indexer.
Variable svc : Services.

Lemma stored_subset documents i v :
  In v (batch_stored svc documents i) ->
  exists embeddings,
    In v (batch_vectors i (batch_at documents i) embeddings).
Proof.
  unfold batch_stored.
  destruct (embed svc _) as [embeddings|e]; [|done].
  destruct (upsert_fault svc _); [done|]. eauto.
Qed.

(** Every stored vector is the vector of one document, under the id of
    that document's offset. *)
Lemma stored_vector_origin documents offsets v :
  In v (List.concat (List.map (batch_stored svc documents) offsets)) ->
  exists n doc,
    documents !! n = Some doc
    /\ v_id v = vector_id n
    /\ v_metadata v = vector_metadata doc.
Proof.
  intros Hin. apply in_concat in Hin as (vs & Hvs & Hv).
  apply in_map_iff in Hvs as (i & <- & _).
  apply stored_subset in Hv as [embeddings Hv].
  apply batch_vector_origin in Hv
    as (j & doc & embedding & _ & Hdoc & _ & ->).
  by exists (i + j)%nat, doc.
Qed.

(** With the services up, the document at every offset is stored. *)
Lemma stored_vector_present documents n doc :
  services_up svc ->
  documents !! n = Some doc ->
  exists v,
    In v (List.concat (List.map (batch_stored svc documents)
                         (batch_offsets (List.length documents))))
    /\ v_id v = vector_id n.
Proof.
  intros [Hembed Hupsert] Hdoc.
  pose proof (lookup_lt_Some _ _ _ Hdoc) as Hn.
  pose proof (Nat.div_mod_eq n 10) as Hdiv.
  pose proof (Nat.mod_upper_bound n 10) as Hmod.
  pose proof (Nat.div_mod_eq (List.length documents + 10 - 1) 10) as Hdiv'.
  pose proof (Nat.mod_upper_bound (List.length documents + 10 - 1) 10) as Hmod'.
  set (i := (n / 10 * 10)%nat). set (j := (n mod 10)%nat).
  assert (Hij : (i + j)%nat = n) by (subst i j; lia).
  assert (Hbatch : batch_at documents i !! j = Some doc).
  { unfold batch_at, batch_size. apply lookup_take_Some. split; [|subst j; lia].
    by rewrite lookup_drop, Hij. }
  destruct (Hembed (List.map page_content (batch_at documents i)))
    as (embeddings & Hemb & Hlen).
  rewrite length_map in Hlen.
  destruct (lookup_lt_is_Some_2 embeddings j) as [embedding Hembedding].
  { rewrite Hlen. by eapply lookup_lt_Some. }
  exists (make_vector i j (doc, embedding)). split.
  - apply in_concat. exists (batch_stored svc documents i). split.
    + apply in_map. unfold batch_offsets, batch_size. apply in_map_iff.
      exists (n / 10)%nat. split; [done|]. apply in_seq. lia.
    + unfold batch_stored. rewrite Hemb, Hupsert.
      apply list_elem_of_In. unfold batch_vectors.
      apply elem_of_lookup_imap. exists j, (doc, embedding).
      split; [done|]. by apply lookup_zip_Some.
  - simpl. by rewrite Hij.
Qed.

(** The stored value under the id of offset [n]. *)
Lemma stored_lookup documents n doc (m : gmap string Vector) :
  services_up svc ->
  documents !! n = Some doc ->
  exists v,
    upsert_all (List.concat (List.map (batch_stored svc documents)
                               (batch_offsets (List.length documents)))) m
    !! vector_id n = Some v
    /\ v_id v = vector_id n
    /\ v_metadata v = vector_metadata doc.
Proof.
  intros Hup Hdoc. rewrite upsert_all_lookup.
  destruct (stored_vector_present documents n doc Hup Hdoc) as (v & Hv & Hid).
  match goal with |- context [last ?l] => destruct (last l) as [w|] eqn:Hlast end.
  - exists w. split; [done|].
    apply last_Some_elem_of, list_elem_of_In, filter_In in Hlast as [Hw Hwid].
    apply String.eqb_eq in Hwid. split; [done|].
    apply stored_vector_origin in Hw as (n' & doc' & Hdoc' & Hid' & Hmeta').
    rewrite Hid' in Hwid. apply vector_id_inj in Hwid. subst n'.
    rewrite Hdoc in Hdoc'. by injection Hdoc' as <-.
  - exfalso. apply last_None in Hlast.
    assert (Hin : In v (List.filter (fun v => String.eqb (v_id v) (vector_id n))
                          (List.concat (List.map (batch_stored svc documents)
                             (batch_offsets (List.length documents)))))).
    { apply filter_In. split; [done|]. by apply String.eqb_eq. }
    rewrite Hlast in Hin. done.
Qed.

(** Setting the index up a second time only lists the indexes and
    builds the handle. *)
Lemma setup_again s :
  list_indexes_fault svc = None ->
  index_fault svc = None ->
  index_exists svc || created s = true ->
  setup_pinecone_index svc s =
  (Ok tt, {| created := created s; store := store s;
             log := (log s ++ [EvListIndexes; EvIndex INDEX_NAME])%list |}).
Proof.
  intros Hlist Hindex Hex. rewrite setup_cases. cbv zeta.
  by rewrite Hlist, Hex, Hindex.
Qed.

End Population.

Section Indexing.
Import Py Indexer.
Variable svc : Services.

(** C9. Once the index is set up, [populate_index] sends the documents to
    the embedding service in consecutive batches of ten (the last one may
    be shorter), in order.  Every vector of every upsert is the vector of
    the document at some global offset [n]: its id is "doc_n", its text is
    the first 1000 characters of the content (all of it when it is
    shorter), its title the first 100 of the title and its source the
    first 200 of the source URL.  When the
    services answer, the document at every offset [n] ends up stored under
    "doc_n"; and running the same list again leaves the stored vectors as
    they are, so a second run overwrites and does not duplicate. *)
Theorem populate_index_batches_and_ids documents s s0 :
  setup_pinecone_index svc s = (Ok tt, s0) ->
  exists r s' new,
    populate_index svc documents s = (r, s')
    /\ log s' = (log s ++ new)%list
    /\ List.concat (embedded new) = List.map page_content documents
    /\ (forall k texts,
          embedded new !! k = Some texts ->
          (1 <= List.length texts <= 10)%nat
          /\ ((S k < List.length (embedded new))%nat ->
              List.length texts = 10%nat))
    /\ (forall vectors v,
          In vectors (upserts new) -> In v vectors ->
          (List.length vectors <= 10)%nat
          /\ exists n doc,
              documents !! n = Some doc
              /\ v_id v = "doc_" ++ pretty n
              /\ first_chars 1000 (page_content doc) (vm_text (v_metadata v))
              /\ first_chars 100 (default "" (md_title (metadata doc)))
                             (vm_title (v_metadata v))
              /\ first_chars 200 (default "" (md_source (metadata doc)))
                             (vm_source (v_metadata v)))
    /\ (services_up svc ->
        forall n doc,
          documents !! n = Some doc ->
          exists v,
            store s' !! ("doc_" ++ pretty n) = Some v
            /\ v_id v = "doc_" ++ pretty n
            /\ v_metadata v = vector_metadata doc)
    /\ (r = Ok tt ->
        exists s'',
          populate_index svc documents s' = (Ok tt, s'')
          /\ store s'' = store s').
Proof.
  intros Hsetup.
  destruct documents as [|d ds].
  { exists (Ok tt), s, []. simpl. rewrite app_nil_r.
    repeat split; try done. intros _. by exists s. }
  destruct (setup_run svc s)
    as (r0 & new0 & Hrun0 & Hemb0 & Hups0 & _ & Hok0).
  rewrite Hsetup in Hrun0. injection Hrun0 as <- Hs0.
  destruct (Hok0 eq_refl) as (Hexists & Hlist & Hindex).
  rewrite Hsetup in Hexists.
  simpl in Hexists.
  assert (Hstore0 : store s0 = store s) by (by rewrite Hs0).
  assert (Hlog0 : log s0 = (log s ++ new0)%list) by (by rewrite Hs0).
  rewrite (populate_index_run svc d ds s s0 Hsetup).
  change (S (List.length ds)) with (List.length (d :: ds)).
  set (documents := d :: ds) in *.
  set (offsets := batch_offsets (List.length documents)).
  set (events := List.concat (List.map (batch_events svc documents) offsets)).
  eexists _, _, (new0 ++ events ++ [EvDescribeStats])%list.
  split; [reflexivity|]. cbn [log store created].
  assert (Hembedded :
            embedded (new0 ++ events ++ [EvDescribeStats])%list =
            List.map (fun i => List.map page_content (batch_at documents i))
                     offsets).
  { unfold embedded. rewrite !omap_app. fold (embedded new0).
    fold (embedded events). rewrite Hemb0. subst events.
    rewrite embedded_batches. simpl. by rewrite app_nil_r. }
  assert (Hupserts :
            upserts (new0 ++ events ++ [EvDescribeStats])%list = upserts events).
  { unfold upserts. rewrite !omap_app. fold (upserts new0).
    fold (upserts events). rewrite Hups0. simpl. by rewrite app_nil_r. }
  split; [by rewrite Hlog0, <- app_assoc|].
  split; [|split; [|split; [|split]]].
  - rewrite Hembedded. subst offsets. unfold batch_offsets, batch_at, batch_size.
    rewrite List.map_map. rewrite <- (List.map_map _ (List.map page_content)).
    rewrite <- List.concat_map. by rewrite windows_cover.
  - intros k texts. rewrite Hembedded. subst offsets.
    unfold batch_offsets, batch_at, batch_size.
    rewrite List.map_map, !length_map, length_seq.
    intros Hk.
    match type of Hk with
    | List.map ?f ?l !! _ = _ => change (List.map f l) with (f <$> l) in Hk
    end.
    rewrite list_lookup_fmap in Hk. apply fmap_Some in Hk as (b & Hb & ->).
    apply lookup_seq in Hb as [-> Hb]. rewrite Nat.add_0_l.
    rewrite length_map. by apply window_length.
  - intros vectors v. rewrite Hupserts. intros Hvs Hv. subst events.
    apply upserts_batches in Hvs as (i & embeddings & _ & ->).
    split.
    + unfold batch_vectors, batch_at, batch_size.
      rewrite length_imap, length_zip_with, length_take. lia.
    + apply batch_vector_origin in Hv
        as (j & doc & embedding & _ & Hdoc & _ & ->).
      exists (i + j)%nat, doc. unfold make_vector, vector_metadata, vector_id.
      cbn [v_id v_metadata vm_text vm_title vm_source fst snd].
      split; [done|]. split; [done|].
      split; [|split]; apply str_take_first_chars.
  - intros Hup n doc Hdoc. rewrite upsert_batches.
    by apply stored_lookup.
  - intros Hr.
    assert (Hstats : stats_fault svc = None)
      by (destruct (stats_fault svc); [discriminate|done]).
    match goal with
    | |- context [populate_index svc documents ?st] => set (s1 := st)
    end.
    assert (Hagain : setup_pinecone_index svc s1 =
                     (Ok tt, {| created := created s1; store := store s1;
                                log := (log s1 ++ [EvListIndexes;
                                                   EvIndex INDEX_NAME])%list |}))
      by (apply setup_again; [exact Hlist|exact Hindex|exact Hexists]).
    subst documents.
    rewrite (populate_index_run svc d ds s1 _ Hagain).
    rewrite Hstats. eexists. split; [reflexivity|].
    cbn [store]. subst s1. cbn [store].
    rewrite !upsert_batches. apply upsert_all_twice.
Qed.

End Indexing.

(** Twelve documents, every service up: the last one is stored under
    "doc_11" with its metadata. *)
Lemma populate_index_batches_and_ids_witness :
  exists v,
    Indexer.store
      (snd (Indexer.populate_index Scenario.six_crawled
              Scenario.twelve_documents Indexer.initial))
    !! "doc_11" = Some v
    /\ Indexer.v_id v = "doc_11"
    /\ Indexer.v_metadata v =
       {| Indexer.vm_text := "The endpoint serves several open models.";
          Indexer.vm_title := "Models";
          Indexer.vm_source := "https://inference-docs.cerebras.ai/models";
          Indexer.vm_section := "Documentation";
          Indexer.vm_content_type := "documentation";
          Indexer.vm_chunk_index := 0 |}.
Proof.
  destruct (populate_index_batches_and_ids Scenario.six_crawled
              Scenario.twelve_documents Indexer.initial
              (snd (Indexer.setup_pinecone_index Scenario.six_crawled
                      Indexer.initial)))
    as (r & s' & new & Hrun & _ & _ & _ & _ & Hstored & _).
  - reflexivity.
  - destruct (Hstored) with (n := 11%nat) (doc := Scenario.models)
      as (v & Hv & Hid & Hmeta).
    + split.
      * intros texts. exists (List.map (fun _ => [1%Z]) texts).
        split; [reflexivity|apply length_map].
      * reflexivity.
    + reflexivity.
    + exists v. rewrite Hrun. split; [exact Hv|]. split; [exact Hid|].
      rewrite Hmeta. reflexivity.
Defined.

(** * Properties of the normalizer *)

Section CharacterClasses.
Import Chars.

Ltac by_cases c :=
  destruct c as [[] [] [] [] [] [] [] []]; vm_compute; try reflexivity;
  try discriminate; intros; try discriminate; try reflexivity.

Lemma letter_is_word c : is_letter c = true -> is_word c = true.
Proof. by_cases c. Qed.

Lemma letter_not_space c : is_letter c = true -> is_space c = false.
Proof. by_cases c. Qed.

Lemma letter_not_blank c : is_letter c = true -> is_blank c = false.
Proof. by_cases c. Qed.

Lemma space_not_word c : is_space c = true -> is_word c = false.
Proof. by_cases c. Qed.

Lemma blank_is_space c : is_blank c = true -> is_space c = true.
Proof. by_cases c. Qed.

Lemma blank_is_the_space c : is_blank c = true -> c = space.
Proof. by_cases c. Qed.

End CharacterClasses.

Section Substitution.
Import Chars Re.
Variable m : matcher.

(** Skipping the rest of a match: the scan resumes after the skipped
    characters, with the last of them as the previous character. *)
Lemma sub_skip k : forall prev s,
  sub m prev k s =
  sub m (match last (take k s) with Some c => Some c | None => prev end)
      0 (drop k s).
Proof.
  induction k as [|k IH]; intros prev s.
  - by rewrite take_0, drop_0.
  - destruct s as [|c rest]; [done|].
    cbn [sub take drop]. rewrite IH.
    destruct (take k rest) as [|d l] eqn:Htake; [done|].
    rewrite last_cons_cons.
    destruct (last (d :: l)) eqn:Hlast; [done|by apply last_None in Hlast].
Qed.

(** Where the pattern matches nowhere, the text is unchanged. *)
Lemma sub_no_match : forall s prev,
  (forall prefix c rest,
      s = (prefix ++ c :: rest)%list ->
      m (match last prefix with Some d => Some d | None => prev end)
        (c :: rest) = None) ->
  sub m prev 0 s = s.
Proof.
  induction s as [|c rest IH]; intros prev Hnone; [done|].
  pose proof (Hnone [] c rest eq_refl) as Hhead. simpl in Hhead.
  cbn [sub]. rewrite Hhead. f_equal.
  apply IH. intros prefix d rest' ->.
  specialize (Hnone (c :: prefix) d rest' eq_refl).
  destruct prefix as [|e prefix]; [done|].
  rewrite last_cons_cons in Hnone.
  destruct (last (e :: prefix)) eqn:Hlast; [done|by apply last_None in Hlast].
Qed.

End Substitution.

Section SpacedLetters.
Import Chars Re Normalizer.

Lemma spaced_head prev s n :
  spaced_letters prev s = Some n ->
  exists c rest,
    s = c :: rest /\ boundary prev (Some c) = true /\ is_letter c = true.
Proof.
  destruct s as [|c rest]; [done|]. simpl.
  destruct (boundary prev (Some c) && is_letter c) eqn:Hc; [|done].
  apply andb_true_iff in Hc as [Hb Hl]. intros _. by exists c, rest.
Qed.

Lemma spaced_succ prev s n :
  spaced_letters prev s = Some (S n) ->
  exists c w rest,
    s = c :: w :: rest
    /\ boundary prev (Some c) = true /\ is_letter c = true
    /\ is_space w = true
    /\ spaced_letters (Some w) rest = Some n.
Proof.
  destruct s as [|c [|w rest]]; [done| |].
  - simpl. by destruct (boundary prev (Some c) && is_letter c).
  - cbn [spaced_letters].
    destruct (boundary prev (Some c) && is_letter c) eqn:Hc; [|done].
    apply andb_true_iff in Hc as [Hb Hl].
    destruct (is_space w) eqn:Hw; [|done].
    destruct (spaced_letters (Some w) rest) as [n'|] eqn:Hrest; [|done].
    intros [= <-]. by exists c, w, rest.
Qed.

(** Only whether the previous character is a word character matters. *)
Lemma spaced_prev prev prev' s :
  word_opt prev = word_opt prev' ->
  spaced_letters prev s = spaced_letters prev' s.
Proof.
  intros Hsame. destruct s as [|c rest]; [done|].
  cbn [spaced_letters]. unfold boundary. by rewrite Hsame.
Qed.

(** After a word character no group starts. *)
Lemma spaced_after_word prev c s :
  is_word prev = true -> is_letter c = true ->
  spaced_letters (Some prev) (c :: s) = None.
Proof.
  intros Hprev Hc. cbn [spaced_letters]. unfold boundary. simpl.
  by rewrite Hprev, (letter_is_word c Hc).
Qed.

(** The shape of a match of [n] groups and a last letter, in a text
    whose whitespace is space characters: it lies within the text, ends on
    a letter, and without its spaces it is [n + 1] letters. *)
Lemma spaced_shape n : forall prev s,
  spaced_letters prev s = Some n ->
  Forall (fun c => is_space c = true -> is_blank c = true) s ->
  (2 * n + 1 <= List.length s)%nat
  /\ exists letters l,
      List.filter (fun c => negb (is_blank c)) (take (2 * n + 1) s)
      = (letters ++ [l])%list
      /\ List.length letters = n
      /\ Forall (fun c => is_letter c = true) (letters ++ [l])%list
      /\ last (take (2 * n + 1) s) = Some l.
Proof.
  induction n as [|n IH]; intros prev s Hn Hblank.
  - destruct (spaced_head _ _ _ Hn) as (c & rest & -> & _ & Hc).
    split; [simpl; lia|]. exists [], c. simpl.
    rewrite (letter_not_blank c Hc). simpl.
    repeat split; try done. by constructor.
  - destruct (spaced_succ _ _ _ Hn) as (c & w & rest & -> & _ & Hc & Hw & Hrest).
    inversion Hblank as [|? ? _ Htail]; subst.
    inversion Htail as [|? ? Hwb Hblank']; subst.
    destruct (IH _ _ Hrest Hblank') as (Hlen & letters & l & Hfilter & Hcount & Hall & Hlast).
    split; [simpl; lia|].
    exists (c :: letters), l.
    replace (2 * S n + 1)%nat with (S (S (2 * n + 1))) by lia.
    cbn [take List.filter]. rewrite (letter_not_blank c Hc), (Hwb Hw).
    cbn [negb]. rewrite Hfilter. repeat split.
    + simpl. by rewrite Hcount.
    + by constructor.
    + destruct (take (2 * n + 1) rest) as [|d t] eqn:Htake; [done|].
      by rewrite !last_cons_cons.
Qed.

End SpacedLetters.

Section JoinSpaced.
Import Chars Re Normalizer.

Lemma m_spaced_match prev s n :
  spaced_letters prev s = Some n -> (2 <= n)%nat ->
  m_spaced prev s =
  Some (List.filter (fun c => negb (is_blank c)) (take (2 * n + 1) s),
        S (2 * n)).
Proof.
  intros Hn Hge. unfold m_spaced. rewrite Hn.
  destruct (Nat.leb_spec 2 n) as [_|Hlt]; [|lia].
  by replace (2 * n + 1)%nat with (S (2 * n)) by lia.
Qed.

Lemma m_spaced_small prev s :
  (forall n, spaced_letters prev s = Some n -> (n < 2)%nat) ->
  m_spaced prev s = None.
Proof.
  intros Hsmall. unfold m_spaced.
  destruct (spaced_letters prev s) as [n|]; [|done].
  specialize (Hsmall n eq_refl).
  by destruct (Nat.leb_spec 2 n) as [Hge|_]; [lia|].
Qed.

Lemma m_spaced_inv prev s repl k :
  m_spaced prev s = Some (repl, k) ->
  exists n, spaced_letters prev s = Some n /\ (2 <= n)%nat.
Proof.
  unfold m_spaced. destruct (spaced_letters prev s) as [n|]; [|done].
  destruct (Nat.leb_spec 2 n) as [Hge|_]; [|done]. intros _. by exists n.
Qed.

(** The scan at a position where the pattern matches, and where it does
    not. *)
Lemma join_at_match prev c rest n :
  spaced_letters prev (c :: rest) = Some n -> (2 <= n)%nat ->
  sub m_spaced prev 0 (c :: rest) =
  (List.filter (fun c => negb (is_blank c)) (take (2 * n + 1) (c :: rest))
   ++ sub m_spaced (Some c) (2 * n) rest)%list.
Proof.
  intros Hn Hge. cbn [sub]. by rewrite (m_spaced_match _ _ _ Hn Hge).
Qed.

Lemma join_copy prev c rest :
  m_spaced prev (c :: rest) = None ->
  sub m_spaced prev 0 (c :: rest) = c :: sub m_spaced (Some c) 0 rest.
Proof. intros Hnone. cbn [sub]. by rewrite Hnone. Qed.

Lemma join_copy_other prev c rest :
  is_letter c = false ->
  sub m_spaced prev 0 (c :: rest) = c :: sub m_spaced (Some c) 0 rest.
Proof.
  intros Hc. apply join_copy. unfold m_spaced. cbn [spaced_letters].
  by rewrite Hc, andb_false_r.
Qed.

(** The first character is always kept. *)
Lemma join_head prev c rest :
  exists t, sub m_spaced prev 0 (c :: rest) = c :: t.
Proof.
  destruct (m_spaced prev (c :: rest)) as [[repl k]|] eqn:Hm.
  - destruct (m_spaced_inv _ _ _ _ Hm) as (n & Hn & Hge).
    rewrite (join_at_match _ _ _ _ Hn Hge).
    destruct (spaced_head _ _ _ Hn) as (c' & rest' & [= <- <-] & _ & Hc).
    replace (2 * n + 1)%nat with (S (2 * n)) by lia.
    cbn [take List.filter]. rewrite (letter_not_blank c Hc). cbn [negb].
    eauto.
  - rewrite (join_copy _ _ _ Hm). eauto.
Qed.

(** The scan does not create a place where the pattern matches: where
    the pattern finds fewer than two groups, it finds as many in the
    result. *)
Lemma join_keeps_none prev s :
  spaced_letters prev s = None ->
  spaced_letters prev (sub m_spaced prev 0 s) = None.
Proof.
  destruct s as [|c rest]; [done|]. intros Hnone.
  rewrite join_copy by (unfold m_spaced; by rewrite Hnone).
  cbn [spaced_letters] in *.
  destruct (boundary prev (Some c) && is_letter c); [exfalso|done].
  destruct rest as [|w rest]; [done|].
  destruct (is_space w); [|done].
  by destruct (spaced_letters (Some w) rest).
Qed.

Lemma join_keeps_zero prev s :
  spaced_letters prev s = Some 0%nat ->
  spaced_letters prev (sub m_spaced prev 0 s) = Some 0%nat.
Proof.
  intros Hzero.
  destruct (spaced_head _ _ _ Hzero) as (c & rest & -> & Hb & Hc).
  rewrite join_copy by (unfold m_spaced; by rewrite Hzero).
  cbn [spaced_letters] in *. rewrite Hb, Hc in *. cbn [andb] in *.
  destruct rest as [|w rest]; [done|].
  destruct (is_space w) eqn:Hw.
  - rewrite join_copy_other.
    2:{ destruct (is_letter w) eqn:Hl; [|done].
        by rewrite (letter_not_space w Hl) in Hw. }
    rewrite Hw.
    destruct (spaced_letters (Some w) rest) as [n|] eqn:Hrest; [done|].
    by rewrite (join_keeps_none _ _ Hrest).
  - destruct (join_head (Some c) w rest) as [t ->]. by rewrite Hw.
Qed.

Lemma join_keeps_one prev s :
  spaced_letters prev s = Some 1%nat ->
  spaced_letters prev (sub m_spaced prev 0 s) = Some 1%nat.
Proof.
  intros Hone.
  destruct (spaced_succ _ _ _ Hone) as (c & w & rest & -> & Hb & Hc & Hw & Hrest).
  rewrite join_copy by (unfold m_spaced; by rewrite Hone).
  rewrite join_copy_other.
  2:{ destruct (is_letter w) eqn:Hl; [|done].
      by rewrite (letter_not_space w Hl) in Hw. }
  cbn [spaced_letters]. rewrite Hb, Hc, Hw. cbn [andb].
  by rewrite (join_keeps_zero _ _ Hrest).
Qed.

Lemma join_no_new_match prev s :
  m_spaced prev s = None ->
  m_spaced prev (sub m_spaced prev 0 s) = None.
Proof.
  intros Hnone. apply m_spaced_small. intros n Hn.
  unfold m_spaced in Hnone.
  destruct (spaced_letters prev s) as [[|[|k]]|] eqn:Hs.
  - rewrite (join_keeps_zero _ _ Hs) in Hn. injection Hn as <-. lia.
  - rewrite (join_keeps_one _ _ Hs) in Hn. injection Hn as <-. lia.
  - done.
  - by rewrite (join_keeps_none _ _ Hs) in Hn.
Qed.

End JoinSpaced.

Section JoinIdempotent.
Import Chars Re Normalizer.

(** A run of letters after a word character is copied. *)
Lemma join_after_word letters : forall prev rest,
  is_word prev = true ->
  Forall (fun c => is_letter c = true) letters ->
  sub m_spaced (Some prev) 0 (letters ++ rest) =
  (letters
   ++ sub m_spaced
        (match last letters with Some l => Some l | None => Some prev end)
        0 rest)%list.
Proof.
  induction letters as [|l letters IH]; intros prev rest Hprev Hall; [done|].
  inversion Hall as [|? ? Hl Hall']; subst.
  cbn [app]. rewrite join_copy.
  2:{ unfold m_spaced. by rewrite spaced_after_word. }
  rewrite IH by (auto using letter_is_word). cbn [app]. f_equal. f_equal.
  destruct letters as [|l' letters]; [done|].
  rewrite last_cons_cons.
  destruct (last (l' :: letters)) eqn:Hlast; [done|by apply last_None in Hlast].
Qed.

(** A run of at least two letters is copied wherever it stands. *)
Lemma join_letters_run prev l0 l1 letters rest :
  Forall (fun c => is_letter c = true) (l0 :: l1 :: letters) ->
  sub m_spaced prev 0 ((l0 :: l1 :: letters) ++ rest) =
  ((l0 :: l1 :: letters)
   ++ sub m_spaced (last (l0 :: l1 :: letters)) 0 rest)%list.
Proof.
  intros Hall. inversion Hall as [|? ? Hl0 Hall']; subst.
  inversion Hall' as [|? ? Hl1 _]; subst.
  cbn [app]. rewrite join_copy.
  2:{ apply m_spaced_small. intros n. cbn [spaced_letters app].
      destruct (boundary prev (Some l0) && is_letter l0); [|done].
      rewrite (letter_not_space l1 Hl1). intros [= <-]. lia. }
  change (l1 :: (letters ++ rest)%list) with ((l1 :: letters) ++ rest)%list.
  rewrite join_after_word by (auto using letter_is_word).
  cbn [app]. f_equal. f_equal. f_equal.
  rewrite last_cons_cons.
  destruct (last (l1 :: letters)) eqn:Hlast; [done|by apply last_None in Hlast].
Qed.

(** The first pass is idempotent on a text whose whitespace is space
    characters. *)
Lemma join_idempotent_bounded len : forall s prev,
  (List.length s <= len)%nat ->
  Forall (fun c => is_space c = true -> is_blank c = true) s ->
  sub m_spaced prev 0 (sub m_spaced prev 0 s) = sub m_spaced prev 0 s.
Proof.
  induction len as [|len IH]; intros s prev Hlen Hblank.
  { destruct s; [done|simpl in Hlen; lia]. }
  destruct s as [|c rest]; [done|].
  destruct (m_spaced prev (c :: rest)) as [[repl k]|] eqn:Hm.
  - destruct (m_spaced_inv _ _ _ _ Hm) as (n & Hn & Hge).
    rewrite (join_at_match _ _ _ _ Hn Hge).
    destruct (spaced_shape _ _ _ Hn Hblank)
      as (Hfits & letters & l & -> & Hcount & Hall & Hlast).
    rewrite (sub_skip m_spaced (2 * n) (Some c) rest).
    assert (Hprev : match last (take (2 * n) rest) with
                    | Some d => Some d
                    | None => Some c
                    end = Some l).
    { replace (2 * n + 1)%nat with (S (2 * n)) in Hlast by lia.
      cbn [take] in Hlast.
      destruct (take (2 * n) rest) as [|d t] eqn:Htake.
      - apply (f_equal List.length) in Htake.
        rewrite length_take in Htake. simpl in *. lia.
      - rewrite last_cons_cons in Hlast. by rewrite Hlast. }
    rewrite Hprev.
    destruct letters as [|l0 [|l1 letters]]; [simpl in Hcount; lia..|].
    change (((l0 :: l1 :: letters) ++ [l]) ++
            sub m_spaced (Some l) 0 (drop (2 * n) rest))%list
      with ((l0 :: l1 :: (letters ++ [l])) ++
            sub m_spaced (Some l) 0 (drop (2 * n) rest))%list.
    rewrite join_letters_run by exact Hall.
    f_equal.
    assert (Hl : last (l0 :: l1 :: (letters ++ [l])%list) = Some l).
    { rewrite !last_cons_cons.
      change (l1 :: (letters ++ [l])%list) with ((l1 :: letters) ++ [l])%list.
      apply last_snoc. }
    rewrite Hl. apply IH.
    + rewrite length_drop. simpl in Hlen. lia.
    + inversion Hblank; subst. by apply Forall_drop.
  - rewrite (join_copy _ _ _ Hm).
    pose proof (join_no_new_match _ _ Hm) as Hnew.
    rewrite (join_copy _ _ _ Hm) in Hnew.
    rewrite (join_copy _ _ _ Hnew). f_equal.
    apply IH; [simpl in Hlen; lia|by inversion Hblank].
Qed.

Lemma join_idempotent s prev :
  Forall (fun c => is_space c = true -> is_blank c = true) s ->
  sub m_spaced prev 0 (sub m_spaced prev 0 s) = sub m_spaced prev 0 s.
Proof. by apply (join_idempotent_bounded (List.length s)). Qed.

End JoinIdempotent.

Section QuietPasses.
Import Chars Re Normalizer.

(** A pass whose pattern needs a character that the text does not
    contain leaves the text alone. *)
Lemma sub_absent (m : matcher) (absent : ascii -> Prop) :
  (forall prev t, Forall absent t -> m prev t = None) ->
  forall s prev, Forall absent s -> sub m prev 0 s = s.
Proof.
  intros Hm. induction s as [|c rest IH]; intros prev Hall; [done|].
  cbn [sub]. rewrite (Hm prev _ Hall). f_equal. apply IH.
  by inversion Hall.
Qed.

Lemma span_absent (p : ascii -> bool) s :
  Forall (fun c => p c = false) s -> span p s = 0%nat.
Proof. destruct 1 as [|c rest Hc _]; [done|]. simpl. by rewrite Hc. Qed.

Lemma drop_underscores_quiet s :
  Forall (fun c => is_underscore c = false) s -> drop_underscores s = s.
Proof.
  apply sub_absent. intros prev t Hall. unfold m_underscores.
  rewrite (span_absent is_underscore) by (by apply Forall_drop). done.
Qed.

Lemma tidy_lparen_quiet s :
  Forall (fun c => is_lparen c = false) s -> tidy_lparen s = s.
Proof.
  apply sub_absent. intros prev t Hall. unfold m_lparen.
  destruct Hall as [|c rest Hc _]; [done|]. by rewrite Hc.
Qed.

Lemma tidy_rparen_quiet s :
  Forall (fun c => is_rparen c = false) s -> tidy_rparen s = s.
Proof.
  apply sub_absent. intros prev t Hall. unfold m_rparen.
  pose proof (Forall_drop _ (span is_space t) _ Hall) as Hdrop.
  destruct Hdrop as [|c rest Hc _]; [done|]. by rewrite Hc, andb_false_r.
Qed.

Lemma tidy_punct_quiet s :
  Forall (fun c => is_punct c = false) s -> tidy_punct s = s.
Proof.
  apply sub_absent. intros prev t Hall. unfold m_punct.
  pose proof (Forall_drop _ (span is_space t) _ Hall) as Hdrop.
  destruct Hdrop as [|c rest Hc _]; [done|]. by rewrite Hc.
Qed.

Lemma drop_backslashes_quiet s :
  Forall (fun c => is_backslash c = false) s -> drop_backslashes s = s.
Proof.
  unfold drop_backslashes. induction 1 as [|c rest Hc _ IH]; [done|].
  simpl. by rewrite Hc, IH.
Qed.

(** Single space characters are what the whitespace pass writes. *)
Lemma collapse_whitespace_quiet_from s : forall prev,
  Forall (fun c => is_space c = true -> is_blank c = true) s ->
  single_spaced s = true ->
  sub m_whitespace prev 0 s = s.
Proof.
  induction s as [|c rest IH]; intros prev Hblank Hsingle; [done|].
  inversion Hblank as [|? ? Hc Hblank']; subst.
  cbn [single_spaced] in Hsingle. apply andb_true_iff in Hsingle as [Hpair Hrest].
  destruct (is_space c) eqn:Hspace.
  - assert (Hzero : span is_space rest = 0%nat).
    { destruct rest as [|d rest']; [done|]. simpl. simpl in Hpair.
      by destruct (is_space d). }
    assert (Hm : m_whitespace prev (c :: rest) = Some ([space], 1%nat)).
    { unfold m_whitespace. cbn [span]. by rewrite Hspace, Hzero. }
    cbn [sub]. rewrite Hm. cbn [app].
    rewrite (IH _ Hblank' Hrest).
    by rewrite (blank_is_the_space c (Hc eq_refl)).
  - assert (Hm : m_whitespace prev (c :: rest) = None).
    { unfold m_whitespace. cbn [span]. by rewrite Hspace. }
    cbn [sub]. rewrite Hm. f_equal. by apply IH.
Qed.

Lemma collapse_whitespace_quiet s :
  Forall (fun c => is_space c = true -> is_blank c = true) s ->
  single_spaced s = true ->
  collapse_whitespace s = s.
Proof. apply collapse_whitespace_quiet_from. Qed.

End QuietPasses.

Section JoinPreserves.
Import Chars Re Normalizer.

Lemma m_spaced_replacement prev s repl k :
  m_spaced prev s = Some (repl, k) -> incl repl s.
Proof.
  unfold m_spaced. destruct (spaced_letters prev s) as [n|]; [|done].
  destruct (2 <=? n)%nat; [|done]. intros [= <- _].
  intros x Hx. apply filter_In in Hx as [Hx _].
  rewrite <- (take_drop (2 * n + 1) s). apply in_or_app. by left.
Qed.

(** The first pass writes no character that the text does not have. *)
Lemma join_forall (P : ascii -> Prop) s : forall prev k,
  Forall P s -> Forall P (sub m_spaced prev k s).
Proof.
  induction s as [|c rest IH]; intros prev k Hall; [done|].
  inversion Hall as [|? ? Hc Hrest]; subst.
  destruct k as [|k]; cbn [sub]; [|by apply IH].
  destruct (m_spaced prev (c :: rest)) as [[repl [|k]]|] eqn:Hm.
  - constructor; [done|by apply IH].
  - apply Forall_app. split; [|by apply IH].
    eapply incl_Forall; [|exact Hall]. by eapply m_spaced_replacement.
  - constructor; [done|by apply IH].
Qed.

Lemma single_spaced_tail c s :
  single_spaced (c :: s) = true -> single_spaced s = true.
Proof. cbn [single_spaced]. by intros [_ H]%andb_true_iff. Qed.

Lemma single_spaced_drop n : forall s,
  single_spaced s = true -> single_spaced (drop n s) = true.
Proof.
  induction n as [|n IH]; intros [|c s] Hs; try done.
  cbn [drop]. apply IH. by eapply single_spaced_tail.
Qed.

Lemma single_spaced_cons c s :
  is_space c = false -> single_spaced s = true ->
  single_spaced (c :: s) = true.
Proof.
  intros Hc Hs. cbn [single_spaced]. rewrite Hs, Hc.
  by destruct s.
Qed.

Lemma single_spaced_letters letters s :
  Forall (fun c => is_letter c = true) letters ->
  single_spaced s = true ->
  single_spaced (letters ++ s) = true.
Proof.
  induction 1 as [|l letters Hl _ IH]; intros Hs; [done|].
  cbn [app]. apply single_spaced_cons; [by apply letter_not_space|by apply IH].
Qed.

(** The first pass keeps the single spaces single. *)
Lemma join_single_spaced_bounded len : forall s prev,
  (List.length s <= len)%nat ->
  Forall (fun c => is_space c = true -> is_blank c = true) s ->
  single_spaced s = true ->
  single_spaced (sub m_spaced prev 0 s) = true.
Proof.
  induction len as [|len IH]; intros s prev Hlen Hblank Hsingle.
  { destruct s; [done|simpl in Hlen; lia]. }
  destruct s as [|c rest]; [done|].
  destruct (m_spaced prev (c :: rest)) as [[repl k]|] eqn:Hm.
  - destruct (m_spaced_inv _ _ _ _ Hm) as (n & Hn & Hge).
    rewrite (join_at_match _ _ _ _ Hn Hge).
    destruct (spaced_shape _ _ _ Hn Hblank)
      as (Hfits & letters & l & -> & Hcount & Hall & Hlast).
    rewrite (sub_skip m_spaced (2 * n) (Some c) rest).
    apply single_spaced_letters; [exact Hall|]. apply IH.
    + rewrite length_drop. simpl in Hlen. lia.
    + inversion Hblank; subst. by apply Forall_drop.
    + apply single_spaced_drop. by eapply single_spaced_tail.
  - rewrite (join_copy _ _ _ Hm).
    assert (Htail : single_spaced (sub m_spaced (Some c) 0 rest) = true).
    { apply IH; [simpl in Hlen; lia|by inversion Hblank|].
      by eapply single_spaced_tail. }
    destruct rest as [|d rest]; [done|].
    destruct (join_head (Some c) d rest) as [t Ht]. rewrite Ht in *.
    cbn [single_spaced] in *. rewrite Htail.
    apply andb_true_iff in Hsingle as [-> _]. done.
Qed.

Lemma join_single_spaced s prev :
  Forall (fun c => is_space c = true -> is_blank c = true) s ->
  single_spaced s = true ->
  single_spaced (sub m_spaced prev 0 s) = true.
Proof. by apply (join_single_spaced_bounded (List.length s)). Qed.

End JoinPreserves.

Section Strip.
Import Chars Re Normalizer.

Lemma last_rev (l : list ascii) : last (rev l) = head l.
Proof. destruct l as [|c l]; [done|]. simpl. apply last_snoc. Qed.

Lemma span_prefix (p : ascii -> bool) s :
  Forall (fun c => p c = true) (take (span p s) s).
Proof.
  induction s as [|c rest IH]; [constructor|]. cbn [span].
  destruct (p c) eqn:Hc; [|constructor]. cbn [take]. by constructor.
Qed.

Lemma lstrip_space c s : is_space c = true -> lstrip (c :: s) = lstrip s.
Proof. intros Hc. unfold lstrip. cbn [span]. by rewrite Hc. Qed.

Lemma lstrip_other c s : is_space c = false -> lstrip (c :: s) = c :: s.
Proof. intros Hc. unfold lstrip. cbn [span]. by rewrite Hc. Qed.

(** What is left after [lstrip] does not start with whitespace. *)
Lemma lstrip_head s c t : lstrip s = c :: t -> is_space c = false.
Proof.
  induction s as [|d rest IH]; [done|].
  destruct (is_space d) eqn:Hd.
  - rewrite (lstrip_space _ _ Hd). exact IH.
  - rewrite (lstrip_other _ _ Hd). by intros [= <- _].
Qed.

Lemma lstrip_fixed s :
  (forall c t, s = c :: t -> is_space c = false) -> lstrip s = s.
Proof.
  destruct s as [|c t]; [done|]. intros Hhead.
  apply lstrip_other. by eapply Hhead.
Qed.

(** [rstrip] cuts a tail of whitespace, and what is left does not end in
    whitespace. *)
Lemma rstrip_split s :
  exists tail,
    s = (rstrip s ++ tail)%list
    /\ Forall (fun c => is_space c = true) tail
    /\ (forall c, last (rstrip s) = Some c -> is_space c = false).
Proof.
  unfold rstrip. exists (rev (take (span is_space (rev s)) (rev s))).
  split; [|split].
  - rewrite <- rev_app_distr. unfold lstrip. by rewrite take_drop, rev_involutive.
  - apply Forall_rev, span_prefix.
  - intros c Hlast. rewrite last_rev in Hlast.
    destruct (lstrip (rev s)) as [|d t] eqn:Hstrip; [done|].
    simpl in Hlast. injection Hlast as <-. by eapply lstrip_head.
Qed.

Lemma rstrip_fixed s :
  (forall c, last s = Some c -> is_space c = false) -> rstrip s = s.
Proof.
  intros Hlast. unfold rstrip. rewrite lstrip_fixed; [apply rev_involutive|].
  intros c t Hrev. apply Hlast. rewrite <- (rev_involutive s), Hrev.
  by rewrite last_rev.
Qed.

Lemma strip_idempotent s : strip (strip s) = strip s.
Proof.
  unfold strip.
  destruct (rstrip_split (lstrip s)) as (tail & Hsplit & _ & Hend).
  set (v := rstrip (lstrip s)) in *.
  assert (Hv : lstrip v = v).
  { apply lstrip_fixed. intros c t Hc.
    apply (lstrip_head s c (t ++ tail)%list). by rewrite Hsplit, Hc. }
  rewrite Hv. by apply rstrip_fixed.
Qed.

Lemma strip_forall (P : ascii -> Prop) s : Forall P s -> Forall P (strip s).
Proof.
  intros Hall. unfold strip, rstrip, lstrip.
  by apply Forall_rev, Forall_drop, Forall_rev, Forall_drop.
Qed.

Lemma single_spaced_prefix s : forall t,
  single_spaced (s ++ t) = true -> single_spaced s = true.
Proof.
  induction s as [|c rest IH]; intros t Hs; [done|].
  cbn [app single_spaced] in *. apply andb_true_iff in Hs as [Hpair Hrest].
  rewrite (IH _ Hrest), andb_true_r.
  destruct rest as [|d rest]; [done|exact Hpair].
Qed.

Lemma strip_single_spaced s :
  single_spaced s = true -> single_spaced (strip s) = true.
Proof.
  intros Hs. unfold strip.
  destruct (rstrip_split (lstrip s)) as (tail & Hsplit & _ & _).
  apply (single_spaced_prefix _ tail). rewrite <- Hsplit.
  by apply single_spaced_drop.
Qed.

End Strip.

Section JoinAndStrip.
Import Chars Re Normalizer.

Lemma join_prev prev prev' s :
  word_opt prev = word_opt prev' ->
  sub m_spaced prev 0 s = sub m_spaced prev' 0 s.
Proof.
  intros Hsame. destruct s as [|c rest]; [done|]. cbn [sub].
  unfold m_spaced. by rewrite (spaced_prev prev prev' _ Hsame).
Qed.

(** A text that the first pass leaves alone is still left alone without
    its leading whitespace. *)
Lemma join_fixed_lstrip s : forall prev,
  word_opt prev = false ->
  sub m_spaced prev 0 s = s ->
  sub m_spaced prev 0 (lstrip s) = lstrip s.
Proof.
  induction s as [|c rest IH]; intros prev Hprev Hfixed; [done|].
  destruct (is_space c) eqn:Hc.
  - rewrite (lstrip_space _ _ Hc).
    rewrite join_copy_other in Hfixed.
    2:{ destruct (is_letter c) eqn:Hl; [|done].
        by rewrite (letter_not_space c Hl) in Hc. }
    injection Hfixed as Hfixed.
    rewrite (join_prev prev (Some c)).
    + apply IH; [|exact Hfixed]. simpl. by apply space_not_word.
    + rewrite Hprev. simpl. symmetry. by apply space_not_word.
  - by rewrite (lstrip_other _ _ Hc).
Qed.

Lemma spaced_fits n : forall prev s,
  spaced_letters prev s = Some n -> (2 * n + 1 <= List.length s)%nat.
Proof.
  induction n as [|n IH]; intros prev s Hn.
  - destruct (spaced_head _ _ _ Hn) as (c & rest & -> & _). simpl. lia.
  - destruct (spaced_succ _ _ _ Hn) as (c & w & rest & -> & _ & _ & _ & Hrest).
    apply IH in Hrest. simpl. lia.
Qed.

(** A whitespace character added at the end changes no match. *)
Lemma spaced_snoc_bounded w len : forall s prev,
  is_space w = true ->
  (List.length s <= len)%nat ->
  s <> [] ->
  spaced_letters prev (s ++ [w])%list = spaced_letters prev s.
Proof.
  induction len as [|len IH]; intros s prev Hw Hlen Hne.
  { destruct s; [done|simpl in Hlen; lia]. }
  destruct s as [|c [|d rest]]; [done| |].
  - cbn [app spaced_letters]. rewrite Hw.
    destruct (boundary prev (Some c) && is_letter c); [|done].
    cbn [spaced_letters]. done.
  - cbn [app spaced_letters].
    destruct (boundary prev (Some c) && is_letter c); [|done].
    destruct (is_space d); [|done].
    destruct rest as [|e rest].
    + cbn [app spaced_letters]. unfold boundary. simpl.
      rewrite (space_not_word w Hw).
      destruct (is_word d) eqn:Hd; simpl; [|done].
      destruct (is_letter w) eqn:Hl; [|done].
      by rewrite (letter_not_space w Hl) in Hw.
    + change (e :: rest ++ [w])%list with ((e :: rest) ++ [w])%list.
      rewrite IH; [done|done|simpl in *; lia|done].
Qed.

Lemma spaced_snoc w (s : list ascii) prev :
  is_space w = true -> s <> [] ->
  spaced_letters prev (s ++ [w])%list = spaced_letters prev s.
Proof. intros. by apply (spaced_snoc_bounded w (List.length s)). Qed.

Lemma m_spaced_snoc w (s : list ascii) prev :
  is_space w = true -> s <> [] ->
  m_spaced prev (s ++ [w])%list = m_spaced prev s.
Proof.
  intros Hw Hne. unfold m_spaced. rewrite (spaced_snoc _ _ _ Hw Hne).
  destruct (spaced_letters prev s) as [n|] eqn:Hn; [|done].
  destruct (2 <=? n)%nat; [|done].
  by rewrite take_app_le by (by eapply spaced_fits).
Qed.

Lemma m_spaced_fits prev s repl k :
  m_spaced prev s = Some (repl, k) -> (k <= List.length s)%nat.
Proof.
  unfold m_spaced. destruct (spaced_letters prev s) as [n|] eqn:Hn; [|done].
  destruct (2 <=? n)%nat; [|done]. intros [= _ <-]. by eapply spaced_fits.
Qed.

Lemma join_snoc w (s : list ascii) : forall prev k,
  is_space w = true ->
  (k <= List.length s)%nat ->
  sub m_spaced prev k (s ++ [w])%list = (sub m_spaced prev k s ++ [w])%list.
Proof.
  induction s as [|c rest IH]; intros prev k Hw Hk.
  - assert (k = 0)%nat as -> by (simpl in Hk; lia).
    cbn [app]. rewrite join_copy_other; [done|].
    destruct (is_letter w) eqn:Hl; [|done].
    by rewrite (letter_not_space w Hl) in Hw.
  - destruct k as [|k]; cbn [app sub].
    + change (c :: (rest ++ [w])%list) with ((c :: rest) ++ [w])%list.
      rewrite (m_spaced_snoc _ _ _ Hw) by done.
      destruct (m_spaced prev (c :: rest)) as [[repl [|k]]|] eqn:Hm.
      * cbn [app]. f_equal. apply IH; [done|lia].
      * rewrite <- app_assoc. f_equal. apply IH; [done|].
        apply m_spaced_fits in Hm. simpl in Hm. lia.
      * cbn [app]. f_equal. apply IH; [done|lia].
    + apply IH; [done|simpl in Hk; lia].
Qed.

Lemma join_app_spaces tail : forall (s : list ascii) prev,
  Forall (fun c => is_space c = true) tail ->
  sub m_spaced prev 0 (s ++ tail)%list = (sub m_spaced prev 0 s ++ tail)%list.
Proof.
  induction tail as [|w tail IH]; intros s prev Hall.
  - by rewrite !app_nil_r.
  - inversion Hall as [|? ? Hw Htail]; subst.
    change (w :: tail) with ([w] ++ tail)%list. rewrite !app_assoc.
    rewrite IH by done. f_equal. apply join_snoc; [done|lia].
Qed.

(** A text that the first pass leaves alone is still left alone without
    its trailing whitespace. *)
Lemma join_fixed_rstrip s prev :
  sub m_spaced prev 0 s = s ->
  sub m_spaced prev 0 (rstrip s) = rstrip s.
Proof.
  intros Hfixed. destruct (rstrip_split s) as (tail & Hsplit & Htail & _).
  assert (Hboth : sub m_spaced prev 0 (rstrip s ++ tail)%list
                  = (rstrip s ++ tail)%list) by (by rewrite <- Hsplit).
  rewrite join_app_spaces in Hboth by done. by apply app_inv_tail in Hboth.
Qed.

Lemma join_fixed_strip s :
  sub m_spaced None 0 s = s ->
  sub m_spaced None 0 (strip s) = strip s.
Proof.
  intros Hfixed. unfold strip. apply join_fixed_rstrip.
  by apply join_fixed_lstrip.
Qed.

End JoinAndStrip.

(** The claim C2 as stated fails: with two spaces between the letters the
    first pass finds no match, the whitespace pass then makes the spaces
    single, and the second application joins the letters. *)
Lemma clean_is_not_idempotent :
  Normalizer._clean "a  b  c" = "a b c"
  /\ Normalizer._clean "a b c" = "abc"
  /\ Normalizer._clean (Normalizer._clean "a  b  c")
     <> Normalizer._clean "a  b  c".
Proof.
  split; [|split]; [vm_compute; reflexivity..|].
  vm_compute. discriminate.
Qed.

(** * The parenthesis and punctuation passes *)

Section MoreCharacterClasses.
Import Chars.

Ltac by_cases c :=
  destruct c as [[] [] [] [] [] [] [] []]; vm_compute; try reflexivity;
  try discriminate; intros; try discriminate; try reflexivity.

Lemma punct_not_space c : is_punct c = true -> is_space c = false.
Proof. by_cases c. Qed.

Lemma punct_not_letter c : is_punct c = true -> is_letter c = false.
Proof. by_cases c. Qed.

Lemma punct_not_word c : is_punct c = true -> is_word c = false.
Proof. by_cases c. Qed.

Lemma punct_not_rparen c : is_punct c = true -> is_rparen c = false.
Proof. by_cases c. Qed.

Lemma punct_not_lparen c : is_punct c = true -> is_lparen c = false.
Proof. by_cases c. Qed.

Lemma rparen_not_space c : is_rparen c = true -> is_space c = false.
Proof. by_cases c. Qed.

Lemma rparen_not_letter c : is_rparen c = true -> is_letter c = false.
Proof. by_cases c. Qed.

Lemma rparen_not_word c : is_rparen c = true -> is_word c = false.
Proof. by_cases c. Qed.

Lemma rparen_not_lparen c : is_rparen c = true -> is_lparen c = false.
Proof. by_cases c. Qed.

Lemma lparen_not_space c : is_lparen c = true -> is_space c = false.
Proof. by_cases c. Qed.

Lemma lparen_not_letter c : is_lparen c = true -> is_letter c = false.
Proof. by_cases c. Qed.

Lemma lparen_not_word c : is_lparen c = true -> is_word c = false.
Proof. by_cases c. Qed.

Lemma space_is_blank : is_blank space = true.
Proof. reflexivity. Qed.

Lemma space_is_space : is_space space = true.
Proof. reflexivity. Qed.

End MoreCharacterClasses.

Section Scanning.
Import Chars Re Normalizer.
Variable m : matcher.
Hypothesis m_ignores_prev : forall prev prev' s, m prev s = m prev' s.

(** For a pattern without [\b] the previous character does not matter. *)
Lemma sub_any_prev s : forall prev prev' k,
  sub m prev k s = sub m prev' k s.
Proof.
  induction s as [|c rest IH]; intros prev prev' k; [done|].
  destruct k as [|k]; cbn [sub]; [|apply IH].
  by rewrite (m_ignores_prev prev prev').
Qed.

Lemma re_sub_copy c rest :
  m None (c :: rest) = None ->
  re_sub m (c :: rest) = c :: re_sub m rest.
Proof.
  intros Hnone. unfold re_sub. cbn [sub]. rewrite Hnone. f_equal.
  apply sub_any_prev.
Qed.

Lemma re_sub_match c rest repl k :
  m None (c :: rest) = Some (repl, S k) ->
  re_sub m (c :: rest) = (repl ++ re_sub m (drop k rest))%list.
Proof.
  intros Hsome. unfold re_sub. cbn [sub]. rewrite Hsome. f_equal.
  rewrite sub_skip. apply sub_any_prev.
Qed.

End Scanning.

Section PassEquations.
Import Chars Re Normalizer.

Lemma lstrip_drop s c r :
  lstrip s = c :: r -> drop (S (span is_space s)) s = r.
Proof.
  unfold lstrip. intros Hs.
  replace (S (span is_space s)) with (span is_space s + 1)%nat by lia.
  by rewrite <- drop_drop, Hs.
Qed.

(** The parenthesis pass for [\(\s+]: after an opening parenthesis the
    whitespace is dropped; every other character is copied. *)
Lemma tidy_lparen_at c r :
  is_lparen c = true -> tidy_lparen (c :: r) = c :: tidy_lparen (lstrip r).
Proof.
  intros Hc. unfold tidy_lparen, lstrip.
  destruct (span is_space r) as [|a] eqn:Ha.
  - rewrite drop_0. apply re_sub_copy; [done|].
    unfold m_lparen. by rewrite Ha, Hc.
  - rewrite (re_sub_match m_lparen (fun _ _ _ => eq_refl) c r [c] (S a)); [done|].
    unfold m_lparen. by rewrite Ha, Hc.
Qed.

Lemma tidy_lparen_copy c r :
  is_lparen c = false -> tidy_lparen (c :: r) = c :: tidy_lparen r.
Proof.
  intros Hc. apply re_sub_copy; [done|]. unfold m_lparen. by rewrite Hc.
Qed.

(** The parenthesis pass for [\s+\)]: whitespace before a closing
    parenthesis is dropped. *)
Lemma tidy_rparen_at s c r :
  lstrip s = c :: r -> is_rparen c = true ->
  tidy_rparen s = c :: tidy_rparen r.
Proof.
  intros Hs Hc. pose proof (lstrip_drop _ _ _ Hs) as Hdrop.
  unfold lstrip in Hs. destruct s as [|d rest]; [done|].
  unfold tidy_rparen. destruct (span is_space (d :: rest)) as [|a] eqn:Ha.
  - rewrite drop_0 in Hs. injection Hs as -> ->.
    apply re_sub_copy; [done|]. unfold m_rparen. rewrite Ha. by simpl.
  - rewrite (re_sub_match m_rparen (fun _ _ _ => eq_refl) d rest [c] (S a)).
    2:{ unfold m_rparen. rewrite Ha, Hs, Hc. by simpl. }
    cbn [drop] in Hdrop. by rewrite Hdrop.
Qed.

Lemma tidy_rparen_copy c r :
  (forall d t, lstrip (c :: r) = d :: t -> is_rparen d = false) ->
  tidy_rparen (c :: r) = c :: tidy_rparen r.
Proof.
  intros Hnot. apply re_sub_copy; [done|]. unfold m_rparen.
  fold (lstrip (c :: r)). destruct (lstrip (c :: r)) as [|d t] eqn:Hs; [done|].
  by rewrite (Hnot d t eq_refl), andb_false_r.
Qed.

(** The punctuation pass: whitespace around a punctuation character is
    dropped, and the character is followed by one space. *)
Lemma tidy_punct_at s c r :
  lstrip s = c :: r -> is_punct c = true ->
  tidy_punct s = c :: space :: tidy_punct (lstrip r).
Proof.
  intros Hs Hc. pose proof (lstrip_drop _ _ _ Hs) as Hdrop.
  unfold lstrip in Hs. destruct s as [|d rest]; [done|].
  unfold tidy_punct.
  rewrite (re_sub_match m_punct (fun _ _ _ => eq_refl) d rest [c; space]
             (span is_space (d :: rest) + span is_space r)%nat).
  - cbn [app]. do 3 f_equal. unfold lstrip. cbn [drop] in Hdrop.
    by rewrite <- drop_drop, Hdrop.
  - unfold m_punct. rewrite Hs, Hc. do 2 f_equal. lia.
Qed.

Lemma tidy_punct_copy c r :
  (forall d t, lstrip (c :: r) = d :: t -> is_punct d = false) ->
  tidy_punct (c :: r) = c :: tidy_punct r.
Proof.
  intros Hnot. apply re_sub_copy; [done|]. unfold m_punct.
  fold (lstrip (c :: r)). destruct (lstrip (c :: r)) as [|d t] eqn:Hs; [done|].
  by rewrite (Hnot d t eq_refl).
Qed.

End PassEquations.

Section ShorterFirst.
Import Chars Re Normalizer.

(** Induction on the length of a text: the passes recurse on what is
    left after some whitespace was dropped. *)
Lemma shorter_first (P : list ascii -> Prop) :
  (forall s, (forall t, (List.length t < List.length s)%nat -> P t) -> P s) ->
  forall s, P s.
Proof.
  intros Hstep s.
  assert (Hall : forall n t, (List.length t < n)%nat -> P t).
  { induction n as [|n IH]; intros t Ht; [lia|].
    apply Hstep. intros u Hu. apply IH. lia. }
  apply (Hall (S (List.length s))). lia.
Qed.

Lemma lstrip_length s : (List.length (lstrip s) <= List.length s)%nat.
Proof. unfold lstrip. rewrite length_drop. lia. Qed.

Lemma lstrip_suffix s c r :
  lstrip s = c :: r -> (List.length r < List.length s)%nat.
Proof.
  intros Hs. pose proof (lstrip_length s) as Hlen. rewrite Hs in Hlen.
  simpl in Hlen. lia.
Qed.

Lemma lstrip_lstrip s : lstrip (lstrip s) = lstrip s.
Proof.
  apply lstrip_fixed. intros c t Hs. by eapply lstrip_head.
Qed.

Lemma lstrip_forall (P : ascii -> Prop) s : Forall P s -> Forall P (lstrip s).
Proof. apply Forall_drop. Qed.

Lemma lstrip_single_spaced s :
  single_spaced s = true -> single_spaced (lstrip s) = true.
Proof. apply single_spaced_drop. Qed.

(** In a single-spaced text, after a whitespace character comes another
    kind of character. *)
Lemma single_spaced_next w c r :
  single_spaced (w :: c :: r) = true -> is_space w = true ->
  is_space c = false.
Proof.
  cbn [single_spaced]. intros [Hpair _]%andb_true_iff Hw.
  rewrite Hw in Hpair. simpl in Hpair. by destruct (is_space c).
Qed.

Lemma single_spaced_lstrip_tail w r :
  single_spaced (w :: r) = true -> is_space w = true -> lstrip r = r.
Proof.
  intros Hs Hw. apply lstrip_fixed. intros c t ->.
  by eapply single_spaced_next.
Qed.

End ShorterFirst.

Section Heads.
Import Chars Re Normalizer.

(** The first character of what a pass writes. *)
Lemma tidy_lparen_head c r : exists t, tidy_lparen (c :: r) = c :: t.
Proof.
  destruct (is_lparen c) eqn:Hc.
  - rewrite (tidy_lparen_at _ _ Hc). eauto.
  - rewrite (tidy_lparen_copy _ _ Hc). eauto.
Qed.

Lemma tidy_rparen_head c r :
  is_space c = false -> exists t, tidy_rparen (c :: r) = c :: t.
Proof.
  intros Hc. destruct (is_rparen c) eqn:Hr.
  - rewrite (tidy_rparen_at (c :: r) c r); eauto using lstrip_other.
  - rewrite tidy_rparen_copy; [eauto|].
    rewrite (lstrip_other _ _ Hc). by intros d t [= <- <-].
Qed.

Lemma tidy_punct_head c r :
  is_space c = false -> exists t, tidy_punct (c :: r) = c :: t.
Proof.
  intros Hc. destruct (is_punct c) eqn:Hp.
  - rewrite (tidy_punct_at (c :: r) c r); eauto using lstrip_other.
  - rewrite tidy_punct_copy; [eauto|].
    rewrite (lstrip_other _ _ Hc). by intros d t [= <- <-].
Qed.

End Heads.

Section PassCases.
Import Chars Re Normalizer.

Lemma tidy_rparen_cases s :
  s = []
  \/ (exists c r,
        lstrip s = c :: r /\ is_rparen c = true
        /\ tidy_rparen s = c :: tidy_rparen r)
  \/ (exists c rest,
        s = c :: rest
        /\ (forall d t, lstrip s = d :: t -> is_rparen d = false)
        /\ tidy_rparen s = c :: tidy_rparen rest).
Proof.
  destruct s as [|c rest]; [by left|]. right.
  destruct (lstrip (c :: rest)) as [|d t] eqn:Hs.
  - right. exists c, rest. split; [done|]. split; [done|].
    apply tidy_rparen_copy. by rewrite Hs.
  - destruct (is_rparen d) eqn:Hd.
    + left. exists d, t. eauto using tidy_rparen_at.
    + right. exists c, rest. split; [done|]. split.
      * by intros d' t' [= <- <-].
      * apply tidy_rparen_copy. rewrite Hs. by intros d' t' [= <- <-].
Qed.

Lemma tidy_punct_cases s :
  s = []
  \/ (exists c r,
        lstrip s = c :: r /\ is_punct c = true
        /\ tidy_punct s = c :: space :: tidy_punct (lstrip r))
  \/ (exists c rest,
        s = c :: rest
        /\ (forall d t, lstrip s = d :: t -> is_punct d = false)
        /\ tidy_punct s = c :: tidy_punct rest).
Proof.
  destruct s as [|c rest]; [by left|]. right.
  destruct (lstrip (c :: rest)) as [|d t] eqn:Hs.
  - right. exists c, rest. split; [done|]. split; [done|].
    apply tidy_punct_copy. by rewrite Hs.
  - destruct (is_punct d) eqn:Hd.
    + left. exists d, t. eauto using tidy_punct_at.
    + right. exists c, rest. split; [done|]. split.
      * by intros d' t' [= <- <-].
      * apply tidy_punct_copy. rewrite Hs. by intros d' t' [= <- <-].
Qed.

Lemma lstrip_in (P : ascii -> Prop) s c r :
  Forall P s -> lstrip s = c :: r -> P c /\ Forall P r.
Proof.
  intros Hall Hs. pose proof (lstrip_forall P s Hall) as Hl.
  rewrite Hs in Hl. by inversion Hl.
Qed.

(** The passes write characters of the text, and the punctuation pass
    also the space character. *)
Lemma tidy_lparen_forall (P : ascii -> Prop) :
  forall s, Forall P s -> Forall P (tidy_lparen s).
Proof.
  induction s as [s IH] using shorter_first. intros Hall.
  destruct s as [|c r]; [done|]. inversion Hall as [|? ? Hc Hr]; subst.
  destruct (is_lparen c) eqn:Hl.
  - rewrite (tidy_lparen_at _ _ Hl). constructor; [done|]. apply IH.
    + pose proof (lstrip_length r). simpl. lia.
    + by apply lstrip_forall.
  - rewrite (tidy_lparen_copy _ _ Hl). constructor; [done|].
    apply IH; [simpl; lia|done].
Qed.

Lemma tidy_rparen_forall (P : ascii -> Prop) :
  forall s, Forall P s -> Forall P (tidy_rparen s).
Proof.
  induction s as [s IH] using shorter_first. intros Hall.
  destruct (tidy_rparen_cases s)
    as [->|[(c & r & Hs & Hc & ->)|(c & rest & -> & _ & ->)]]; [done| |].
  - destruct (lstrip_in P _ _ _ Hall Hs) as [Hpc Hr].
    constructor; [done|]. apply IH; [by eapply lstrip_suffix|done].
  - inversion Hall; subst. constructor; [done|]. apply IH; [simpl; lia|done].
Qed.

Lemma tidy_punct_forall (P : ascii -> Prop) :
  P space -> forall s, Forall P s -> Forall P (tidy_punct s).
Proof.
  intros Hspace. induction s as [s IH] using shorter_first. intros Hall.
  destruct (tidy_punct_cases s)
    as [->|[(c & r & Hs & Hc & ->)|(c & rest & -> & _ & ->)]]; [done| |].
  - destruct (lstrip_in P _ _ _ Hall Hs) as [Hpc Hr].
    constructor; [done|]. constructor; [done|]. apply IH.
    + pose proof (lstrip_suffix _ _ _ Hs). pose proof (lstrip_length r). lia.
    + by apply lstrip_forall.
  - inversion Hall; subst. constructor; [done|]. apply IH; [simpl; lia|done].
Qed.

End PassCases.

Section SingleSpaces.
Import Chars Re Normalizer.

Lemma single_spaced_cons_head c s :
  single_spaced s = true ->
  (forall d t, s = d :: t -> is_space c = true -> is_space d = false) ->
  single_spaced (c :: s) = true.
Proof.
  intros Hs Hhead. cbn [single_spaced]. rewrite Hs, andb_true_r.
  destruct s as [|d t]; [done|].
  destruct (is_space c) eqn:Hc; [|done].
  by rewrite (Hhead d t eq_refl eq_refl).
Qed.

Lemma single_spaced_pair c d t :
  single_spaced (c :: d :: t) = true -> is_space c = true ->
  is_space d = false.
Proof. apply single_spaced_next. Qed.

Lemma tidy_lparen_single_spaced :
  forall s, single_spaced s = true -> single_spaced (tidy_lparen s) = true.
Proof.
  induction s as [s IH] using shorter_first. intros Hs.
  destruct s as [|c r]; [done|].
  pose proof (single_spaced_tail _ _ Hs) as Hr.
  destruct (is_lparen c) eqn:Hl.
  - rewrite (tidy_lparen_at _ _ Hl).
    apply single_spaced_cons; [by apply lparen_not_space|]. apply IH.
    + pose proof (lstrip_length r). simpl. lia.
    + by apply lstrip_single_spaced.
  - rewrite (tidy_lparen_copy _ _ Hl).
    apply single_spaced_cons_head; [apply IH; [simpl; lia|done]|].
    intros d t Hd Hc. destruct r as [|d' r']; [done|].
    destruct (tidy_lparen_head d' r') as [t' Ht']. rewrite Ht' in Hd.
    injection Hd as <- _. by eapply single_spaced_pair.
Qed.

Lemma tidy_rparen_single_spaced :
  forall s, single_spaced s = true -> single_spaced (tidy_rparen s) = true.
Proof.
  induction s as [s IH] using shorter_first. intros Hs.
  destruct (tidy_rparen_cases s)
    as [->|[(c & r & Hl & Hc & ->)|(c & rest & -> & _ & ->)]]; [done| |].
  - apply single_spaced_cons; [by apply rparen_not_space|]. apply IH.
    + by eapply lstrip_suffix.
    + pose proof (lstrip_single_spaced _ Hs) as Hr. rewrite Hl in Hr.
      by eapply single_spaced_tail.
  - pose proof (single_spaced_tail _ _ Hs) as Hr.
    apply single_spaced_cons_head; [apply IH; [simpl; lia|done]|].
    intros d t Hd Hc. destruct rest as [|d' r']; [done|].
    pose proof (single_spaced_pair _ _ _ Hs Hc) as Hd'.
    destruct (tidy_rparen_head d' r' Hd') as [t' Ht']. rewrite Ht' in Hd.
    by injection Hd as <- _.
Qed.

Lemma tidy_punct_single_spaced :
  forall s, single_spaced s = true -> single_spaced (tidy_punct s) = true.
Proof.
  induction s as [s IH] using shorter_first. intros Hs.
  destruct (tidy_punct_cases s)
    as [->|[(c & r & Hl & Hc & ->)|(c & rest & -> & _ & ->)]]; [done| |].
  - apply single_spaced_cons; [by apply punct_not_space|].
    assert (Hr : single_spaced r = true).
    { pose proof (lstrip_single_spaced _ Hs) as Hr. rewrite Hl in Hr.
      by eapply single_spaced_tail. }
    apply single_spaced_cons_head.
    + apply IH; [|by apply lstrip_single_spaced].
      pose proof (lstrip_suffix _ _ _ Hl). pose proof (lstrip_length r). lia.
    + intros d t Hd _. destruct (lstrip r) as [|d' r'] eqn:Hlr; [done|].
      pose proof (lstrip_head _ _ _ Hlr) as Hd'.
      destruct (tidy_punct_head d' r' Hd') as [t' Ht']. rewrite Ht' in Hd.
      by injection Hd as <- _.
  - pose proof (single_spaced_tail _ _ Hs) as Hr.
    apply single_spaced_cons_head; [apply IH; [simpl; lia|done]|].
    intros d t Hd Hc. destruct rest as [|d' r']; [done|].
    pose proof (single_spaced_pair _ _ _ Hs Hc) as Hd'.
    destruct (tidy_punct_head d' r' Hd') as [t' Ht']. rewrite Ht' in Hd.
    by injection Hd as <- _.
Qed.

End SingleSpaces.

Section ThroughAPass.
Import Chars Re Normalizer.

(** A pass that copies every letter, and that rewrites a position only
    into a character that is neither a letter nor whitespace, with no
    letter right after a rewritten whitespace. *)
Variable pass : list ascii -> list ascii.
Hypothesis pass_nil : pass [] = [].
Hypothesis pass_step : forall c rest,
  pass (c :: rest) = c :: pass rest
  \/ (is_letter c = false
      /\ (is_space c = true -> forall d t, rest = d :: t -> is_letter d = false)
      /\ exists d t,
          pass (c :: rest) = d :: t
          /\ is_letter d = false /\ is_space d = false).

(** Such a pass does not change what the first pattern finds at the
    head of the text. *)
Lemma spaced_through : forall s prev,
  spaced_letters prev (pass s) = spaced_letters prev s.
Proof.
  induction s as [s IH] using shorter_first. intros prev.
  destruct s as [|c rest]; [by rewrite pass_nil|].
  destruct (pass_step c rest) as [->|(Hc & _ & d & t & -> & Hd & _)].
  - cbn [spaced_letters].
    destruct (boundary prev (Some c) && is_letter c); [|done].
    destruct rest as [|w rest']; [by rewrite pass_nil|].
    destruct (pass_step w rest') as [->|(Hw & Hnext & d & t & -> & Hd & Hds)].
    + destruct (is_space w); [|done]. rewrite IH; [done|simpl; lia].
    + rewrite Hds. destruct (is_space w) eqn:Hsp; [|done].
      destruct rest' as [|e rest'']; [done|].
      cbn [spaced_letters]. by rewrite (Hnext eq_refl e rest'' eq_refl), andb_false_r.
  - cbn [spaced_letters]. by rewrite Hc, Hd, !andb_false_r.
Qed.

Lemma m_spaced_through s prev :
  m_spaced prev s = None -> m_spaced prev (pass s) = None.
Proof.
  intros Hnone. apply m_spaced_small. intros n. rewrite spaced_through.
  intros Hn. unfold m_spaced in Hnone. rewrite Hn in Hnone.
  destruct (Nat.leb_spec 2 n); [done|lia].
Qed.

End ThroughAPass.

Section PassesCopyLetters.
Import Chars Re Normalizer.

Lemma tidy_lparen_step c rest :
  tidy_lparen (c :: rest) = c :: tidy_lparen rest
  \/ (is_letter c = false
      /\ (is_space c = true -> forall d t, rest = d :: t -> is_letter d = false)
      /\ exists d t,
          tidy_lparen (c :: rest) = d :: t
          /\ is_letter d = false /\ is_space d = false).
Proof.
  destruct (is_lparen c) eqn:Hc.
  - right. split; [by apply lparen_not_letter|]. split.
    + intros Hs. by rewrite (lparen_not_space c Hc) in Hs.
    + exists c, (tidy_lparen (lstrip rest)).
      split; [by apply tidy_lparen_at|].
      split; [by apply lparen_not_letter|by apply lparen_not_space].
  - left. by apply tidy_lparen_copy.
Qed.

Lemma rewritten_head (p : ascii -> bool) c rest d r :
  (forall x, p x = true -> is_letter x = false) ->
  lstrip (c :: rest) = d :: r -> p d = true ->
  is_letter c = false
  /\ (is_space c = true -> forall e t, rest = e :: t -> is_letter e = false).
Proof.
  intros Hp Hs Hd. destruct (is_space c) eqn:Hc.
  - split.
    + destruct (is_letter c) eqn:Hl; [|done].
      by rewrite (letter_not_space c Hl) in Hc.
    + intros _ e t ->. rewrite (lstrip_space _ _ Hc) in Hs.
      destruct (is_space e) eqn:He.
      * destruct (is_letter e) eqn:Hl; [|done].
        by rewrite (letter_not_space e Hl) in He.
      * rewrite (lstrip_other _ _ He) in Hs. injection Hs as -> _. by apply Hp.
  - rewrite (lstrip_other _ _ Hc) in Hs. injection Hs as -> _.
    split; [by apply Hp|done].
Qed.

Lemma tidy_rparen_step c rest :
  tidy_rparen (c :: rest) = c :: tidy_rparen rest
  \/ (is_letter c = false
      /\ (is_space c = true -> forall d t, rest = d :: t -> is_letter d = false)
      /\ exists d t,
          tidy_rparen (c :: rest) = d :: t
          /\ is_letter d = false /\ is_space d = false).
Proof.
  destruct (tidy_rparen_cases (c :: rest))
    as [?|[(d & r & Hs & Hd & Heq)|(c' & rest' & [= <- <-] & _ & Heq)]];
    [done| |by left].
  right.
  destruct (rewritten_head is_rparen c rest d r rparen_not_letter Hs Hd)
    as [Hc Hnext].
  split; [done|]. split; [done|].
  exists d, (tidy_rparen r).
  split; [done|]. split; [by apply rparen_not_letter|by apply rparen_not_space].
Qed.

Lemma tidy_punct_step c rest :
  tidy_punct (c :: rest) = c :: tidy_punct rest
  \/ (is_letter c = false
      /\ (is_space c = true -> forall d t, rest = d :: t -> is_letter d = false)
      /\ exists d t,
          tidy_punct (c :: rest) = d :: t
          /\ is_letter d = false /\ is_space d = false).
Proof.
  destruct (tidy_punct_cases (c :: rest))
    as [?|[(d & r & Hs & Hd & Heq)|(c' & rest' & [= <- <-] & _ & Heq)]];
    [done| |by left].
  right.
  destruct (rewritten_head is_punct c rest d r punct_not_letter Hs Hd)
    as [Hc Hnext].
  split; [done|]. split; [done|].
  exists d, (space :: tidy_punct (lstrip r)).
  split; [done|]. split; [by apply punct_not_letter|by apply punct_not_space].
Qed.

End PassesCopyLetters.

Section JoinFixed.
Import Chars Re Normalizer.

(** The first pass never writes more than it reads. *)
Lemma join_length s : forall prev k,
  (List.length (sub m_spaced prev k s) <= List.length s - k)%nat.
Proof.
  induction s as [|c rest IH]; intros prev k; [simpl; lia|].
  destruct k as [|k]; cbn [sub]; [|apply IH].
  destruct (m_spaced prev (c :: rest)) as [[repl [|k]]|] eqn:Hm.
  - specialize (IH (Some c) 0%nat). simpl in *. lia.
  - pose proof (m_spaced_fits _ _ _ _ Hm) as Hfits.
    assert (Hrepl : (List.length repl <= S k)%nat).
    { unfold m_spaced in Hm.
      destruct (spaced_letters prev (c :: rest)) as [n|]; [|done].
      destruct (2 <=? n)%nat; [|done]. injection Hm as <- Hk.
      etransitivity; [apply filter_length_le|].
      rewrite length_take. lia. }
    specialize (IH (Some c) k). rewrite length_app. simpl in *. lia.
  - specialize (IH (Some c) 0%nat). simpl in *. lia.
Qed.

(** A text that the first pass leaves alone has no match at its head,
    and the pass leaves its tail alone. *)
Lemma join_fixed_head prev c rest :
  Forall (fun c => is_space c = true -> is_blank c = true) (c :: rest) ->
  sub m_spaced prev 0 (c :: rest) = c :: rest ->
  m_spaced prev (c :: rest) = None
  /\ sub m_spaced (Some c) 0 rest = rest.
Proof.
  intros Hblank Hfixed.
  destruct (m_spaced prev (c :: rest)) as [[repl k]|] eqn:Hm.
  - exfalso. destruct (m_spaced_inv _ _ _ _ Hm) as (n & Hn & Hge).
    rewrite (join_at_match _ _ _ _ Hn Hge) in Hfixed.
    destruct (spaced_shape _ _ _ Hn Hblank)
      as (Hfits & letters & l & Hrepl & Hcount & _ & _).
    apply (f_equal List.length) in Hfixed.
    rewrite Hrepl, !length_app in Hfixed.
    pose proof (join_length rest (Some c) (2 * n)) as Hlen.
    simpl in *. lia.
  - split; [done|]. rewrite (join_copy _ _ _ Hm) in Hfixed.
    by injection Hfixed.
Qed.

Lemma join_fixed_tail prev c rest :
  Forall (fun c => is_space c = true -> is_blank c = true) (c :: rest) ->
  sub m_spaced prev 0 (c :: rest) = c :: rest ->
  sub m_spaced (Some c) 0 rest = rest.
Proof. intros Hb Hf. by destruct (join_fixed_head _ _ _ Hb Hf). Qed.

(** From a fixed text to the part that a pass resumes on: the text
    after the leading whitespace, a character that is not a word
    character, and the whitespace after it. *)
Lemma join_fixed_resume prev s c r :
  Forall (fun c => is_space c = true -> is_blank c = true) s ->
  sub m_spaced prev 0 s = s ->
  lstrip s = c :: r -> is_word c = false ->
  sub m_spaced (Some space) 0 (lstrip r) = lstrip r.
Proof.
  intros Hblank Hfixed Hs Hc.
  assert (Hcr : exists q, sub m_spaced q 0 (c :: r) = c :: r).
  { destruct s as [|d rest]; [done|].
    destruct (is_space d) eqn:Hd.
    - exists (Some d). rewrite (lstrip_space _ _ Hd) in Hs. rewrite <- Hs.
      apply join_fixed_lstrip; [by apply space_not_word|].
      by eapply join_fixed_tail.
    - exists prev. rewrite (lstrip_other _ _ Hd) in Hs. by rewrite <- Hs. }
  destruct Hcr as [q Hq].
  assert (Hbr : Forall (fun c => is_space c = true -> is_blank c = true) (c :: r)).
  { rewrite <- Hs. by apply lstrip_forall. }
  apply join_fixed_tail in Hq; [|done].
  rewrite (join_prev (Some space) (Some c)) by (simpl; by rewrite Hc).
  apply join_fixed_lstrip; [done|done].
Qed.

End JoinFixed.

Section PassesKeepJoin.
Import Chars Re Normalizer.

Lemma join_fixed_at prev s c r :
  Forall (fun c => is_space c = true -> is_blank c = true) s ->
  sub m_spaced prev 0 s = s ->
  lstrip s = c :: r ->
  sub m_spaced (Some c) 0 r = r.
Proof.
  intros Hblank Hfixed Hs.
  assert (Hbr : Forall (fun c => is_space c = true -> is_blank c = true) (c :: r)).
  { rewrite <- Hs. by apply lstrip_forall. }
  destruct s as [|d rest]; [done|].
  destruct (is_space d) eqn:Hd.
  - rewrite (lstrip_space _ _ Hd) in Hs.
    apply (join_fixed_tail (Some d)); [done|]. rewrite <- Hs.
    apply join_fixed_lstrip; [by apply space_not_word|].
    by eapply join_fixed_tail.
  - rewrite (lstrip_other _ _ Hd) in Hs. injection Hs as -> ->.
    by eapply join_fixed_tail.
Qed.

Lemma join_copy_fixed prev c s :
  is_letter c = false ->
  sub m_spaced (Some c) 0 s = s ->
  sub m_spaced prev 0 (c :: s) = c :: s.
Proof. intros Hc Hs. by rewrite join_copy_other, Hs. Qed.

(** A text that the first pass leaves alone is still left alone after
    each of the three passes. *)
Lemma tidy_lparen_keeps_join : forall s prev,
  Forall (fun c => is_space c = true -> is_blank c = true) s ->
  sub m_spaced prev 0 s = s ->
  sub m_spaced prev 0 (tidy_lparen s) = tidy_lparen s.
Proof.
  induction s as [s IH] using shorter_first. intros prev Hblank Hfixed.
  destruct s as [|c r]; [done|].
  inversion Hblank as [|? ? _ Hbr]; subst.
  destruct (is_lparen c) eqn:Hl.
  - rewrite (tidy_lparen_at _ _ Hl).
    apply join_copy_fixed; [by apply lparen_not_letter|]. apply IH.
    + pose proof (lstrip_length r). simpl. lia.
    + by apply lstrip_forall.
    + apply join_fixed_lstrip; [simpl; by apply lparen_not_word|].
      by eapply join_fixed_tail.
  - destruct (join_fixed_head _ _ _ Hblank Hfixed) as [Hnone Htail].
    pose proof (m_spaced_through tidy_lparen eq_refl tidy_lparen_step
                  _ _ Hnone) as Hthrough.
    rewrite (tidy_lparen_copy _ _ Hl) in *.
    rewrite (join_copy _ _ _ Hthrough). f_equal.
    apply IH; [simpl; lia|done|done].
Qed.

Lemma tidy_rparen_keeps_join : forall s prev,
  Forall (fun c => is_space c = true -> is_blank c = true) s ->
  sub m_spaced prev 0 s = s ->
  sub m_spaced prev 0 (tidy_rparen s) = tidy_rparen s.
Proof.
  induction s as [s IH] using shorter_first. intros prev Hblank Hfixed.
  destruct (tidy_rparen_cases s)
    as [->|[(c & r & Hs & Hc & Heq)|(c & rest & -> & _ & Heq)]]; [done| |].
  - rewrite Heq.
    apply join_copy_fixed; [by apply rparen_not_letter|]. apply IH.
    + by eapply lstrip_suffix.
    + by destruct (lstrip_in _ _ _ _ Hblank Hs).
    + by eapply join_fixed_at.
  - destruct (join_fixed_head _ _ _ Hblank Hfixed) as [Hnone Htail].
    pose proof (m_spaced_through tidy_rparen eq_refl tidy_rparen_step
                  _ _ Hnone) as Hthrough.
    rewrite Heq in *. rewrite (join_copy _ _ _ Hthrough). f_equal.
    apply IH; [simpl; lia|by inversion Hblank|done].
Qed.

Lemma tidy_punct_keeps_join : forall s prev,
  Forall (fun c => is_space c = true -> is_blank c = true) s ->
  sub m_spaced prev 0 s = s ->
  sub m_spaced prev 0 (tidy_punct s) = tidy_punct s.
Proof.
  induction s as [s IH] using shorter_first. intros prev Hblank Hfixed.
  destruct (tidy_punct_cases s)
    as [->|[(c & r & Hs & Hc & Heq)|(c & rest & -> & _ & Heq)]]; [done| |].
  - rewrite Heq.
    apply join_copy_fixed; [by apply punct_not_letter|].
    apply join_copy_fixed; [done|]. apply IH.
    + pose proof (lstrip_suffix _ _ _ Hs). pose proof (lstrip_length r). lia.
    + apply lstrip_forall. by destruct (lstrip_in _ _ _ _ Hblank Hs).
    + eapply join_fixed_resume; [done|done|done|by apply punct_not_word].
  - destruct (join_fixed_head _ _ _ Hblank Hfixed) as [Hnone Htail].
    pose proof (m_spaced_through tidy_punct eq_refl tidy_punct_step
                  _ _ Hnone) as Hthrough.
    rewrite Heq in *. rewrite (join_copy _ _ _ Hthrough). f_equal.
    apply IH; [simpl; lia|by inversion Hblank|done].
Qed.

End PassesKeepJoin.


(** ** Pairs of neighbours that a pass removes *)

Section NoPair.
Import Chars Re Normalizer.
Variables p q : ascii -> bool.

Lemma no_pair_tail c s : no_pair p q (c :: s) = true -> no_pair p q s = true.
Proof. cbn [no_pair]. by intros [_ H]%andb_true_iff. Qed.

Lemma no_pair_head c d t :
  no_pair p q (c :: d :: t) = true -> p c = true -> q d = false.
Proof.
  cbn [no_pair]. intros [Hpair _]%andb_true_iff Hc.
  rewrite Hc in Hpair. simpl in Hpair. by destruct (q d).
Qed.

Lemma no_pair_cons c s :
  no_pair p q s = true ->
  (forall d t, s = d :: t -> p c = true -> q d = false) ->
  no_pair p q (c :: s) = true.
Proof.
  intros Hs Hhead. cbn [no_pair]. rewrite Hs, andb_true_r.
  destruct s as [|d t]; [done|].
  destruct (p c) eqn:Hc; [|done].
  by rewrite (Hhead d t eq_refl eq_refl).
Qed.

Lemma no_pair_drop n : forall s,
  no_pair p q s = true -> no_pair p q (drop n s) = true.
Proof.
  induction n as [|n IH]; intros [|c s] Hs; try done.
  cbn [drop]. apply IH. by eapply no_pair_tail.
Qed.

Lemma no_pair_prefix s : forall t,
  no_pair p q (s ++ t) = true -> no_pair p q s = true.
Proof.
  induction s as [|c rest IH]; intros t Hs; [done|].
  cbn [app no_pair] in *. apply andb_true_iff in Hs as [Hpair Hrest].
  rewrite (IH _ Hrest), andb_true_r.
  destruct rest as [|d rest]; [done|exact Hpair].
Qed.

Lemma no_pair_lstrip s : no_pair p q s = true -> no_pair p q (lstrip s) = true.
Proof. apply no_pair_drop. Qed.

Lemma no_pair_strip s : no_pair p q s = true -> no_pair p q (strip s) = true.
Proof.
  intros Hs. unfold strip.
  destruct (rstrip_split (lstrip s)) as (tail & Hsplit & _ & _).
  apply (no_pair_prefix _ tail). rewrite <- Hsplit. by apply no_pair_lstrip.
Qed.

End NoPair.

(** ** Texts that start with a character other than whitespace *)

Section Starts.
Import Chars Re Normalizer.

Lemma lstrip_fixed_inv s c t : lstrip s = s -> s = c :: t -> is_space c = false.
Proof. intros Hs ->. by eapply lstrip_head. Qed.

Lemma tidy_lparen_starts s : lstrip s = s -> lstrip (tidy_lparen s) = tidy_lparen s.
Proof.
  intros Hs. destruct s as [|c r]; [done|].
  destruct (tidy_lparen_head c r) as [t ->].
  apply lstrip_other. by eapply lstrip_fixed_inv.
Qed.

Lemma tidy_rparen_starts s : lstrip s = s -> lstrip (tidy_rparen s) = tidy_rparen s.
Proof.
  intros Hs. destruct s as [|c r]; [done|].
  pose proof (lstrip_fixed_inv _ c r Hs eq_refl) as Hc.
  destruct (tidy_rparen_head c r Hc) as [t ->]. by apply lstrip_other.
Qed.

Lemma tidy_punct_starts s : lstrip s = s -> lstrip (tidy_punct s) = tidy_punct s.
Proof.
  intros Hs. destruct s as [|c r]; [done|].
  pose proof (lstrip_fixed_inv _ c r Hs eq_refl) as Hc.
  destruct (tidy_punct_head c r Hc) as [t ->]. by apply lstrip_other.
Qed.

(** The first character of what a pass writes, when the text starts with
    a character other than whitespace. *)
Lemma tidy_rparen_first c r d t :
  is_space c = false -> tidy_rparen (c :: r) = d :: t -> d = c.
Proof.
  intros Hc Heq. destruct (tidy_rparen_head c r Hc) as [t' Ht'].
  rewrite Ht' in Heq. by injection Heq as <- _.
Qed.

Lemma tidy_punct_first c r d t :
  is_space c = false -> tidy_punct (c :: r) = d :: t -> d = c.
Proof.
  intros Hc Heq. destruct (tidy_punct_head c r Hc) as [t' Ht'].
  rewrite Ht' in Heq. by injection Heq as <- _.
Qed.

End Starts.

(** ** No whitespace after an opening parenthesis *)

Section AfterLparen.
Import Chars Re Normalizer.

(** The pass for [\(\s+] leaves no whitespace after an opening
    parenthesis. *)
Lemma tidy_lparen_closed_up : forall s, no_pair is_lparen is_space (tidy_lparen s) = true.
Proof.
  induction s as [s IH] using shorter_first.
  destruct s as [|c r]; [done|].
  destruct (is_lparen c) eqn:Hl.
  - rewrite (tidy_lparen_at _ _ Hl). apply no_pair_cons.
    + apply IH. pose proof (lstrip_length r). simpl. lia.
    + intros d t Hd _.
      pose proof (tidy_lparen_starts (lstrip r) (lstrip_lstrip r)) as Hstart.
      eapply lstrip_fixed_inv; [exact Hstart|exact Hd].
  - rewrite (tidy_lparen_copy _ _ Hl). apply no_pair_cons.
    + apply IH. simpl. lia.
    + intros d t _ Hc. by rewrite Hc in Hl.
Qed.

(** A text without whitespace after an opening parenthesis is left alone
    by that pass. *)
Lemma tidy_lparen_fixed : forall s, no_pair is_lparen is_space s = true -> tidy_lparen s = s.
Proof.
  induction s as [|c r IH]; intros Hs; [done|].
  pose proof (no_pair_tail _ _ _ _ Hs) as Hr.
  destruct (is_lparen c) eqn:Hl.
  - rewrite (tidy_lparen_at _ _ Hl). f_equal.
    rewrite lstrip_fixed; [by apply IH|].
    intros d t ->. by eapply no_pair_head.
  - rewrite (tidy_lparen_copy _ _ Hl). f_equal. by apply IH.
Qed.

Lemma tidy_rparen_closed_up :
  forall s, no_pair is_lparen is_space s = true -> no_pair is_lparen is_space (tidy_rparen s) = true.
Proof.
  induction s as [s IH] using shorter_first. intros Hs.
  destruct (tidy_rparen_cases s)
    as [->|[(c & r & Hl & Hc & ->)|(c & rest & -> & _ & ->)]]; [done| |].
  - apply no_pair_cons.
    + apply IH; [by eapply lstrip_suffix|].
      pose proof (no_pair_lstrip _ _ _ Hs) as Hr. rewrite Hl in Hr.
      by eapply no_pair_tail.
    + intros d t _ Hlp. by rewrite (rparen_not_lparen c Hc) in Hlp.
  - pose proof (no_pair_tail _ _ _ _ Hs) as Hr.
    apply no_pair_cons; [apply IH; [simpl; lia|done]|].
    intros d t Hd Hc. destruct rest as [|d' r']; [done|].
    pose proof (no_pair_head _ _ _ _ _ Hs Hc) as Hd'.
    by rewrite (tidy_rparen_first _ _ _ _ Hd' Hd).
Qed.

Lemma tidy_punct_closed_up :
  forall s, no_pair is_lparen is_space s = true -> no_pair is_lparen is_space (tidy_punct s) = true.
Proof.
  induction s as [s IH] using shorter_first. intros Hs.
  destruct (tidy_punct_cases s)
    as [->|[(c & r & Hl & Hc & ->)|(c & rest & -> & _ & ->)]]; [done| |].
  - assert (Hr : no_pair is_lparen is_space r = true).
    { pose proof (no_pair_lstrip _ _ _ Hs) as Hr. rewrite Hl in Hr.
      by eapply no_pair_tail. }
    apply no_pair_cons.
    + apply no_pair_cons.
      * apply IH; [|by apply no_pair_lstrip].
        pose proof (lstrip_suffix _ _ _ Hl). pose proof (lstrip_length r). lia.
      * intros d t _ Hlp. pose proof space_is_space as Hsp.
        by rewrite (lparen_not_space _ Hlp) in Hsp.
    + intros d t _ Hlp. by rewrite (punct_not_lparen c Hc) in Hlp.
  - pose proof (no_pair_tail _ _ _ _ Hs) as Hr.
    apply no_pair_cons; [apply IH; [simpl; lia|done]|].
    intros d t Hd Hc. destruct rest as [|d' r']; [done|].
    pose proof (no_pair_head _ _ _ _ _ Hs Hc) as Hd'.
    by rewrite (tidy_punct_first _ _ _ _ Hd' Hd).
Qed.

End AfterLparen.

(** ** No whitespace before a closing parenthesis *)

Section BeforeRparen.
Import Chars Re Normalizer.

(** When the pass for [\s+\)] writes a closing parenthesis first, the
    text started with it, after whitespace at most. *)
Lemma tidy_rparen_writes_rparen s d t :
  tidy_rparen s = d :: t -> is_rparen d = true ->
  exists r, lstrip s = d :: r.
Proof.
  intros Heq Hd.
  destruct (tidy_rparen_cases s)
    as [->|[(c & r & Hl & Hc & Hat)|(c & rest & -> & _ & Hcopy)]]; [done| |].
  - rewrite Hat in Heq. injection Heq as -> _. by exists r.
  - rewrite Hcopy in Heq. injection Heq as -> _. exists rest.
    apply lstrip_other. by apply rparen_not_space.
Qed.

Lemma tidy_rparen_closed :
  forall s, no_pair is_space is_rparen (tidy_rparen s) = true.
Proof.
  induction s as [s IH] using shorter_first.
  destruct (tidy_rparen_cases s)
    as [->|[(c & r & Hl & Hc & ->)|(c & rest & -> & Hnot & ->)]]; [done| |].
  - apply no_pair_cons; [apply IH; by eapply lstrip_suffix|].
    intros d t _ Hsp. by rewrite (rparen_not_space c Hc) in Hsp.
  - apply no_pair_cons; [apply IH; simpl; lia|].
    intros d t Hd Hc. destruct (is_rparen d) eqn:Hr; [|done].
    destruct (tidy_rparen_writes_rparen _ _ _ Hd Hr) as [r Hl].
    rewrite <- (Hnot d r); [done|]. by rewrite (lstrip_space _ _ Hc).
Qed.

End BeforeRparen.

(** ** The passes and the whitespace at both ends *)

Section Ends.
Import Chars Re Normalizer.

Lemma lstrip_app_spaces (w a : list ascii) :
  Forall (fun c => is_space c = true) w -> lstrip (w ++ a) = lstrip a.
Proof.
  induction 1 as [|c w Hc _ IH]; [done|].
  cbn [app]. by rewrite (lstrip_space _ _ Hc).
Qed.

Lemma lstrip_spaces (w : list ascii) :
  Forall (fun c => is_space c = true) w -> lstrip w = [].
Proof.
  intros Hw. rewrite <- (app_nil_r w). by rewrite lstrip_app_spaces.
Qed.

Lemma lstrip_app (s tail : list ascii) c r :
  lstrip s = c :: r -> lstrip (s ++ tail) = (c :: r ++ tail)%list.
Proof.
  induction s as [|d rest IH]; [done|]. destruct (is_space d) eqn:Hd.
  - rewrite (lstrip_space _ _ Hd). cbn [app]. by rewrite (lstrip_space _ _ Hd).
  - rewrite (lstrip_other _ _ Hd). cbn [app]. rewrite (lstrip_other _ _ Hd).
    by intros [= -> ->].
Qed.

Lemma lstrip_nil_spaces s :
  lstrip s = [] -> Forall (fun c => is_space c = true) s.
Proof.
  induction s as [|d rest IH]; [done|]. destruct (is_space d) eqn:Hd.
  - rewrite (lstrip_space _ _ Hd). intros Hrest. constructor; [done|by apply IH].
  - by rewrite (lstrip_other _ _ Hd).
Qed.

Lemma lstrip_split s :
  exists w, s = (w ++ lstrip s)%list /\ Forall (fun c => is_space c = true) w.
Proof.
  exists (take (span is_space s) s). split.
  - unfold lstrip. by rewrite take_drop.
  - apply span_prefix.
Qed.

Lemma rstrip_app_spaces (s tail : list ascii) :
  Forall (fun c => is_space c = true) tail -> rstrip (s ++ tail) = rstrip s.
Proof.
  intros Htail. unfold rstrip. rewrite rev_app_distr.
  rewrite lstrip_app_spaces; [done|]. by apply Forall_rev.
Qed.

Lemma rstrip_spaces (w : list ascii) :
  Forall (fun c => is_space c = true) w -> rstrip w = [].
Proof.
  intros Hw. change w with ([] ++ w)%list. by rewrite rstrip_app_spaces.
Qed.

(** The two halves of [strip] can be taken in either order. *)
Lemma lstrip_rstrip s : lstrip (rstrip s) = rstrip (lstrip s).
Proof.
  destruct (lstrip_split s) as (w & Hs & Hw).
  destruct (rstrip_split (lstrip s)) as (tail & Hsplit & Htail & Hend).
  destruct (rstrip (lstrip s)) as [|c a] eqn:Hcore.
  - cbn [app] in Hsplit.
    assert (Hall : Forall (fun c => is_space c = true) s).
    { rewrite Hs. apply Forall_app. split; [done|]. by rewrite Hsplit. }
    by rewrite (rstrip_spaces _ Hall).
  - rewrite Hs at 1. rewrite Hsplit, app_assoc.
    rewrite (rstrip_app_spaces _ _ Htail).
    rewrite rstrip_fixed.
    + rewrite (lstrip_app_spaces _ _ Hw). apply lstrip_other.
      apply (lstrip_head s c (a ++ tail)%list). by rewrite Hsplit.
    + intros e He. apply Hend. rewrite last_app in He.
      destruct (last (c :: a)) eqn:Hlast; [done|].
      by apply last_None in Hlast.
Qed.

(** Leading whitespace: a pass followed by [lstrip] does not see whether
    [lstrip] was already applied. *)
Lemma tidy_rparen_lstrip : forall s,
  lstrip (tidy_rparen s) = lstrip (tidy_rparen (lstrip s)).
Proof.
  induction s as [|c rest IH]; [done|].
  destruct (is_space c) eqn:Hc; [|by rewrite (lstrip_other _ _ Hc)].
  rewrite (lstrip_space _ _ Hc).
  destruct (tidy_rparen_cases (c :: rest))
    as [?|[(d & r & Hl & Hd & Hat)|(c' & rest' & [= <- <-] & _ & Hcopy)]];
    [done| |].
  - rewrite (lstrip_space _ _ Hc) in Hl. rewrite Hat, Hl.
    by rewrite (tidy_rparen_at (d :: r) d r) by
      (done || by apply lstrip_other, rparen_not_space).
  - rewrite Hcopy. by rewrite (lstrip_space _ _ Hc).
Qed.

Lemma tidy_punct_lstrip : forall s,
  lstrip (tidy_punct s) = lstrip (tidy_punct (lstrip s)).
Proof.
  induction s as [|c rest IH]; [done|].
  destruct (is_space c) eqn:Hc; [|by rewrite (lstrip_other _ _ Hc)].
  rewrite (lstrip_space _ _ Hc).
  destruct (tidy_punct_cases (c :: rest))
    as [?|[(d & r & Hl & Hd & Hat)|(c' & rest' & [= <- <-] & _ & Hcopy)]];
    [done| |].
  - rewrite (lstrip_space _ _ Hc) in Hl. rewrite Hat, Hl.
    by rewrite (tidy_punct_at (d :: r) d r) by
      (done || by apply lstrip_other, punct_not_space).
  - rewrite Hcopy. by rewrite (lstrip_space _ _ Hc).
Qed.

End Ends.

Section TrailingWhitespace.
Import Chars Re Normalizer.

Lemma space_not_rparen c : is_space c = true -> is_rparen c = false.
Proof.
  intros Hc. destruct (is_rparen c) eqn:Hr; [|done].
  by rewrite (rparen_not_space c Hr) in Hc.
Qed.

Lemma space_not_punct c : is_space c = true -> is_punct c = false.
Proof.
  intros Hc. destruct (is_punct c) eqn:Hp; [|done].
  by rewrite (punct_not_space c Hp) in Hc.
Qed.

(** What follows the leading whitespace of a text with whitespace added
    at its end. *)
Lemma lstrip_app_head (p : ascii -> bool) s tail :
  Forall (fun c => is_space c = true) tail ->
  (forall d t, lstrip s = d :: t -> p d = false) ->
  forall d t, lstrip (s ++ tail) = d :: t -> p d = false.
Proof.
  intros Htail Hnot d t Hl.
  destruct (lstrip s) as [|e r] eqn:Hs.
  - apply lstrip_nil_spaces in Hs.
    rewrite lstrip_spaces in Hl; [done|]. apply Forall_app. by split.
  - rewrite (lstrip_app _ tail _ _ Hs) in Hl. injection Hl as <- _.
    by apply (Hnot e r).
Qed.

(** Whitespace at the end of the text is copied by the pass for [\s+\)]. *)
Lemma tidy_rparen_app_spaces tail :
  Forall (fun c => is_space c = true) tail ->
  forall s, tidy_rparen (s ++ tail) = (tidy_rparen s ++ tail)%list.
Proof.
  intros Htail. induction s as [s IH] using shorter_first.
  destruct (tidy_rparen_cases s)
    as [->|[(c & r & Hl & Hc & ->)|(c & rest & -> & Hnot & ->)]].
  - cbn [app]. apply tidy_rparen_quiet.
    eapply Forall_impl; [exact Htail|]. apply space_not_rparen.
  - rewrite (tidy_rparen_at (s ++ tail) c (r ++ tail)); [|by apply lstrip_app|done].
    cbn [app]. f_equal. apply IH. by eapply lstrip_suffix.
  - cbn [app]. rewrite tidy_rparen_copy.
    + f_equal. apply IH. simpl. lia.
    + change (c :: rest ++ tail)%list with ((c :: rest) ++ tail)%list.
      by apply lstrip_app_head.
Qed.

(** The punctuation pass copies whitespace at the end of the text, or
    drops it when it comes after a punctuation character. *)
Lemma tidy_punct_app_spaces tail :
  Forall (fun c => is_space c = true) tail ->
  forall s,
    tidy_punct (s ++ tail) = tidy_punct s
    \/ tidy_punct (s ++ tail) = (tidy_punct s ++ tail)%list.
Proof.
  intros Htail. induction s as [s IH] using shorter_first.
  destruct (tidy_punct_cases s)
    as [->|[(c & r & Hl & Hc & ->)|(c & rest & -> & Hnot & ->)]].
  - right. cbn [app]. apply tidy_punct_quiet.
    eapply Forall_impl; [exact Htail|]. apply space_not_punct.
  - rewrite (tidy_punct_at (s ++ tail) c (r ++ tail)); [|by apply lstrip_app|done].
    destruct (lstrip r) as [|e r'] eqn:Hr.
    + left. apply lstrip_nil_spaces in Hr.
      rewrite lstrip_spaces; [done|]. apply Forall_app. by split.
    + rewrite (lstrip_app _ tail _ _ Hr).
      change (e :: r' ++ tail)%list with ((e :: r') ++ tail)%list.
      destruct (IH (e :: r')) as [->| ->]; [|by left|by right].
      pose proof (lstrip_suffix _ _ _ Hl). pose proof (lstrip_length r).
      rewrite Hr in *. lia.
  - cbn [app]. rewrite tidy_punct_copy.
    + destruct (IH rest) as [->| ->]; [simpl; lia|by left|by right].
    + change (c :: rest ++ tail)%list with ((c :: rest) ++ tail)%list.
      by apply lstrip_app_head.
Qed.

(** The two passes followed by [strip] do not see whether [strip] was
    already applied. *)
Lemma tidy_strip_absorbs s :
  strip (tidy_punct (tidy_rparen (strip s)))
  = strip (tidy_punct (tidy_rparen s)).
Proof.
  assert (Hright : forall a tail,
            Forall (fun c => is_space c = true) tail ->
            rstrip (tidy_punct (tidy_rparen (a ++ tail)))
            = rstrip (tidy_punct (tidy_rparen a))).
  { intros a tail Htail. rewrite (tidy_rparen_app_spaces _ Htail).
    destruct (tidy_punct_app_spaces _ Htail (tidy_rparen a)) as [->| ->];
      [done|by apply rstrip_app_spaces]. }
  assert (Hleft : forall a,
            lstrip (tidy_punct (tidy_rparen (lstrip a)))
            = lstrip (tidy_punct (tidy_rparen a))).
  { intros a. rewrite (tidy_punct_lstrip (tidy_rparen a)).
    rewrite (tidy_rparen_lstrip a). by rewrite <- tidy_punct_lstrip. }
  unfold strip at 2.
  destruct (rstrip_split (lstrip s)) as (tail & Hsplit & Htail & _).
  unfold strip at 1. rewrite <- lstrip_rstrip.
  rewrite <- (Hright (rstrip (lstrip s)) tail Htail), <- Hsplit.
  rewrite lstrip_rstrip. by rewrite Hleft.
Qed.

End TrailingWhitespace.

(** ** The punctuation pass undoes what the parenthesis pass does to its
    output *)

Section PunctAgain.
Import Chars Re Normalizer.

Lemma tidy_punct_rparen_head c r :
  is_space c = false ->
  exists t, tidy_rparen (tidy_punct (c :: r)) = c :: t.
Proof.
  intros Hc. destruct (tidy_punct_head c r Hc) as [t ->].
  by apply tidy_rparen_head.
Qed.

(** The punctuation pass writes a space after a punctuation character;
    when a closing parenthesis follows, the parenthesis pass of the next
    application removes that space and the punctuation pass writes it
    again. *)
Lemma tidy_punct_again : forall v,
  single_spaced v = true ->
  no_pair is_space is_rparen v = true ->
  tidy_punct (tidy_rparen (tidy_punct v)) = tidy_punct v.
Proof.
  induction v as [v IH] using shorter_first. intros Hsingle Hclosed.
  destruct (tidy_punct_cases v)
    as [->|[(c & r & Hl & Hc & ->)|(c & rest & -> & Hnot & ->)]]; [done| |].
  - pose proof (punct_not_space c Hc) as Hcs.
    set (x := tidy_punct (lstrip r)).
    assert (Hx : lstrip x = x) by apply tidy_punct_starts, lstrip_lstrip.
    rewrite tidy_rparen_copy.
    2:{ rewrite (lstrip_other _ _ Hcs). intros d t [= <- _].
        by apply punct_not_rparen. }
    rewrite (tidy_punct_at _ c (tidy_rparen (space :: x)));
      [|by apply lstrip_other|done].
    do 2 f_equal.
    rewrite tidy_rparen_lstrip, (lstrip_space _ _ space_is_space), Hx.
    rewrite (tidy_rparen_starts _ Hx).
    assert (Hr : single_spaced r = true /\ no_pair is_space is_rparen r = true).
    { pose proof (lstrip_single_spaced _ Hsingle) as H1.
      pose proof (no_pair_lstrip _ _ _ Hclosed) as H2. rewrite Hl in H1, H2.
      split; [by eapply single_spaced_tail|by eapply no_pair_tail]. }
    destruct Hr as [Hr1 Hr2]. apply IH.
    + pose proof (lstrip_suffix _ _ _ Hl). pose proof (lstrip_length r). lia.
    + by apply lstrip_single_spaced.
    + by apply no_pair_lstrip.
  - pose proof (single_spaced_tail _ _ Hsingle) as Hrest1.
    pose proof (no_pair_tail _ _ _ _ Hclosed) as Hrest2.
    assert (Hnext : is_space c = true ->
              rest = [] \/ exists e t t',
                rest = e :: t /\ is_space e = false /\ is_rparen e = false
                /\ tidy_punct rest = e :: t'
                /\ tidy_rparen (tidy_punct rest) = e :: tidy_rparen t').
    { intros Hcs. destruct rest as [|e t]; [by left|]. right.
      pose proof (single_spaced_next _ _ _ Hsingle Hcs) as He.
      pose proof (no_pair_head _ _ _ _ _ Hclosed Hcs) as Her.
      destruct (tidy_punct_head e t He) as [t' Ht'].
      exists e, t, t'. rewrite Ht'. repeat split; try done.
      apply tidy_rparen_copy. rewrite (lstrip_other _ _ He).
      by intros d u [= <- _]. }
    assert (Hfirst : tidy_rparen (c :: tidy_punct rest)
                     = c :: tidy_rparen (tidy_punct rest)).
    { destruct (is_space c) eqn:Hcs.
      - apply tidy_rparen_copy. rewrite (lstrip_space _ _ Hcs).
        destruct (Hnext eq_refl) as [->|(e & t & t' & -> & He & Her & Ht' & _)];
          [done|].
        rewrite Ht', (lstrip_other _ _ He). by intros d u [= <- _].
      - destruct (tidy_rparen_head c (tidy_punct rest) Hcs) as [t Ht].
        destruct (is_rparen c) eqn:Hcr.
        + by rewrite (tidy_rparen_at _ c (tidy_punct rest))
            by (done || by apply lstrip_other).
        + apply tidy_rparen_copy. rewrite (lstrip_other _ _ Hcs).
          by intros d u [= <- _]. }
    rewrite Hfirst. rewrite tidy_punct_copy.
    + f_equal. apply IH; [simpl; lia|done|done].
    + destruct (is_space c) eqn:Hcs.
      * rewrite (lstrip_space _ _ Hcs).
        destruct (Hnext eq_refl) as [->|(e & t & t' & -> & He & Her & _ & Ht')];
          [done|].
        rewrite Ht', (lstrip_other _ _ He). intros d u [= <- _].
        apply (Hnot e t). by rewrite (lstrip_space _ _ Hcs), (lstrip_other _ _ He).
      * rewrite (lstrip_other _ _ Hcs). intros d u [= <- _].
        apply (Hnot c rest). by apply lstrip_other.
Qed.

End PunctAgain.


(** ** The normalizer on tame text *)

Section TameText.
Import Chars Re Normalizer.

Lemma tame_chars_spec s :
  tame_chars s = true <->
  Forall (fun c => tame_char c = true) s /\ single_spaced s = true.
Proof.
  unfold tame_chars. rewrite andb_true_iff, forallb_forall, List.Forall_forall.
  done.
Qed.

Lemma tame_char_classes c :
  tame_char c = true ->
  is_underscore c = false /\ is_backslash c = false
  /\ (is_space c = true -> is_blank c = true).
Proof.
  unfold tame_char.
  destruct (is_underscore c), (is_backslash c), (is_space c), (is_blank c);
    simpl; intros H; try discriminate; repeat split; done.
Qed.

Lemma space_is_tame : tame_char space = true.
Proof. reflexivity. Qed.

(** On a tame text the underscore, whitespace and backslash passes change
    nothing. *)
Lemma clean_chars_tame s :
  tame_chars s = true ->
  clean_chars s = strip (tidy_punct (tidy_rparen (tidy_lparen (join_spaced s)))).
Proof.
  intros [Hchars Hsingle]%tame_chars_spec.
  assert (Hblank : Forall (fun c => is_space c = true -> is_blank c = true) s).
  { eapply Forall_impl; [exact Hchars|]. intros c Hc.
    by apply tame_char_classes in Hc as (_ & _ & ?). }
  pose proof (join_forall _ s None 0 Hchars) as Hjoin.
  pose proof (join_single_spaced s None Hblank Hsingle) as Hjoin1.
  fold (re_sub m_spaced s) in Hjoin, Hjoin1. fold (join_spaced s) in Hjoin, Hjoin1.
  unfold clean_chars.
  rewrite drop_underscores_quiet.
  2:{ eapply Forall_impl; [exact Hjoin|]. intros c Hc.
      by apply tame_char_classes in Hc as (? & _). }
  rewrite collapse_whitespace_quiet; [| |done].
  2:{ eapply Forall_impl; [exact Hjoin|]. intros c Hc.
      by apply tame_char_classes in Hc as (_ & _ & ?). }
  rewrite drop_backslashes_quiet; [done|].
  eapply Forall_impl.
  - apply (tidy_punct_forall (fun c => tame_char c = true) space_is_tame).
    apply tidy_rparen_forall, tidy_lparen_forall. exact Hjoin.
  - intros c Hc. by apply tame_char_classes in Hc as (_ & ? & _).
Qed.


(** The normalizer's value on a tame text is tame again, is left alone by
    the first pass and has no whitespace after an opening parenthesis. *)
Lemma clean_chars_tame_output s :
  tame_chars s = true ->
  let v := tidy_rparen (tidy_lparen (join_spaced s)) in
  let y := strip (tidy_punct v) in
  tame_chars y = true
  /\ join_spaced y = y
  /\ tidy_lparen y = y
  /\ single_spaced v = true
  /\ no_pair is_space is_rparen v = true.
Proof.
  intros [Hchars Hsingle]%tame_chars_spec v y.
  assert (Hblank : forall t, Forall (fun c => tame_char c = true) t ->
            Forall (fun c => is_space c = true -> is_blank c = true) t).
  { intros t Ht. eapply Forall_impl; [exact Ht|]. intros c Hc.
    by apply tame_char_classes in Hc as (_ & _ & ?). }
  pose proof (join_forall _ s None 0 Hchars) as Hz.
  pose proof (join_single_spaced s None (Hblank _ Hchars) Hsingle) as Hz1.
  pose proof (join_idempotent s None (Hblank _ Hchars)) as Hzj.
  fold (re_sub m_spaced s) in Hz, Hz1, Hzj. fold (join_spaced s) in Hz, Hz1, Hzj.
  set (z := join_spaced s) in *.
  pose proof (tidy_lparen_forall _ z Hz) as Hu.
  pose proof (tidy_lparen_single_spaced z Hz1) as Hu1.
  pose proof (tidy_lparen_keeps_join z None (Hblank _ Hz) Hzj) as Huj.
  pose proof (tidy_lparen_closed_up z) as Hul.
  set (u := tidy_lparen z) in *.
  pose proof (tidy_rparen_forall _ u Hu) as Hv.
  pose proof (tidy_rparen_single_spaced u Hu1) as Hv1.
  pose proof (tidy_rparen_keeps_join u None (Hblank _ Hu) Huj) as Hvj.
  pose proof (tidy_rparen_closed_up u Hul) as Hvl.
  fold v in Hv, Hv1, Hvj, Hvl.
  pose proof (tidy_punct_forall _ space_is_tame v Hv) as Hw.
  pose proof (tidy_punct_single_spaced v Hv1) as Hw1.
  pose proof (tidy_punct_keeps_join v None (Hblank _ Hv) Hvj) as Hwj.
  pose proof (tidy_punct_closed_up v Hvl) as Hwl.
  split; [|split; [|split; [|split]]].
  - apply tame_chars_spec. split; [by apply strip_forall|by apply strip_single_spaced].
  - by apply join_fixed_strip.
  - by apply tidy_lparen_fixed, no_pair_strip.
  - done.
  - apply tidy_rparen_closed.
Qed.

Lemma clean_chars_idempotent_tame s :
  tame_chars s = true -> clean_chars (clean_chars s) = clean_chars s.
Proof.
  intros Htame.
  destruct (clean_chars_tame_output s Htame) as (Hy & Hyj & Hyl & Hv1 & Hvr).
  rewrite (clean_chars_tame s Htame).
  rewrite (clean_chars_tame _ Hy), Hyj, Hyl.
  rewrite tidy_strip_absorbs. by rewrite tidy_punct_again.
Qed.

End TameText.

(** ** What the normalizer's value never contains *)

Section CleanOutput.
Import Chars Re Normalizer.

Ltac by_char c :=
  destruct c as [[] [] [] [] [] [] [] []]; vm_compute; intros; congruence.

Lemma underscore_not_space c : is_underscore c = true -> is_space c = false.
Proof. by_char c. Qed.

Lemma space_not_underscore : is_underscore space = false.
Proof. reflexivity. Qed.

Lemma space_not_backslash : is_backslash space = false.
Proof. reflexivity. Qed.

(** A pass writes characters of the text and characters of its
    replacements. *)
Lemma sub_forall (m : matcher) (P : ascii -> Prop) :
  (forall prev t repl k, Forall P t -> m prev t = Some (repl, k) -> Forall P repl) ->
  forall s prev k, Forall P s -> Forall P (sub m prev k s).
Proof.
  intros Hm. induction s as [|c rest IH]; intros prev k Hall; [done|].
  inversion Hall as [|? ? Hc Hrest]; subst.
  destruct k as [|k]; cbn [sub]; [|by apply IH].
  destruct (m prev (c :: rest)) as [[repl [|k]]|] eqn:Hmatch.
  - constructor; [done|by apply IH].
  - apply Forall_app. split; [|by apply IH].
    exact (Hm prev (c :: rest) repl (S k) Hall Hmatch).
  - constructor; [done|by apply IH].
Qed.

Lemma drop_underscores_forall (P : ascii -> Prop) s :
  P space -> Forall P s -> Forall P (drop_underscores s).
Proof.
  intros Hspace. apply sub_forall. intros prev t repl k _. unfold m_underscores.
  destruct (1 <=? _)%nat; [|done]. intros [= <- _]. by constructor.
Qed.

Lemma collapse_whitespace_forall (P : ascii -> Prop) s :
  P space -> Forall P s -> Forall P (collapse_whitespace s).
Proof.
  intros Hspace. apply sub_forall. intros prev t repl k _. unfold m_whitespace.
  destruct (1 <=? _)%nat; [|done]. intros [= <- _]. by constructor.
Qed.

Lemma drop_backslashes_forall (P : ascii -> Prop) s :
  Forall P s -> Forall P (drop_backslashes s).
Proof.
  unfold drop_backslashes. induction 1 as [|c rest Hc _ IH]; [done|].
  simpl. destruct (negb (is_backslash c)); [by constructor|done].
Qed.

Lemma drop_backslashes_none s :
  Forall (fun c => is_backslash c = false) (drop_backslashes s).
Proof.
  unfold drop_backslashes. induction s as [|c rest IH]; [done|].
  simpl. destruct (is_backslash c) eqn:Hc; simpl; [done|by constructor].
Qed.

(** The underscore pass at one position: a match writes one space and
    resumes further on; otherwise the character, which is no underscore,
    is copied. *)
Lemma drop_underscores_cases c rest :
  (exists t,
      drop_underscores (c :: rest) = space :: drop_underscores t
      /\ (List.length t <= List.length rest)%nat)
  \/ (is_underscore c = false
      /\ drop_underscores (c :: rest) = c :: drop_underscores rest).
Proof.
  pose (a := span is_space (c :: rest)).
  pose (b := span is_underscore (drop a (c :: rest))).
  pose (w := span is_space (drop b (drop a (c :: rest)))).
  assert (Hm : m_underscores None (c :: rest) =
               if (1 <=? b)%nat then Some ([space], (a + b + w)%nat) else None)
    by reflexivity.
  destruct (Nat.leb_spec 1 b) as [Hb|Hb].
  - left. exists (drop (a + b + w - 1) rest). split.
    + unfold drop_underscores.
      rewrite (re_sub_match m_underscores (fun _ _ _ => eq_refl) c rest [space]
                 (a + b + w - 1)); [done|].
      rewrite Hm. do 2 f_equal. lia.
    + rewrite length_drop. lia.
  - right. assert (Hc : is_underscore c = false).
    { destruct (is_underscore c) eqn:Hc; [|done]. exfalso.
      assert (Ha : a = 0%nat).
      { subst a. cbn [span]. by rewrite (underscore_not_space c Hc). }
      subst b. rewrite Ha, drop_0 in Hb. cbn [span] in Hb.
      rewrite Hc in Hb. lia. }
    split; [done|]. by apply re_sub_copy.
Qed.

(** The underscore pass leaves no underscore. *)
Lemma drop_underscores_none : forall s,
  Forall (fun c => is_underscore c = false) (drop_underscores s).
Proof.
  induction s as [s IH] using shorter_first.
  destruct s as [|c rest]; [done|].
  destruct (drop_underscores_cases c rest) as [(t & -> & Hlen)|[Hc ->]].
  - constructor; [done|]. apply IH. simpl. lia.
  - constructor; [done|]. apply IH. simpl. lia.
Qed.

(** The whitespace pass at one position. *)
Lemma collapse_whitespace_at c rest :
  is_space c = true ->
  collapse_whitespace (c :: rest) = space :: collapse_whitespace (lstrip rest).
Proof.
  intros Hc. unfold collapse_whitespace, lstrip.
  rewrite (re_sub_match m_whitespace (fun _ _ _ => eq_refl) c rest [space]
             (span is_space rest)); [done|].
  unfold m_whitespace. cbn [span]. by rewrite Hc.
Qed.

Lemma collapse_whitespace_copy c rest :
  is_space c = false ->
  collapse_whitespace (c :: rest) = c :: collapse_whitespace rest.
Proof.
  intros Hc. apply re_sub_copy; [done|].
  unfold m_whitespace. cbn [span]. by rewrite Hc.
Qed.

(** After the whitespace pass every whitespace character is a space
    character, and no two of them are neighbours. *)
Lemma collapse_whitespace_blank : forall s,
  Forall (fun c => is_space c = true -> is_blank c = true)
         (collapse_whitespace s).
Proof.
  induction s as [s IH] using shorter_first.
  destruct s as [|c rest]; [done|].
  destruct (is_space c) eqn:Hc.
  - rewrite (collapse_whitespace_at _ _ Hc). constructor; [done|].
    apply IH. pose proof (lstrip_length rest). simpl. lia.
  - rewrite (collapse_whitespace_copy _ _ Hc). constructor.
    + intros Hs. by rewrite Hs in Hc.
    + apply IH. simpl. lia.
Qed.

Lemma collapse_whitespace_single_spaced : forall s,
  single_spaced (collapse_whitespace s) = true.
Proof.
  induction s as [s IH] using shorter_first.
  destruct s as [|c rest]; [done|].
  destruct (is_space c) eqn:Hc.
  - rewrite (collapse_whitespace_at _ _ Hc).
    apply single_spaced_cons_head.
    + apply IH. pose proof (lstrip_length rest). simpl. lia.
    + intros d t Hd _. destruct (lstrip rest) as [|e r] eqn:Hl; [done|].
      pose proof (lstrip_head _ _ _ Hl) as He.
      rewrite (collapse_whitespace_copy _ _ He) in Hd. by injection Hd as <- _.
  - rewrite (collapse_whitespace_copy _ _ Hc).
    apply single_spaced_cons; [done|]. apply IH. simpl. lia.
Qed.

(** The text after the six substitutions, before the backslashes are
    removed. *)
Lemma tidied_forall (P : ascii -> Prop) s :
  P space ->
  Forall P (collapse_whitespace s) ->
  Forall P (tidy_punct (tidy_rparen (tidy_lparen (collapse_whitespace s)))).
Proof.
  intros Hspace Hall.
  by apply tidy_punct_forall, tidy_rparen_forall, tidy_lparen_forall.
Qed.

Lemma clean_chars_forall (P : ascii -> Prop) s :
  P space ->
  Forall P (collapse_whitespace (drop_underscores (join_spaced s))) ->
  Forall P (clean_chars s).
Proof.
  intros Hspace Hall. unfold clean_chars.
  by apply strip_forall, drop_backslashes_forall, tidied_forall.
Qed.

(** What [strip] returns neither starts nor ends with whitespace. *)
Lemma strip_ends s :
  (forall c, head (strip s) = Some c -> is_space c = false)
  /\ (forall c, last (strip s) = Some c -> is_space c = false).
Proof.
  unfold strip.
  destruct (rstrip_split (lstrip s)) as (tail & Hsplit & _ & Hend).
  split; [|exact Hend].
  intros c Hc. destruct (rstrip (lstrip s)) as [|d t] eqn:Hr; [done|].
  injection Hc as ->. apply (lstrip_head s c (t ++ tail)%list).
  by rewrite Hsplit.
Qed.

End CleanOutput.

Section CleanTheorems.
Import Chars Re Normalizer.

Lemma clean_chars_of_string text :
  list_ascii_of_string (_clean text) = clean_chars (list_ascii_of_string text).
Proof. unfold _clean. apply list_ascii_of_string_of_list_ascii. Qed.

(** C2, as amended. The normalizer is idempotent on tame text: when the
    text has no underscore and no backslash and its only whitespace is
    single space characters (parentheses and punctuation are allowed),
    normalizing the normalized text gives the normalized text. *)
Theorem clean_idempotent_on_tame_text text :
  tame_text text = true ->
  _clean (_clean text) = _clean text.
Proof.
  intros Htame. unfold _clean.
  rewrite list_ascii_of_string_of_list_ascii. f_equal.
  by apply clean_chars_idempotent_tame.
Qed.

(** X2. Whatever the text, the normalized text contains neither an
    underscore nor a backslash. *)
Theorem clean_has_no_underscore_or_backslash text :
  Forall (fun c => is_underscore c = false /\ is_backslash c = false)
         (list_ascii_of_string (_clean text)).
Proof.
  rewrite clean_chars_of_string. apply Forall_and. split.
  - apply (clean_chars_forall (fun c => is_underscore c = false));
      [exact space_not_underscore|].
    apply (collapse_whitespace_forall (fun c => is_underscore c = false));
      [exact space_not_underscore|].
    apply drop_underscores_none.
  - unfold clean_chars. apply strip_forall, drop_backslashes_none.
Qed.

(** X3. Whatever the text, every whitespace character of the normalized
    text is the space character U+0020, and the normalized text neither
    starts nor ends with whitespace. *)
Theorem clean_whitespace_is_spaces text :
  let out := list_ascii_of_string (_clean text) in
  Forall (fun c => is_space c = true -> c = space) out
  /\ (forall c, head out = Some c -> is_space c = false)
  /\ (forall c, last out = Some c -> is_space c = false).
Proof.
  cbn zeta. rewrite clean_chars_of_string. split.
  - apply (clean_chars_forall (fun c => is_space c = true -> c = space));
      [done|].
    eapply Forall_impl; [apply collapse_whitespace_blank|].
    intros c Hc Hs. by apply blank_is_the_space, Hc.
  - unfold clean_chars. apply strip_ends.
Qed.

Lemma join_spaced_spaces s :
  Forall (fun c => is_space c = true) s -> join_spaced s = s.
Proof.
  apply sub_absent. intros prev t Hall. unfold m_spaced.
  destruct Hall as [|c rest Hc _]; [done|]. cbn [spaced_letters].
  destruct (is_letter c) eqn:Hl.
  - by rewrite (letter_not_space c Hl) in Hc.
  - by rewrite andb_false_r.
Qed.

(** X4. A text made of whitespace only, the empty text included, is
    normalized to the empty text. *)
Theorem clean_of_whitespace text :
  Forall (fun c => is_space c = true) (list_ascii_of_string text) ->
  _clean text = "".
Proof.
  intros Hall. unfold _clean.
  set (s := list_ascii_of_string text) in *.
  assert (Hclean : clean_chars s = []); [|by rewrite Hclean].
  unfold clean_chars. rewrite (join_spaced_spaces s Hall).
  rewrite drop_underscores_quiet.
  2:{ eapply Forall_impl; [exact Hall|]. intros c Hc. cbv beta in *.
      destruct (is_underscore c) eqn:Hu; [|done].
      by rewrite (underscore_not_space c Hu) in Hc. }
  destruct s as [|c rest]; [done|].
  inversion Hall as [|? ? Hc Hrest]; subst.
  rewrite (collapse_whitespace_at _ _ Hc), (lstrip_spaces _ Hrest).
  reflexivity.
Qed.

(** X5. When the text has no backslash, no two whitespace characters of
    the normalized text are neighbours. *)
Theorem clean_is_single_spaced text :
  Forall (fun c => is_backslash c = false) (list_ascii_of_string text) ->
  single_spaced (list_ascii_of_string (_clean text)) = true.
Proof.
  intros Hall. rewrite clean_chars_of_string.
  set (s := list_ascii_of_string text) in *. unfold clean_chars.
  set (t := collapse_whitespace (drop_underscores (join_spaced s))).
  assert (Ht : Forall (fun c => is_backslash c = false) t).
  { apply (collapse_whitespace_forall _ _ space_not_backslash).
    apply (drop_underscores_forall _ _ space_not_backslash).
    by apply join_forall. }
  rewrite drop_backslashes_quiet
    by (by apply (tidied_forall _ _ space_not_backslash)).
  apply strip_single_spaced, tidy_punct_single_spaced,
    tidy_rparen_single_spaced, tidy_lparen_single_spaced.
  apply collapse_whitespace_single_spaced.
Qed.

End CleanTheorems.

(** A tame text with parentheses, punctuation and spaced-out letters. *)
Lemma clean_idempotent_on_tame_text_witness :
  Normalizer.tame_text "call f ( x ) , then A P I ." = true
  /\ Normalizer._clean "call f ( x ) , then A P I ." = "call f (x), then API."
  /\ Normalizer._clean (Normalizer._clean "call f ( x ) , then A P I .")
     = Normalizer._clean "call f ( x ) , then A P I .".
Proof.
  split; [reflexivity|]. split; [reflexivity|].
  apply (clean_idempotent_on_tame_text "call f ( x ) , then A P I .").
  reflexivity.
Defined.

(** Each condition of tame text is needed: with an underscore, a
    backslash or a tab between single letters, a later pass brings the
    text into the shape that the first pass joins, and the second
    application joins it. *)
Lemma second_pass_joins_elsewhere :
  let tab := String (ascii_of_nat 9) EmptyString in
  Normalizer._clean (Normalizer._clean "a_b_c") <> Normalizer._clean "a_b_c"
  /\ Normalizer._clean (Normalizer._clean "a\ b\ c")
     <> Normalizer._clean "a\ b\ c"
  /\ Normalizer._clean (Normalizer._clean ("a" ++ tab ++ "b" ++ tab ++ "c"))
     <> Normalizer._clean ("a" ++ tab ++ "b" ++ tab ++ "c").
Proof. cbv zeta. repeat split; vm_compute; discriminate. Qed.

(** Three space characters. *)
Lemma clean_of_whitespace_witness : Normalizer._clean "   " = "".
Proof.
  apply (clean_of_whitespace "   "). repeat constructor.
Defined.

(** Runs of spaces around punctuation and parentheses. *)
Lemma clean_is_single_spaced_witness :
  Normalizer._clean "a   ,   b  (  c  )" = "a, b (c)"
  /\ Normalizer.single_spaced
       (list_ascii_of_string (Normalizer._clean "a   ,   b  (  c  )")) = true.
Proof.
  split; [reflexivity|].
  apply (clean_is_single_spaced "a   ,   b  (  c  )"). repeat constructor.
Defined.


(** * More properties of the agent *)

(** ** Relations that every step of a procedure keeps *)

Section Keeps.
Import Py.
Context {S : Type} (R : S -> S -> Prop).
Hypothesis R_refl : forall s, R s s.
Hypothesis R_trans : forall s1 s2 s3, R s1 s2 -> R s2 s3 -> R s1 s3.

Lemma keeps_ret {A} (a : A) : keeps R (ret a).
Proof. intros s. apply R_refl. Qed.

Lemma keeps_raise {A} e : keeps R (@raise S A e).
Proof. intros s. apply R_refl. Qed.

Lemma keeps_lift {A} (r : result A) : keeps R (lift r).
Proof. intros s. apply R_refl. Qed.

Lemma keeps_get : keeps R get.
Proof. intros s. apply R_refl. Qed.

Lemma keeps_modify f : (forall s, R s (f s)) -> keeps R (modify f).
Proof. intros Hf s. apply Hf. Qed.

Lemma keeps_bind {A B} (m : M S A) (k : A -> M S B) :
  keeps R m -> (forall a, keeps R (k a)) -> keeps R (bind m k).
Proof.
  intros Hm Hk s. unfold bind. pose proof (Hm s) as Hs.
  destruct (m s) as [[a|e] s1]; simpl in *; [|done].
  eapply R_trans; [exact Hs|apply Hk].
Qed.

Lemma keeps_try {A} (m : M S A) h :
  keeps R m -> (forall e, keeps R (h e)) -> keeps R (try_except m h).
Proof.
  intros Hm Hh s. unfold try_except. pose proof (Hm s) as Hs.
  destruct (m s) as [[a|e] s1]; simpl in *; [done|].
  eapply R_trans; [exact Hs|apply Hh].
Qed.

Lemma keeps_for_each {A} (xs : list A) body :
  (forall x, keeps R (body x)) -> keeps R (for_each xs body).
Proof.
  intros Hbody. induction xs as [|x xs IH]; simpl.
  - apply keeps_ret.
  - apply keeps_bind; [apply Hbody|done].
Qed.

End Keeps.

Section ReturnsOnly.
Import Py.
Context {S A : Type} (P : A -> Prop).

Lemma returns_ret (a : A) : P a -> returns_only P (@ret S A a).
Proof. intros Ha s b s' [= <- _]. exact Ha. Qed.

Lemma returns_bind {B} (m : M S B) (k : B -> M S A) :
  (forall b, returns_only P (k b)) -> returns_only P (bind m k).
Proof.
  intros Hk s a s'. unfold bind.
  destruct (m s) as [[b|e] s1]; [apply Hk|done].
Qed.

Lemma returns_try (m : M S A) h :
  returns_only P m -> (forall e, returns_only P (h e)) ->
  returns_only P (try_except m h).
Proof.
  intros Hm Hh s a s'. unfold try_except. pose proof (Hm s) as Hs.
  destruct (m s) as [[b|e] s1]; [|apply Hh].
  intros [= <- _]. by eapply Hs.
Qed.

End ReturnsOnly.

Ltac keeps_step :=
  first
    [ apply keeps_ret; assumption
    | apply keeps_raise; assumption
    | apply keeps_lift; assumption
    | apply keeps_get; assumption
    | apply keeps_bind; [assumption| |intros ?]
    | apply keeps_try; [assumption| |intros ?]
    | apply keeps_for_each; [assumption|assumption|intros ?]
    | match goal with
      | |- Py.keeps _ (if ?b then _ else _) => destruct b
      | |- Py.keeps _ (match ?x with _ => _ end) => destruct x
      end ].

Section AgentKeeps.
Import Py Agent.
Variable svc : Services.
Variable R : State -> State -> Prop.
Variable allowed : Event -> Prop.
Variable thread : string.
Hypothesis R_refl : forall s, R s s.
Hypothesis R_trans : forall s1 s2 s3, R s1 s2 -> R s2 s3 -> R s1 s3.
Hypothesis R_chunk : forall c s, R s (with_chunk c s).
Hypothesis R_log : forall e s, allowed e -> R s (with_log e s).
Hypothesis R_memory : forall v s, R s (with_memory <[thread := v]> s).
Hypothesis allowed_other : forall e, is_retrieval_event e = false -> allowed e.

Lemma keeps_yield c : keeps R (yield c).
Proof. apply keeps_modify. apply R_chunk. Qed.

Lemma keeps_call {A} e (r : result A) : allowed e -> keeps R (call e r).
Proof.
  intros He. unfold call. apply keeps_bind; [assumption| |intros ?].
  - apply keeps_modify. intros s. by apply R_log.
  - by apply keeps_lift.
Qed.

Lemma keeps_log e : allowed e -> keeps R (modify (with_log e)).
Proof. intros He. apply keeps_modify. intros s. by apply R_log. Qed.

Lemma keeps_memory v : keeps R (modify (with_memory <[thread := v]>)).
Proof. apply keeps_modify. apply R_memory. Qed.

Ltac agent_step :=
  first
    [ keeps_step
    | apply keeps_yield
    | apply keeps_memory
    | apply keeps_log; apply allowed_other; reflexivity
    | apply keeps_call; apply allowed_other; reflexivity ].

Lemma keeps_graph_invoke msgs : keeps R (graph_invoke svc thread msgs).
Proof. unfold graph_invoke. repeat agent_step. Qed.

Lemma keeps_graph_stream msgs : keeps R (graph_stream svc thread msgs).
Proof. unfold graph_stream, yield_last_ai. repeat agent_step. Qed.

Lemma keeps_get_conversation_history :
  keeps R (get_conversation_history svc thread).
Proof. unfold get_conversation_history. repeat agent_step. Qed.

Lemma keeps_handle_history question :
  keeps R (_handle_history_question svc question thread).
Proof.
  unfold _handle_history_question.
  repeat first [apply keeps_graph_invoke | apply keeps_get_conversation_history
               | agent_step].
Qed.


Lemma keeps_retrieve question k use_reranking :
  (forall e, allowed e) ->
  keeps R (retrieve_with_citations svc question k use_reranking).
Proof.
  intros Hall. unfold retrieve_with_citations.
  repeat first [apply keeps_call; apply Hall | agent_step].
Qed.

Lemma keeps_generate question documents structured :
  (forall e, allowed e) ->
  keeps R (generate_with_citations svc question documents structured).
Proof.
  intros Hall. unfold generate_with_citations.
  repeat first [apply keeps_call; apply Hall | agent_step].
Qed.

Lemma keeps_emit_citation documents citation :
  keeps R (emit_citation documents citation).
Proof. unfold emit_citation. repeat agent_step. Qed.

Lemma keeps_as_quoted g : keeps R (as_quoted g).
Proof. unfold as_quoted. repeat agent_step. Qed.

(** The two entry points keep the relation: on every path when every
    call is allowed, and otherwise on the paths that do not retrieve. *)
Lemma keeps_ask_question question use_citations use_reranking config :
  thread_of config = thread ->
  (forall e, allowed e)
  \/ Classifier.is_conversation_history_question question = true
  \/ use_citations = false ->
  keeps R (ask_question svc question use_citations use_reranking config).
Proof.
  intros Hthread Hpath. unfold ask_question, last_content. cbv zeta.
  rewrite Hthread.
  apply keeps_try; [assumption| |intros e; by apply keeps_ret].
  destruct (Classifier.is_conversation_history_question question) eqn:Hclass.
  { repeat first [apply keeps_graph_invoke | apply keeps_get_conversation_history
                 | agent_step]. }
  destruct use_citations.
  - destruct Hpath as [Hall|[?|?]]; [|done..].
    repeat first [apply keeps_graph_invoke | by apply keeps_retrieve
                 | by apply keeps_generate | apply keeps_as_quoted
                 | agent_step].
  - repeat first [apply keeps_graph_invoke | agent_step].
Qed.

Lemma keeps_stream question use_citations use_reranking config :
  thread_of config = thread ->
  (forall e, allowed e)
  \/ Classifier.is_conversation_history_question question = true
  \/ use_citations = false ->
  keeps R (stream_response_with_citations svc question use_citations
             use_reranking config).
Proof.
  intros Hthread Hpath. unfold stream_response_with_citations. cbv zeta.
  rewrite Hthread.
  apply keeps_try; [assumption| |intros e; apply keeps_yield].
  destruct (Classifier.is_conversation_history_question question) eqn:Hclass.
  { apply keeps_handle_history. }
  destruct use_citations.
  - destruct Hpath as [Hall|[?|?]]; [|done..].
    repeat first [apply keeps_graph_invoke | by apply keeps_retrieve
                 | by apply keeps_generate | apply keeps_as_quoted
                 | apply keeps_emit_citation | agent_step].
  - repeat first [apply keeps_graph_stream | agent_step].
Qed.

End AgentKeeps.

Section Relations.
Import Py Agent.

Lemma extends_yielded_refl s : extends_yielded s s.
Proof. exists []. by rewrite app_nil_r. Qed.

Lemma extends_yielded_trans s1 s2 s3 :
  extends_yielded s1 s2 -> extends_yielded s2 s3 -> extends_yielded s1 s3.
Proof.
  intros [e1 H1] [e2 H2]. exists (e1 ++ e2)%list.
  by rewrite H2, H1, app_assoc.
Qed.

Lemma same_elsewhere_refl thread s : same_elsewhere thread s s.
Proof. by split. Qed.

Lemma same_elsewhere_trans thread s1 s2 s3 :
  same_elsewhere thread s1 s2 -> same_elsewhere thread s2 s3 ->
  same_elsewhere thread s1 s3.
Proof.
  intros [Hg1 Hm1] [Hg2 Hm2]. split; [congruence|].
  intros t Ht. by rewrite Hm2, Hm1.
Qed.

Lemma same_elsewhere_memory thread v s :
  same_elsewhere thread s (with_memory <[thread := v]> s).
Proof.
  split; [done|]. intros t Ht. simpl. by apply lookup_insert_ne.
Qed.

Lemma no_retrieval_refl s : no_retrieval s s.
Proof. exists []. by rewrite app_nil_r. Qed.

Lemma no_retrieval_trans s1 s2 s3 :
  no_retrieval s1 s2 -> no_retrieval s2 s3 -> no_retrieval s1 s3.
Proof.
  intros (n1 & H1 & F1) (n2 & H2 & F2). exists (n1 ++ n2)%list. split.
  - by rewrite H2, H1, app_assoc.
  - by apply Forall_app.
Qed.

Lemma no_retrieval_log e s :
  is_retrieval_event e = false -> no_retrieval s (with_log e s).
Proof. intros He. exists [e]. split; [done|]. by constructor. Qed.

Lemma extends_yielded_chunk c s : extends_yielded s (with_chunk c s).
Proof. by exists [c]. Qed.

Lemma extends_yielded_log e s : extends_yielded s (with_log e s).
Proof. exists []. simpl. by rewrite app_nil_r. Qed.

Lemma extends_yielded_memory f s : extends_yielded s (with_memory f s).
Proof. exists []. simpl. by rewrite app_nil_r. Qed.

Lemma same_elsewhere_chunk thread c s : same_elsewhere thread s (with_chunk c s).
Proof. by split. Qed.

Lemma same_elsewhere_log thread e s : same_elsewhere thread s (with_log e s).
Proof. by split. Qed.

Lemma no_retrieval_chunk c s : no_retrieval s (with_chunk c s).
Proof. exists []. simpl. by rewrite app_nil_r. Qed.

Lemma no_retrieval_memory f s : no_retrieval s (with_memory f s).
Proof. exists []. simpl. by rewrite app_nil_r. Qed.

(** A [try] block whose handler returns never raises. *)
Lemma try_except_returns {S A} (m : M S A) h :
  (forall e s, exists a s', h e s = (Ok a, s')) ->
  forall s, exists a s', try_except m h s = (Ok a, s').
Proof.
  intros Hh s. unfold try_except.
  destruct (m s) as [[a|e] s1]; [by eexists _, _|apply Hh].
Qed.

End Relations.

Section EntryPoints.
Import Py Agent.
Variable svc : Services.

(** [ask_question] on the paths that build their answer: the history
    path and the path without citations. *)
Lemma ask_builds_its_answer question use_citations use_reranking config :
  Classifier.is_conversation_history_question question = true
  \/ use_citations = false ->
  returns_only (fun g => exists a, g = GenQuoted a)
    (ask_question svc question use_citations use_reranking config).
Proof.
  intros Hpath. unfold ask_question. cbv zeta.
  apply returns_try; [|intros e; apply returns_ret; eauto].
  destruct (Classifier.is_conversation_history_question question).
  - apply returns_bind. intros [|m history].
    + apply returns_ret. eauto.
    + repeat (apply returns_bind; intros ?). apply returns_ret. eauto.
  - destruct Hpath as [? | ->]; [done|].
    apply returns_bind. intros s0. destruct (graph s0).
    + repeat (apply returns_bind; intros ?). apply returns_ret. eauto.
    + repeat (apply returns_bind; intros ?). apply returns_ret. eauto.
Qed.

End EntryPoints.

(** ** The citation path, step by step *)

Section CitationPath.
Import Py Agent.
Variable svc : Services.

(** Retrieval changes nothing but the list of calls. *)
Lemma retrieve_frame question k use_reranking s :
  let s1 := snd (retrieve_with_citations svc question k use_reranking s) in
  graph s1 = graph s /\ memory s1 = memory s /\ yielded s1 = yielded s.
Proof.
  rewrite retrieve_cases; simpl.
  destruct (similarity_search svc question k); [|done].
  destruct (use_reranking && cohere_key svc); [|done].
  by destruct (rerank svc question k 4).
Qed.

Lemma retrieve_returns question k use_reranking s :
  exists documents s',
    retrieve_with_citations svc question k use_reranking s = (Ok documents, s').
Proof.
  rewrite retrieve_cases; simpl.
  destruct (similarity_search svc question k); [|by eexists _, _].
  destruct (use_reranking && cohere_key svc); [|by eexists _, _].
  destruct (rerank svc question k 4); by eexists _, _.
Qed.

(** The messages of the thread after an exchange was handed to the
    graph: the input is remembered, and the model's reply when the model
    answers. *)
Lemma graph_invoke_run thread msgs s :
  let history := (default [] (memory s !! thread) ++ msgs)%list in
  exists s',
    graph_invoke svc thread msgs s =
    (match llm svc history with
     | Ok reply => Ok (history ++ [AIMessage reply])%list
     | Raised e => Raised e
     end, s')
    /\ graph s' = graph s
    /\ yielded s' = yielded s
    /\ memory s' =
       <[thread := match llm svc history with
                   | Ok reply => (history ++ [AIMessage reply])%list
                   | Raised _ => history
                   end]> (memory s).
Proof.
  intros history. unfold graph_invoke. py_run. fold history.
  destruct (llm svc history) as [reply|e]; simpl.
  - eexists. split; [reflexivity|]. simpl. repeat split.
    by rewrite insert_insert_eq.
  - eexists. split; [reflexivity|]. done.
Qed.

(** [ask_question] on the citation path, once documents were retrieved:
    by cases on what the chain did. *)
Lemma ask_citation_path question use_reranking config s documents :
  Classifier.is_conversation_history_question question = false ->
  fst (retrieve_with_citations svc question default_k use_reranking s)
  = Ok documents ->
  documents <> [] ->
  let s1 := snd (retrieve_with_citations svc question default_k use_reranking s) in
  let s2 := with_log (EvChain true (format_docs_with_id documents) question) s1 in
  let saved response :=
    if graph s then
      match graph_invoke svc (thread_of config)
              (exchange question (answer response)) s2 with
      | (Ok _, s3) => (Ok (GenQuoted response), s3)
      | (Raised e, s3) =>
          (Ok (GenQuoted {| answer := processing_failure e; citations := [] |}),
           s3)
      end
    else (Ok (GenQuoted response), s2) in
  ask_question svc question true use_reranking config s =
  match structured_chain svc (format_docs_with_id documents) question with
  | Ok (Some response) => saved response
  | Ok None =>
      if graph s then
        (Ok (GenQuoted
               {| answer :=
                    processing_failure
                      (Exn "'NoneType' object has no attribute 'answer'");
                  citations := [] |}), s2)
      else (Ok GenNone, s2)
  | Raised e => saved {| answer := generation_failure e; citations := [] |}
  end.
Proof.
  intros Hclass Hdocs Hne s1 s2 saved.
  destruct (retrieve_frame question default_k use_reranking s) as (Hg & _ & _).
  fold s1 in Hg. subst saved s2.
  unfold ask_question. rewrite Hclass. unfold try_except.
  unfold bind at 1. subst s1.
  destruct (retrieve_with_citations svc question default_k use_reranking s)
    as [r s1]. simpl in Hdocs, Hg. subst r. simpl snd.
  destruct documents as [|d ds]; [done|].
  set (documents := d :: ds) in *.
  unfold bind at 1. rewrite generate_structured_cases. cbv zeta.
  set (s2 := with_log (EvChain true (format_docs_with_id documents) question) s1).
  assert (Hg2 : graph s2 = graph s) by exact Hg.
  destruct (structured_chain svc (format_docs_with_id documents) question)
    as [[response|]|e].
  - unfold bind at 1, get at 1. rewrite Hg2.
    destruct (graph s).
    + unfold bind at 1. unfold bind at 1. unfold as_quoted at 1, ret at 1.
      unfold bind at 1.
      destruct (graph_invoke svc (thread_of config)
                  (exchange question (answer response)) s2) as [[final|e] s3];
        done.
    + done.
  - unfold bind at 1, get at 1. rewrite Hg2. by destruct (graph s).
  - unfold bind at 1, get at 1. rewrite Hg2.
    destruct (graph s).
    + unfold bind at 1. unfold bind at 1. unfold as_quoted at 1, ret at 1.
      unfold bind at 1.
      match goal with
      | |- context [graph_invoke svc ?t ?m s2] =>
          destruct (graph_invoke svc t m s2) as [[final|e'] s3]
      end; done.
    + done.
Qed.

(** X6. [ask_question] never raises: whatever the question, the flags and
    the services' answers, it returns.  What it returns is a
    [QuotedAnswer] except in one case: on the citation path of an agent
    without a graph, when documents were retrieved and the
    structured-output chain returned [None], that [None] is returned as
    it is.  When the call of the model raises (here on the path without
    citations and without a graph), the answer is the text "An error
    occurred while processing your question: " followed by the text of
    the exception, with no citations. *)
Theorem ask_question_never_raises question use_citations use_reranking config s :
  exists g s',
    ask_question svc question use_citations use_reranking config s = (Ok g, s')
    /\ ((exists a, g = GenQuoted a)
        \/ (g = GenNone
            /\ Classifier.is_conversation_history_question question = false
            /\ use_citations = true
            /\ graph s = false
            /\ exists documents,
                fst (retrieve_with_citations svc question default_k
                       use_reranking s) = Ok documents
                /\ documents <> []
                /\ structured_chain svc (format_docs_with_id documents)
                     question = Ok None))
    /\ (forall e,
          Classifier.is_conversation_history_question question = false ->
          use_citations = false ->
          graph s = false ->
          llm svc [HumanMessage question] = Raised e ->
          g = GenQuoted
                {| answer :=
                     "An error occurred while processing your question: "
                     ++ exn_str e;
                   citations := [] |}).
Proof.
  assert (Hret : exists g s',
            ask_question svc question use_citations use_reranking config s
            = (Ok g, s')).
  { unfold ask_question. apply try_except_returns.
    intros e s0. by eexists _, _. }
  destruct Hret as (g & s' & Hrun). exists g, s'. split; [exact Hrun|]. split.
  - destruct (Classifier.is_conversation_history_question question) eqn:Hclass.
    { left. eapply (ask_builds_its_answer svc); [|exact Hrun]. by left. }
    destruct use_citations.
    2:{ left. eapply (ask_builds_its_answer svc); [|exact Hrun]. by right. }
    destruct (retrieve_returns question default_k use_reranking s)
      as (documents & s1 & Hretrieve).
    assert (Hdocs : fst (retrieve_with_citations svc question default_k
                           use_reranking s) = Ok documents)
      by (by rewrite Hretrieve).
    destruct documents as [|d ds].
    { left. revert Hrun. unfold ask_question. rewrite Hclass.
      unfold try_except, bind. rewrite Hretrieve. unfold ret.
      intros [= <- _]. eauto. }
    assert (Hne : d :: ds <> []) by done.
    rewrite (ask_citation_path question use_reranking config s (d :: ds)
               Hclass Hdocs Hne) in Hrun.
    cbv zeta in Hrun.
    destruct (structured_chain svc (format_docs_with_id (d :: ds)) question)
      as [[response|]|e] eqn:Hchain.
    + left. destruct (graph s).
      * match type of Hrun with
        | context [graph_invoke svc ?t ?m ?st] =>
            destruct (graph_invoke svc t m st) as [[final|e'] s3]
        end; injection Hrun as <- _; eauto.
      * injection Hrun as <- _. eauto.
    + destruct (graph s) eqn:Hgraph.
      * left. injection Hrun as <- _. eauto.
      * right. injection Hrun as <- _. repeat split; try done.
        exists (d :: ds). by rewrite Hchain.
    + left. destruct (graph s).
      * match type of Hrun with
        | context [graph_invoke svc ?t ?m ?st] =>
            destruct (graph_invoke svc t m st) as [[final|e'] s3]
        end; injection Hrun as <- _; eauto.
      * injection Hrun as <- _. eauto.
  - intros e Hclass -> Hgraph Hllm. revert Hrun.
    unfold ask_question. rewrite Hclass. py_run. rewrite Hgraph. simpl.
    rewrite Hllm. simpl. by intros [= <- _].
Qed.

End CitationPath.

Section EntryPointsStream.
Import Py Agent.
Variable svc : Services.

(** X7. The streaming generator never raises: it ends normally whatever
    the services do, and the chunks it yielded before are kept, later
    chunks being added after them. *)
Theorem stream_response_never_raises
        question use_citations use_reranking config s :
  exists s',
    stream_response_with_citations svc question use_citations use_reranking
      config s = (Ok tt, s')
    /\ extends_yielded s s'.
Proof.
  assert (Hret : exists a s',
            stream_response_with_citations svc question use_citations
              use_reranking config s = (Ok a, s')).
  { unfold stream_response_with_citations. apply try_except_returns.
    intros e s0. by eexists _, _. }
  destruct Hret as ([] & s' & Hrun). exists s'. split; [exact Hrun|].
  pose proof (keeps_stream svc extends_yielded (fun _ => True)
                (thread_of config) extends_yielded_refl extends_yielded_trans)
    as Hkeeps.
  specialize (Hkeeps extends_yielded_chunk
                     ltac:(by intros e s0 _; apply extends_yielded_log)
                     ltac:(by intros v s0; apply extends_yielded_memory)
                     ltac:(done)
                     question use_citations use_reranking config eq_refl
                     ltac:(by left) s).
  by rewrite Hrun in Hkeeps.
Qed.

(** X8. The vector store, the reranker and the citation chain are called
    only on the citation path: when the question is classified as a
    history question, or when citations are switched off, neither entry
    point makes a retrieval call. *)
Theorem retrieval_only_on_citation_path
        question use_citations use_reranking config s :
  Classifier.is_conversation_history_question question = true
  \/ use_citations = false ->
  no_retrieval s (snd (ask_question svc question use_citations use_reranking
                         config s))
  /\ no_retrieval s (snd (stream_response_with_citations svc question
                            use_citations use_reranking config s)).
Proof.
  intros Hpath. split.
  - exact (keeps_ask_question svc no_retrieval
             (fun e => is_retrieval_event e = false) (thread_of config)
             no_retrieval_refl no_retrieval_trans
             no_retrieval_log (fun v s0 => no_retrieval_memory _ s0)
             (fun e H => H) question use_citations use_reranking config
             eq_refl (or_intror Hpath) s).
  - exact (keeps_stream svc no_retrieval
             (fun e => is_retrieval_event e = false) (thread_of config)
             no_retrieval_refl no_retrieval_trans no_retrieval_chunk
             no_retrieval_log (fun v s0 => no_retrieval_memory _ s0)
             (fun e H => H) question use_citations use_reranking config
             eq_refl (or_intror Hpath) s).
Qed.

(** X9. Conversations are kept apart: a call of either entry point for
    one thread leaves the remembered messages of every other thread, and
    the graph, as they were. *)
Theorem other_threads_are_untouched
        question use_citations use_reranking config s other :
  other <> thread_of config ->
  let after_ask :=
    snd (ask_question svc question use_citations use_reranking config s) in
  let after_stream :=
    snd (stream_response_with_citations svc question use_citations
           use_reranking config s) in
  memory after_ask !! other = memory s !! other
  /\ memory after_stream !! other = memory s !! other
  /\ graph after_ask = graph s
  /\ graph after_stream = graph s.
Proof.
  intros Hother after_ask after_stream.
  assert (Hask : same_elsewhere (thread_of config) s after_ask).
  { exact (keeps_ask_question svc (same_elsewhere (thread_of config))
             (fun _ => True) (thread_of config)
             (same_elsewhere_refl _) (same_elsewhere_trans _)
             (fun e s0 _ => same_elsewhere_log _ e s0)
             (same_elsewhere_memory _) (fun _ _ => I)
             question use_citations use_reranking config eq_refl
             (or_introl (fun _ => I)) s). }
  assert (Hstream : same_elsewhere (thread_of config) s after_stream).
  { exact (keeps_stream svc (same_elsewhere (thread_of config))
             (fun _ => True) (thread_of config)
             (same_elsewhere_refl _) (same_elsewhere_trans _)
             (same_elsewhere_chunk _)
             (fun e s0 _ => same_elsewhere_log _ e s0)
             (same_elsewhere_memory _) (fun _ _ => I)
             question use_citations use_reranking config eq_refl
             (or_introl (fun _ => I)) s). }
  destruct Hask as [Hg1 Hm1], Hstream as [Hg2 Hm2].
  repeat split; auto.
Qed.

End EntryPointsStream.

Section CitationStream.
Import Py Agent.
Variable svc : Services.

(** Saving the exchange at the end of the stream: a warning chunk when
    the model raises inside the graph's call. *)
Lemma save_exchange_run thread msgs s :
  let history := (default [] (memory s !! thread) ++ msgs)%list in
  exists s',
    (if graph s then
       try_except (bind (graph_invoke svc thread msgs) (fun _ => ret tt))
                  (fun e => yield (ChWarning (save_failure e)))
     else ret tt) s = (Ok tt, s')
    /\ graph s' = graph s
    /\ yielded s' =
       (yielded s ++
        if graph s then
          match llm svc history with
          | Ok _ => []
          | Raised e => [ChWarning (save_failure e)]
          end
        else [])%list
    /\ memory s' =
       if graph s then
         <[thread := match llm svc history with
                     | Ok reply => (history ++ [AIMessage reply])%list
                     | Raised _ => history
                     end]> (memory s)
       else memory s.
Proof.
  intros history. destruct (graph s) eqn:Hg.
  - destruct (graph_invoke_run svc thread msgs s) as (s3 & Hrun & Hg3 & Hy3 & Hm3).
    fold history in Hrun, Hm3. unfold try_except, bind. rewrite Hrun.
    destruct (llm svc history) as [reply|e]; simpl.
    + exists s3. rewrite Hy3, app_nil_r. repeat split; [congruence|done].
    + eexists. split; [reflexivity|]. simpl. rewrite Hy3.
      repeat split; [congruence|done].
  - exists s. rewrite app_nil_r. repeat split; done.
Qed.

(** The stream on the citation path, when no citation makes the indexing
    raise: the chunks, and what is remembered afterwards. *)
Lemma stream_citation_path_exact
      question use_reranking config s documents response :
  Classifier.is_conversation_history_question question = false ->
  fst (retrieve_with_citations svc question default_k use_reranking s)
  = Ok documents ->
  documents <> [] ->
  structured_chain svc (format_docs_with_id documents) question
  = Ok (Some response) ->
  Forall (fun c => (- Z.of_nat (List.length documents) <= source_id c)%Z)
         (citations response) ->
  let history := (default [] (memory s !! thread_of config)
                  ++ exchange question (answer response))%list in
  exists s',
    stream_response_with_citations svc question true use_reranking config s
    = (Ok tt, s')
    /\ yielded s' =
       (yielded s
        ++ [ChStatus StRetrieving; ChStatus (StRetrieved (List.length documents));
            ChStatus StGenerating; ChAnswer (answer response)]
        ++ (match citations response with
            | [] => []
            | _ :: _ => [ChCitationsHeader]
            end)
        ++ List.concat (List.map (emitted documents) (citations response))
        ++ if graph s then
             match llm svc history with
             | Ok _ => []
             | Raised e => [ChWarning (save_failure e)]
             end
           else [])%list
    /\ memory s' =
       if graph s then
         <[thread_of config :=
             match llm svc history with
             | Ok reply => (history ++ [AIMessage reply])%list
             | Raised _ => history
             end]> (memory s)
       else memory s.
Proof.
  intros Hclass Hdocs Hne Hchain Hall history.
  unfold stream_response_with_citations. rewrite Hclass.
  unfold try_except at 1. unfold bind at 1. unfold yield at 1.
  unfold modify at 1. unfold bind at 1.
  pose proof (retrieve_result_any_state svc question default_k use_reranking
                (with_chunk (ChStatus StRetrieving) s) s) as Hsame.
  destruct (retrieve_frame svc question default_k use_reranking
              (with_chunk (ChStatus StRetrieving) s)) as (Hg & Hm & Hkeep).
  destruct (retrieve_with_citations svc question default_k use_reranking
              (with_chunk (ChStatus StRetrieving) s)) as [r s1].
  simpl in Hsame, Hkeep, Hg, Hm. rewrite Hdocs in Hsame. subst r.
  destruct documents as [|d ds]; [done|].
  set (documents := d :: ds) in *.
  unfold bind at 1. unfold yield at 1, modify at 1.
  unfold bind at 1. unfold yield at 1, modify at 1.
  unfold bind at 1. rewrite generate_structured_cases. simpl.
  rewrite Hchain.
  unfold bind at 1. unfold as_quoted, ret at 1.
  unfold bind at 1. unfold yield at 1, modify at 1.
  unfold bind at 1.
  destruct (citations response) as [|c cs] eqn:Hcs.
  - unfold ret at 1. unfold bind at 1, get at 1.
    match goal with
    | |- context [(if graph ?st then _ else _) ?st] =>
        destruct (save_exchange_run (thread_of config)
                    (exchange question (answer response)) st)
          as (s' & Hsave & _ & Hy & Hmem)
    end.
    simpl in Hsave, Hy, Hmem. rewrite Hm, Hg in Hy, Hmem. fold history in Hy, Hmem.
    simpl. rewrite Hsave.
    exists s'. split; [done|]. split; [|exact Hmem]. rewrite Hy, Hkeep.
    simpl. rewrite <- !app_assoc. done.
  - unfold bind at 1. unfold yield at 1, modify at 1.
    rewrite (citation_loop_yields _ _ _ Hall).
    unfold bind at 1, get at 1.
    match goal with
    | |- context [(if graph ?st then _ else _) ?st] =>
        destruct (save_exchange_run (thread_of config)
                    (exchange question (answer response)) st)
          as (s' & Hsave & _ & Hy & Hmem)
    end.
    simpl in Hsave, Hy, Hmem. rewrite Hm, Hg in Hy, Hmem. fold history in Hy, Hmem.
    simpl. rewrite Hsave.
    exists s'. split; [done|]. split; [|exact Hmem]. rewrite Hy, Hkeep.
    simpl. rewrite <- !app_assoc. done.
Qed.

(** X10. What [ask_question] saves is what the history reads back: after
    a cited answer on an agent with a graph, when the model answers the
    graph's call with [reply], the conversation history of the thread is
    the earlier history followed by the question, the answer and the
    model's reply to the saved exchange. *)
Theorem ask_question_saves_exchange
        question use_reranking config s documents response reply :
  Classifier.is_conversation_history_question question = false ->
  graph s = true ->
  fst (retrieve_with_citations svc question default_k use_reranking s)
  = Ok documents ->
  documents <> [] ->
  structured_chain svc (format_docs_with_id documents) question
  = Ok (Some response) ->
  llm svc (default [] (memory s !! thread_of config)
           ++ exchange question (answer response))%list = Ok reply ->
  get_state_fault svc (thread_of config) = None ->
  exists s',
    ask_question svc question true use_reranking config s
    = (Ok (GenQuoted response), s')
    /\ fst (get_conversation_history svc (thread_of config) s') =
       Ok (default [] (memory s !! thread_of config)
           ++ [HumanMessage question; AIMessage (answer response);
               AIMessage reply])%list.
Proof.
  intros Hclass Hgraph Hdocs Hne Hchain Hllm Hfault.
  rewrite (ask_citation_path svc _ _ _ _ _ Hclass Hdocs Hne). cbv zeta.
  rewrite Hchain, Hgraph.
  destruct (retrieve_frame svc question default_k use_reranking s) as (Hg & Hm & _).
  match goal with
  | |- context [graph_invoke svc ?t ?msgs ?st] =>
      destruct (graph_invoke_run svc t msgs st) as (s3 & Hrun & Hg3 & _ & Hm3)
  end.
  simpl in Hrun, Hm3, Hg3. rewrite Hm in Hrun, Hm3. rewrite Hllm in Hrun, Hm3.
  rewrite Hrun. exists s3. split; [done|].
  unfold get_conversation_history. py_run.
  rewrite Hg3, Hg, Hgraph. simpl. rewrite Hfault. simpl.
  rewrite Hm3, lookup_insert_eq. simpl. by rewrite <- app_assoc.
Qed.

(** X11. A failure to save is handled differently by the two entry
    points.  When the model raises inside the graph's call that saves the
    exchange, [ask_question] returns the "error occurred" answer in place
    of the answer that was generated, while the generator has yielded the
    generated answer and ends with a warning chunk. *)
Theorem ask_question_loses_answer_when_saving_fails
        question use_reranking config s documents response e :
  Classifier.is_conversation_history_question question = false ->
  graph s = true ->
  fst (retrieve_with_citations svc question default_k use_reranking s)
  = Ok documents ->
  documents <> [] ->
  structured_chain svc (format_docs_with_id documents) question
  = Ok (Some response) ->
  llm svc (default [] (memory s !! thread_of config)
           ++ exchange question (answer response))%list = Raised e ->
  Forall (fun c => (- Z.of_nat (List.length documents) <= source_id c)%Z)
         (citations response) ->
  (exists s',
      ask_question svc question true use_reranking config s =
      (Ok (GenQuoted {| answer := processing_failure e; citations := [] |}),
       s'))
  /\ (exists s',
         stream_response_with_citations svc question true use_reranking
           config s = (Ok tt, s')
         /\ In (ChAnswer (answer response)) (yielded s')
         /\ last (yielded s') = Some (ChWarning (save_failure e))).
Proof.
  intros Hclass Hgraph Hdocs Hne Hchain Hllm Hall. split.
  - rewrite (ask_citation_path svc _ _ _ _ _ Hclass Hdocs Hne). cbv zeta.
    rewrite Hchain, Hgraph.
    destruct (retrieve_frame svc question default_k use_reranking s)
      as (Hg & Hm & _).
    match goal with
    | |- context [graph_invoke svc ?t ?msgs ?st] =>
        destruct (graph_invoke_run svc t msgs st) as (s3 & Hrun & _)
    end.
    simpl in Hrun. rewrite Hm in Hrun. rewrite Hllm in Hrun.
    rewrite Hrun. by exists s3.
  - destruct (stream_citation_path_exact question use_reranking config s
                documents response Hclass Hdocs Hne Hchain Hall)
      as (s' & Hrun & Hy & _).
    rewrite Hgraph, Hllm in Hy. exists s'. split; [exact Hrun|].
    rewrite Hy. split.
    + apply in_or_app. right. simpl. auto.
    + rewrite !app_assoc. apply last_snoc.
Qed.

(** Indexing below [-len(l)] raises. *)
Lemma py_index_far_negative {A} (l : list A) (i : Z) :
  (i < - Z.of_nat (List.length l))%Z ->
  py_index l i = Raised (index_error i).
Proof.
  intros Hi. unfold py_index.
  assert (Hlt : (i <? 0)%Z = true) by (apply Z.ltb_lt; lia).
  rewrite Hlt.
  assert (Hout : (0 <=? Z.of_nat (List.length l) + i)%Z = false)
    by (apply Z.leb_gt; lia).
  by rewrite Hout.
Qed.

Lemma py_index_nonnegative {A} (l : list A) (i : Z) :
  (0 <= i < Z.of_nat (List.length l))%Z ->
  exists x, l !! Z.to_nat i = Some x /\ py_index l i = Ok x.
Proof.
  intros Hi. unfold py_index.
  assert (Hlt : (i <? 0)%Z = false) by (apply Z.ltb_ge; lia).
  rewrite Hlt.
  assert (Hin : ((0 <=? i)%Z && (i <? Z.of_nat (List.length l))%Z) = true).
  { apply andb_true_iff. split; [apply Z.leb_le|apply Z.ltb_lt]; lia. }
  rewrite Hin.
  destruct (l !! Z.to_nat i) as [x|] eqn:Hx; [eauto|].
  apply lookup_ge_None in Hx. lia.
Qed.

(** The citation loop stops at the first citation that reaches below
    [-len(documents)]. *)
Lemma citation_loop_raises documents pre c post s :
  Forall (fun c => (- Z.of_nat (List.length documents) <= source_id c)%Z) pre ->
  (source_id c < - Z.of_nat (List.length documents))%Z ->
  for_each (pre ++ c :: post) (emit_citation documents) s =
  (Raised (index_error (source_id c)),
   {| graph := graph s; memory := memory s; log := log s;
      yielded := (yielded s ++ List.concat (List.map (emitted documents) pre))%list |}).
Proof.
  intros Hpre Hc. revert s. induction Hpre as [|p pre Hp _ IH]; intros s.
  - cbn [app for_each]. unfold bind, emit_citation.
    assert (Hguard : (source_id c <? Z.of_nat (List.length documents))%Z = true)
      by (apply Z.ltb_lt; lia).
    rewrite Hguard. unfold bind, lift.
    rewrite (py_index_far_negative _ _ Hc). simpl. rewrite app_nil_r.
    by destruct s.
  - cbn [app for_each]. unfold bind at 1.
    rewrite (emit_citation_yields _ _ _ Hp). rewrite IH. simpl.
    by rewrite app_assoc.
Qed.

(** X12. A citation whose [source_id] reaches below [-len(documents)]
    stops the stream: the answer and the chunks of the citations before
    it were yielded, indexing raises [IndexError], the generator ends
    with an error chunk, and the exchange is not saved to the
    conversation memory.  The text of the chunk is "An error occurred:
    list index out of range" when the [source_id] is at least [-2^63],
    and "An error occurred: cannot fit 'int' into an index-sized integer"
    below that. *)
Theorem stream_stops_at_far_negative_source_id
        question use_reranking config s documents response pre c post :
  Classifier.is_conversation_history_question question = false ->
  fst (retrieve_with_citations svc question default_k use_reranking s)
  = Ok documents ->
  documents <> [] ->
  structured_chain svc (format_docs_with_id documents) question
  = Ok (Some response) ->
  citations response = (pre ++ c :: post)%list ->
  Forall (fun c => (- Z.of_nat (List.length documents) <= source_id c)%Z) pre ->
  (source_id c < - Z.of_nat (List.length documents))%Z ->
  exists s',
    stream_response_with_citations svc question true use_reranking config s
    = (Ok tt, s')
    /\ yielded s' =
       (yielded s
        ++ [ChStatus StRetrieving; ChStatus (StRetrieved (List.length documents));
            ChStatus StGenerating; ChAnswer (answer response);
            ChCitationsHeader]
        ++ List.concat (List.map (emitted documents) pre)
        ++ [ChError
              (if (- 2 ^ 63 <=? source_id c)%Z
               then "An error occurred: list index out of range"
               else "An error occurred: cannot fit 'int' into an index-sized integer")])%list
    /\ memory s' = memory s.
Proof.
  intros Hclass Hdocs Hne Hchain Hcs Hpre Hc.
  unfold stream_response_with_citations. rewrite Hclass.
  unfold try_except at 1. unfold bind at 1. unfold yield at 1.
  unfold modify at 1. unfold bind at 1.
  pose proof (retrieve_result_any_state svc question default_k use_reranking
                (with_chunk (ChStatus StRetrieving) s) s) as Hsame.
  destruct (retrieve_frame svc question default_k use_reranking
              (with_chunk (ChStatus StRetrieving) s)) as (Hg & Hm & Hkeep).
  destruct (retrieve_with_citations svc question default_k use_reranking
              (with_chunk (ChStatus StRetrieving) s)) as [r s1].
  simpl in Hsame, Hkeep, Hg, Hm. rewrite Hdocs in Hsame. subst r.
  destruct documents as [|d ds]; [done|].
  set (documents := d :: ds) in *.
  unfold bind at 1. unfold yield at 1, modify at 1.
  unfold bind at 1. unfold yield at 1, modify at 1.
  unfold bind at 1. rewrite generate_structured_cases. simpl.
  rewrite Hchain.
  unfold bind at 1. unfold as_quoted, ret at 1.
  unfold bind at 1. unfold yield at 1, modify at 1.
  unfold bind at 1. rewrite Hcs.
  destruct (pre ++ c :: post)%list as [|c0 cs0] eqn:Hlist.
  { by destruct pre. }
  unfold bind at 1. unfold yield at 1, modify at 1.
  rewrite <- Hlist. rewrite (citation_loop_raises _ _ _ _ _ Hpre Hc).
  unfold yield, modify. cbn [fst snd]. eexists. split; [reflexivity|].
  split; [|exact Hm].
  assert (Herr : "An error occurred: " ++ exn_str (index_error (source_id c))
                 = if (- 2 ^ 63 <=? source_id c)%Z
                   then "An error occurred: list index out of range"
                   else "An error occurred: cannot fit 'int' into an index-sized integer").
  { unfold index_error, fits_index.
    assert (Hup : (source_id c <? 2 ^ 63)%Z = true) by (apply Z.ltb_lt; lia).
    rewrite Hup, andb_true_r.
    by destruct (- 2 ^ 63 <=? source_id c)%Z. }
  rewrite <- Herr. cbn [yielded with_chunk with_log]. rewrite Hkeep.
  cbn [yielded with_chunk]. rewrite <- !app_assoc. done.
Qed.

(** What was yielded stays yielded. *)
Lemma yielded_stays {A} (m : M State A) s chunk :
  keeps extends_yielded m ->
  In chunk (yielded s) -> In chunk (yielded (snd (m s))).
Proof.
  intros Hm Hin. destruct (Hm s) as [extra ->]. apply in_or_app. by left.
Qed.

Lemma yielded_stays_try {A} (m : M State A) h s chunk :
  (forall e, keeps extends_yielded (h e)) ->
  In chunk (yielded (snd (m s))) ->
  In chunk (yielded (snd (try_except m h s))).
Proof.
  intros Hh Hin. unfold try_except.
  destruct (m s) as [[a|e] s1]; [done|]. by apply yielded_stays.
Qed.

Lemma emit_citation_extends documents c :
  keeps extends_yielded (emit_citation documents c).
Proof.
  apply (keeps_emit_citation extends_yielded extends_yielded_refl
           extends_yielded_trans extends_yielded_chunk).
Qed.

(** The end of the citation path: the exchange is handed to the graph
    when there is one. *)
Lemma save_extends thread msgs :
  keeps extends_yielded
    (bind get
       (fun st : State =>
          if graph st then
            try_except (bind (graph_invoke svc thread msgs) (fun _ => ret tt))
                       (fun e => yield (ChWarning (save_failure e)))
          else ret tt)).
Proof.
  apply keeps_bind; [exact extends_yielded_trans| |].
  { apply keeps_get, extends_yielded_refl. }
  intros st. destruct (graph st); [|apply keeps_ret, extends_yielded_refl].
  apply keeps_try; [exact extends_yielded_trans| |].
  - apply keeps_bind; [exact extends_yielded_trans| |].
    + apply (keeps_graph_invoke svc extends_yielded (fun _ => True) thread
               extends_yielded_refl extends_yielded_trans
               (fun e s0 _ => extends_yielded_log e s0)
               (fun v s0 => extends_yielded_memory _ s0) (fun _ _ => I)).
    + intros _. apply keeps_ret, extends_yielded_refl.
  - intros e. apply keeps_yield, extends_yielded_chunk.
Qed.

(** The loop gets as far as a citation when no citation before it makes
    the indexing raise. *)
Lemma citation_loop_reaches documents before c after s :
  Forall (fun c => (- Z.of_nat (List.length documents) <= source_id c)%Z)
         before ->
  (- Z.of_nat (List.length documents) <= source_id c)%Z ->
  for_each (before ++ c :: after) (emit_citation documents) s =
  for_each after (emit_citation documents)
    {| graph := graph s; memory := memory s; log := log s;
       yielded := (yielded s
                   ++ List.concat (List.map (emitted documents) before)
                   ++ emitted documents c)%list |}.
Proof.
  intros Hbefore Hc. revert s.
  induction Hbefore as [|p before Hp _ IH]; intros s.
  - cbn [app for_each List.map List.concat]. unfold bind at 1.
    by rewrite (emit_citation_yields _ _ _ Hc).
  - cbn [app for_each List.map List.concat]. unfold bind at 1.
    rewrite (emit_citation_yields _ _ _ Hp), IH. cbn [graph memory log yielded].
    by rewrite <- !app_assoc.
Qed.

Lemma bind_bind_at {A B C} (m : M State A) (f : A -> M State B)
      (k : B -> M State C) s :
  bind (bind m f) k s = bind m (fun a => bind (f a) k) s.
Proof. unfold bind. by destruct (m s) as [[a|e] s1]. Qed.

Lemma citation_loop_reaches_then {B} (k : unit -> M State B)
      documents before c after s :
  Forall (fun c => (- Z.of_nat (List.length documents) <= source_id c)%Z)
         before ->
  (- Z.of_nat (List.length documents) <= source_id c)%Z ->
  bind (for_each (before ++ c :: after) (emit_citation documents)) k s =
  bind (for_each after (emit_citation documents)) k
    {| graph := graph s; memory := memory s; log := log s;
       yielded := (yielded s
                   ++ List.concat (List.map (emitted documents) before)
                   ++ emitted documents c)%list |}.
Proof.
  intros Hbefore Hc. unfold bind.
  by rewrite (citation_loop_reaches _ _ _ _ _ Hbefore Hc).
Qed.

(** C10, as amended.  In the streaming path the guard is the upper bound
    alone.  When documents were retrieved and the chain answered, a
    citation whose [source_id] is negative but not below
    [-len(documents)] passes the guard and, when no citation before it
    reaches below [-len(documents)] (where indexing raises and the loop
    ends), it is yielded as a citation chunk whose title and URL are
    those of the document counted from the end of the list. *)
Theorem negative_source_id_is_emitted
        question use_reranking config s documents response
        before citation after :
  Classifier.is_conversation_history_question question = false ->
  fst (retrieve_with_citations svc question default_k use_reranking s)
  = Ok documents ->
  documents <> [] ->
  structured_chain svc (format_docs_with_id documents) question
  = Ok (Some response) ->
  citations response = (before ++ citation :: after)%list ->
  Forall (fun c => (- Z.of_nat (List.length documents) <= source_id c)%Z)
         before ->
  (- Z.of_nat (List.length documents) <= source_id citation < 0)%Z ->
  (source_id citation <? Z.of_nat (List.length documents))%Z = true
  /\ exists doc,
      documents !! (List.length documents - Z.to_nat (- source_id citation))%nat
      = Some doc
      /\ In (ChCitation (source_id citation) (quote citation)
               (default "Untitled" (md_title (metadata doc)))
               (default "Unknown source" (md_source (metadata doc))))
            (chunks_of (stream_response_with_citations svc question true
                          use_reranking config s)).
Proof.
  intros Hclass Hdocs Hne Hchain Hcs Hbefore [Hlow Hneg].
  assert (Hguard : (source_id citation <? Z.of_nat (List.length documents))%Z
                   = true) by (apply Z.ltb_lt; lia).
  split; [exact Hguard|].
  destruct (py_index_negative documents (source_id citation) Hneg Hlow)
    as (doc & Hlookup & Hindex).
  exists doc. split; [exact Hlookup|].
  assert (Hemitted : emitted documents citation = [citation_chunk citation doc])
    by (unfold emitted; by rewrite Hguard, Hindex).
  unfold chunks_of, stream_response_with_citations. rewrite Hclass.
  apply yielded_stays_try.
  { intros e. apply keeps_yield, extends_yielded_chunk. }
  unfold bind at 1. unfold yield at 1.
  unfold modify at 1. unfold bind at 1.
  pose proof (retrieve_result_any_state svc question default_k use_reranking
                (with_chunk (ChStatus StRetrieving) s) s) as Hsame.
  destruct (retrieve_with_citations svc question default_k use_reranking
              (with_chunk (ChStatus StRetrieving) s)) as [r s1].
  simpl in Hsame. rewrite Hdocs in Hsame. subst r.
  destruct documents as [|d ds]; [done|].
  set (documents := d :: ds) in *.
  unfold bind at 1. unfold yield at 1, modify at 1.
  unfold bind at 1. unfold yield at 1, modify at 1.
  unfold bind at 1. rewrite generate_structured_cases. simpl.
  rewrite Hchain.
  unfold bind at 1. unfold as_quoted, ret at 1.
  unfold bind at 1. unfold yield at 1, modify at 1.
  rewrite Hcs.
  destruct (before ++ citation :: after)%list as [|c0 cs0] eqn:Hlist.
  { by destruct before. }
  rewrite bind_bind_at. unfold bind at 1. unfold yield at 1, modify at 1.
  rewrite <- Hlist.
  rewrite (citation_loop_reaches_then _ _ _ _ _ _ Hbefore Hlow).
  apply yielded_stays.
  - apply keeps_bind; [exact extends_yielded_trans| |].
    + apply keeps_for_each;
        [exact extends_yielded_refl|exact extends_yielded_trans|].
      intros c. apply emit_citation_extends.
    + intros _. apply save_extends.
  - cbn [yielded]. rewrite Hemitted.
    apply in_or_app. right. apply in_or_app. right. by left.
Qed.

(** What the loop body yields for a citation within range. *)
Lemma emitted_in_range documents cs :
  Forall (fun c => in_range documents (source_id c)) cs ->
  Forall2 (fun c chunk =>
             exists doc,
               documents !! Z.to_nat (source_id c) = Some doc
               /\ chunk = citation_chunk c doc)
          cs (List.concat (List.map (emitted documents) cs)).
Proof.
  induction 1 as [|c cs Hc _ IH]; [constructor|].
  cbn [List.map List.concat]. unfold emitted at 1. unfold in_range in Hc.
  assert (Hguard : (source_id c <? Z.of_nat (List.length documents))%Z = true)
    by (apply Z.ltb_lt; lia).
  rewrite Hguard.
  destruct (py_index_nonnegative documents (source_id c) Hc) as (doc & Hdoc & ->).
  cbn [app]. constructor; [by exists doc|exact IH].
Qed.

Lemma emitted_are_citations documents cs :
  List.filter is_citation (List.concat (List.map (emitted documents) cs))
  = List.concat (List.map (emitted documents) cs).
Proof.
  induction cs as [|c cs IH]; [done|].
  cbn [List.map List.concat]. rewrite List.filter_app, IH. f_equal.
  unfold emitted. destruct (_ <? _)%Z; [|done].
  by destruct (py_index documents (source_id c)).
Qed.

(** X13. When every citation of the model's answer is within range
    ([0 <= source_id < len(documents)]), the generator yields, after the
    answer, one citation chunk per citation, in the model's order, each
    with the title and the URL of [documents[source_id]]. *)
Theorem in_range_citations_are_emitted
        question use_reranking config s documents response :
  Classifier.is_conversation_history_question question = false ->
  fst (retrieve_with_citations svc question default_k use_reranking s)
  = Ok documents ->
  documents <> [] ->
  structured_chain svc (format_docs_with_id documents) question
  = Ok (Some response) ->
  Forall (fun c => in_range documents (source_id c)) (citations response) ->
  exists s' new,
    stream_response_with_citations svc question true use_reranking config s
    = (Ok tt, s')
    /\ yielded s' = (yielded s ++ new)%list
    /\ Forall2 (fun c chunk =>
                  exists doc,
                    documents !! Z.to_nat (source_id c) = Some doc
                    /\ chunk = citation_chunk c doc)
               (citations response) (List.filter is_citation new).
Proof.
  intros Hclass Hdocs Hne Hchain Hall.
  assert (Hlow : Forall (fun c => (- Z.of_nat (List.length documents)
                                    <= source_id c)%Z) (citations response)).
  { eapply Forall_impl; [exact Hall|]. unfold in_range. intros c Hc.
    cbv beta in *. lia. }
  destruct (stream_citation_path_exact question use_reranking config s
              documents response Hclass Hdocs Hne Hchain Hlow)
    as (s' & Hrun & Hy & _).
  eexists s', _. split; [exact Hrun|]. split; [exact Hy|].
  rewrite !List.filter_app, emitted_are_citations.
  assert (Hhead : List.filter is_citation
                    match citations response with
                    | [] => []
                    | _ :: _ => [ChCitationsHeader]
                    end = []) by (by destruct (citations response)).
  assert (Htail : List.filter is_citation
                    (if graph s then
                       match llm svc (default [] (memory s !! thread_of config)
                                      ++ exchange question (answer response))%list with
                       | Ok _ => []
                       | Raised e => [ChWarning (save_failure e)]
                       end
                     else []) = []).
  { destruct (graph s); [|done]. by destruct (llm svc _). }
  rewrite Hhead, Htail. simpl. rewrite app_nil_r.
  by apply emitted_in_range.
Qed.

End CitationStream.

(** "What was my first question?": no retrieval call, with or without
    citations. *)
Lemma retrieval_only_on_citation_path_witness :
  Agent.no_retrieval (Agent.initialize_graph Agent.fresh)
    (snd (Agent.ask_question Scenario.all_down Scenario.first_question
            true false None (Agent.initialize_graph Agent.fresh)))
  /\ Agent.no_retrieval (Agent.initialize_graph Agent.fresh)
       (snd (Agent.stream_response_with_citations Scenario.all_down
               Scenario.first_question true false None
               (Agent.initialize_graph Agent.fresh))).
Proof.
  apply (retrieval_only_on_citation_path Scenario.all_down
           Scenario.first_question true false None
           (Agent.initialize_graph Agent.fresh)).
  left. vm_compute. reflexivity.
Defined.

(** A question on the default thread "1" leaves the thread "2" alone. *)
Lemma other_threads_are_untouched_witness :
  Agent.memory
    (snd (Agent.ask_question Scenario.well_cited Scenario.key_question
            true false None (Agent.initialize_graph Agent.fresh)))
  !! "2" = Agent.memory (Agent.initialize_graph Agent.fresh) !! "2".
Proof.
  destruct (other_threads_are_untouched Scenario.well_cited
              Scenario.key_question true false None
              (Agent.initialize_graph Agent.fresh) "2") as (Hask & _).
  - discriminate.
  - exact Hask.
Defined.

(** The answer, and the history read back after it. *)
Lemma ask_question_saves_exchange_witness :
  exists s',
    Agent.ask_question Scenario.well_cited Scenario.key_question true false
      None (Agent.initialize_graph Agent.fresh)
    = (Ok (Agent.GenQuoted Scenario.cited_answer), s')
    /\ fst (Agent.get_conversation_history Scenario.well_cited "1" s') =
       Ok [Agent.HumanMessage Scenario.key_question;
           Agent.AIMessage "Create a key, then pick one of the open models.";
           Agent.AIMessage "noted"].
Proof.
  apply (ask_question_saves_exchange Scenario.well_cited Scenario.key_question
           false None (Agent.initialize_graph Agent.fresh)
           Scenario.six_documents Scenario.cited_answer "noted").
  - vm_compute. reflexivity.
  - reflexivity.
  - reflexivity.
  - discriminate.
  - reflexivity.
  - reflexivity.
  - reflexivity.
Defined.

(** The model is unreachable when the exchange is saved. *)
Lemma ask_question_loses_answer_when_saving_fails_witness :
  exists s',
    Agent.ask_question Scenario.saving_fails Scenario.key_question true false
      None (Agent.initialize_graph Agent.fresh)
    = (Ok (Agent.GenQuoted
             {| Agent.answer :=
                  "An error occurred while processing your question: service unavailable";
                Agent.citations := [] |}), s').
Proof.
  destruct (ask_question_loses_answer_when_saving_fails Scenario.saving_fails
              Scenario.key_question false None
              (Agent.initialize_graph Agent.fresh)
              Scenario.six_documents Scenario.cited_answer Scenario.unavailable)
    as [Hask _].
  - vm_compute. reflexivity.
  - reflexivity.
  - reflexivity.
  - discriminate.
  - reflexivity.
  - reflexivity.
  - repeat constructor; simpl; lia.
  - exact Hask.
Defined.

(** The second of three citations points at [-5] in a list of one
    document; and a single citation points below [-2^63]. *)
Lemma stream_stops_at_far_negative_source_id_witness :
  (exists s',
      Agent.stream_response_with_citations Scenario.far_citation
        Scenario.key_question true false None
        (Agent.initialize_graph Agent.fresh) = (Ok tt, s')
      /\ last (Agent.yielded s') =
         Some (Agent.ChError "An error occurred: list index out of range")
      /\ Agent.memory s' = ∅)
  /\ (exists s',
         Agent.stream_response_with_citations Scenario.huge_citation
           Scenario.key_question true false None
           (Agent.initialize_graph Agent.fresh) = (Ok tt, s')
         /\ last (Agent.yielded s') =
            Some (Agent.ChError
                    "An error occurred: cannot fit 'int' into an index-sized integer")
         /\ Agent.memory s' = ∅).
Proof.
  split.
  - destruct (stream_stops_at_far_negative_source_id Scenario.far_citation
                Scenario.key_question false None
                (Agent.initialize_graph Agent.fresh)
                [Scenario.quickstart] Scenario.far_answer
                [{| Agent.source_id := 0%Z; Agent.quote := "Create an API key" |}]
                {| Agent.source_id := (-5)%Z; Agent.quote := "call the endpoint" |}
                [{| Agent.source_id := (-1)%Z;
                    Agent.quote := "Create an API key" |}])
      as (s' & Hrun & Hy & Hm).
    + vm_compute. reflexivity.
    + reflexivity.
    + discriminate.
    + reflexivity.
    + reflexivity.
    + repeat constructor; simpl; lia.
    + simpl. lia.
    + exists s'. split; [exact Hrun|]. split; [|exact Hm].
      rewrite Hy. rewrite !app_assoc. apply last_snoc.
  - destruct (stream_stops_at_far_negative_source_id Scenario.huge_citation
                Scenario.key_question false None
                (Agent.initialize_graph Agent.fresh)
                [Scenario.quickstart] Scenario.huge_answer
                []
                {| Agent.source_id := (-9223372036854775809)%Z;
                   Agent.quote := "Create an API key" |}
                [])
      as (s' & Hrun & Hy & Hm).
    + vm_compute. reflexivity.
    + reflexivity.
    + discriminate.
    + reflexivity.
    + reflexivity.
    + constructor.
    + simpl. lia.
    + exists s'. split; [exact Hrun|]. split; [|exact Hm].
      rewrite Hy. rewrite !app_assoc. apply last_snoc.
Defined.

(** Two citations within range: two chunks, with the titles and URLs of
    the first and the second document. *)
Lemma in_range_citations_are_emitted_witness :
  List.filter Agent.is_citation
    (Agent.chunks_of
       (Agent.stream_response_with_citations Scenario.well_cited
          Scenario.key_question true false None
          (Agent.initialize_graph Agent.fresh)))
  = [Agent.ChCitation 0 "Create an API key" "Quickstart"
       "https://inference-docs.cerebras.ai/quickstart";
     Agent.ChCitation 1 "several open models" "Models"
       "https://inference-docs.cerebras.ai/models"].
Proof.
  destruct (in_range_citations_are_emitted Scenario.well_cited
              Scenario.key_question false None
              (Agent.initialize_graph Agent.fresh)
              Scenario.six_documents Scenario.cited_answer)
    as (s' & new & Hrun & Hy & Hcites).
  - vm_compute. reflexivity.
  - reflexivity.
  - discriminate.
  - reflexivity.
  - repeat constructor; simpl; lia.
  - unfold Agent.chunks_of. rewrite Hrun. simpl. rewrite Hy. simpl.
    inversion Hcites as [|c1 k1 cs1 ks1 (d1 & Hd1 & ->) Hrest Hc Hk]; subst.
    inversion Hrest as [|c2 k2 cs2 ks2 (d2 & Hd2 & ->) Hrest' Hc' Hk']; subst.
    inversion Hrest'; subst.
    injection Hd1 as <-. injection Hd2 as <-. reflexivity.
Defined.

(** The model cites position [-1] of a one-document result: the chunk
    carries the title and URL of the last document. *)
Lemma negative_source_id_is_emitted_witness :
  In (Agent.ChCitation (-1) "Create an API key" "Quickstart"
        "https://inference-docs.cerebras.ai/quickstart")
     (Agent.chunks_of
        (Agent.stream_response_with_citations Scenario.stray_citations
           Scenario.key_question true false None
           (Agent.initialize_graph Agent.fresh))).
Proof.
  destruct (negative_source_id_is_emitted Scenario.stray_citations
              Scenario.key_question false None
              (Agent.initialize_graph Agent.fresh)
              [Scenario.quickstart] Scenario.stray_answer
              []
              {| Agent.source_id := (-1)%Z; Agent.quote := "Create an API key" |}
              [{| Agent.source_id := 7%Z;
                  Agent.quote := "call the chat completions endpoint" |}])
    as (_ & doc & Hdoc & Hin).
  - vm_compute. reflexivity.
  - vm_compute. reflexivity.
  - discriminate.
  - reflexivity.
  - reflexivity.
  - constructor.
  - simpl. lia.
  - injection Hdoc as <-. exact Hin.
Defined.

(** The claim C10 as stated fails: one document is retrieved and the
    answer cites the positions [0], [-5] and [-1].  Both negative
    positions pass the guard.  At [-5] indexing raises, so no citation
    chunk is yielded for it, nor for the [-1] that comes after it: the
    only citation chunk is that of the first citation, and the stream
    ends with an error chunk. *)
Lemma far_negative_source_id_is_not_emitted :
  List.map Agent.source_id (Agent.citations Scenario.far_answer)
  = [0; -5; -1]%Z
  /\ (-5 <? Z.of_nat (List.length [Scenario.quickstart]))%Z = true
  /\ (-1 <? Z.of_nat (List.length [Scenario.quickstart]))%Z = true
  /\ List.filter Agent.is_citation
       (Agent.chunks_of
          (Agent.stream_response_with_citations Scenario.far_citation
             Scenario.key_question true false None
             (Agent.initialize_graph Agent.fresh)))
     = [Agent.ChCitation 0 "Create an API key" "Quickstart"
          "https://inference-docs.cerebras.ai/quickstart"]
  /\ last (Agent.chunks_of
             (Agent.stream_response_with_citations Scenario.far_citation
                Scenario.key_question true false None
                (Agent.initialize_graph Agent.fresh)))
     = Some (Agent.ChError "An error occurred: list index out of range").
Proof.
  repeat split; vm_compute; reflexivity.
Qed.


(** * The history-question classifier *)

Section Keywords.
Import Chars Re Classifier.

Lemma lower_keeps_word c : is_word (lower c) = is_word c.
Proof. destruct c as [[] [] [] [] [] [] [] []]; vm_compute; reflexivity. Qed.

Lemma list_ascii_of_string_app (s t : string) :
  list_ascii_of_string (s ++ t) =
  (list_ascii_of_string s ++ list_ascii_of_string t)%list.
Proof. induction s as [|c s IH]; [done|]. simpl. by rewrite IH. Qed.

Lemma lower_str_app (s t : string) :
  lower_str (s ++ t) = (lower_str s ++ lower_str t)%list.
Proof. unfold lower_str. by rewrite list_ascii_of_string_app, List.map_app. Qed.

(** The character before a position that comes after [a]. *)
Lemma search_app p (a s : list ascii) : forall prev,
  p (match last a with Some c => Some c | None => prev end) s = true ->
  search p prev (a ++ s) = true.
Proof.
  induction a as [|c a IH]; intros prev Hp.
  - simpl in *. destruct s; simpl; by rewrite Hp.
  - cbn [app search]. rewrite (IH (Some c)); [apply orb_true_r|].
    destruct a as [|d a]; [done|].
    change (last (c :: d :: a)) with (last (d :: a)) in Hp.
    destruct (last (d :: a)) eqn:Hl; [exact Hp|]. by apply last_None in Hl.
Qed.

Lemma literal_app (l b : list ascii) : forall prev,
  literal l prev (l ++ b) =
  Some (match last l with Some c => Some c | None => prev end, b).
Proof.
  induction l as [|c l IH]; intros prev; [done|].
  cbn [app literal]. rewrite Ascii.eqb_refl, IH.
  destruct l as [|d l]; [done|].
  change (last (c :: d :: l)) with (last (d :: l)).
  destruct (last (d :: l)) eqn:Hl; [done|]. by apply last_None in Hl.
Qed.

(** A pattern made of one literal that starts and ends with a word
    character matches where the literal stands between characters that
    are not word characters (or at an end of the text). *)
Lemma single_literal_matches (lit : string) (a b : list ascii) :
  word_opt (head (list_ascii_of_string lit)) = true ->
  word_opt (last (list_ascii_of_string lit)) = true ->
  word_opt (last a) = false ->
  word_opt (head b) = false ->
  search (at_position [[lit]]) None (a ++ list_ascii_of_string lit ++ b) = true.
Proof.
  intros Hfirst Hlast Ha Hb. apply search_app.
  set (l := list_ascii_of_string lit) in *.
  set (prev := match last a with Some c => Some c | None => None end).
  assert (Hprev : word_opt prev = false) by (subst prev; by destruct (last a)).
  unfold at_position. apply andb_true_iff. split.
  - unfold boundary. rewrite Hprev.
    destruct l as [|c l']; [done|]. simpl in *. by rewrite Hfirst.
  - cbn [groups existsb]. fold l. rewrite literal_app, orb_false_r.
    cbn [groups]. unfold boundary. rewrite Hb.
    destruct (last l) as [c|]; [|done]. simpl in *. by rewrite Hlast.
Qed.

Lemma word_opt_lower_last (s : string) :
  word_opt (last (lower_str s)) = word_opt (last (list_ascii_of_string s)).
Proof.
  unfold lower_str.
  change (List.map lower (list_ascii_of_string s))
    with (lower <$> list_ascii_of_string s).
  rewrite fmap_last. destruct (last (list_ascii_of_string s)); [|done].
  simpl. apply lower_keeps_word.
Qed.

Lemma word_opt_lower_head (s : string) :
  word_opt (head (lower_str s)) = word_opt (head (list_ascii_of_string s)).
Proof.
  unfold lower_str. destruct (list_ascii_of_string s); [done|].
  simpl. apply lower_keeps_word.
Qed.

(** X14. A question that contains one of the phrases "first message",
    "earlier", "previous", "our conversation", "history", "before" or
    "remember when" as whole words, in any mix of upper and lower case,
    is classified as a question about the conversation history, whatever
    else it says. *)
Theorem keyword_makes_history_question (before written after keyword : string) :
  In keyword ["first message"; "earlier"; "previous"; "our conversation";
              "history"; "before"; "remember when"] ->
  lower_str written = list_ascii_of_string keyword ->
  word_opt (last (list_ascii_of_string before)) = false ->
  word_opt (head (list_ascii_of_string after)) = false ->
  is_conversation_history_question (before ++ written ++ after) = true.
Proof.
  intros Hkey Hwritten Hbefore Hafter.
  unfold is_conversation_history_question. apply existsb_exists.
  exists [[keyword]]. split.
  { unfold history_patterns. simpl in Hkey.
    destruct Hkey as [<-|[<-|[<-|[<-|[<-|[<-|[<-|[]]]]]]]]; simpl; tauto. }
  rewrite !lower_str_app, Hwritten.
  apply single_literal_matches.
  - simpl in Hkey.
    destruct Hkey as [<-|[<-|[<-|[<-|[<-|[<-|[<-|[]]]]]]]]; reflexivity.
  - simpl in Hkey.
    destruct Hkey as [<-|[<-|[<-|[<-|[<-|[<-|[<-|[]]]]]]]]; reflexivity.
  - by rewrite word_opt_lower_last.
  - by rewrite word_opt_lower_head.
Qed.

End Keywords.

(** A question about the API, not about the conversation. *)
Lemma keyword_makes_history_question_witness :
  Classifier.is_conversation_history_question
    "What must I set Before the first request?" = true.
Proof.
  apply (keyword_makes_history_question "What must I set " "Before"
           " the first request?" "before").
  - simpl. tauto.
  - reflexivity.
  - reflexivity.
  - reflexivity.
Defined.


(** * More properties of the indexing pipeline *)

Section Chunks.
Import Py Indexer.
Variable svc : Services.

Lemma chunk_documents_app a b :
  chunk_documents svc (a ++ b)
  = (chunk_documents svc a ++ chunk_documents svc b)%list.
Proof. unfold chunk_documents. by rewrite List.map_app, List.concat_app. Qed.

Lemma chunk_documents_texts documents :
  List.map page_content (chunk_documents svc documents)
  = List.map page_content (List.concat (List.map (split svc) documents)).
Proof.
  unfold chunk_documents.
  induction documents as [|doc documents IH]; [done|].
  cbn [List.map List.concat]. rewrite !List.map_app, IH. f_equal.
  generalize (List.length (split svc doc)). intros total.
  apply list_eq. intros i.
  change (List.map page_content ?l) with (page_content <$> l).
  rewrite !list_lookup_fmap, list_lookup_imap.
  by destruct (split svc doc !! i).
Qed.

(** X15. [chunk_documents] returns the chunks of the splitter, document
    after document and in the splitter's order, and nothing else: chunk
    [i] of the document at position [j] comes after all the chunks of the
    documents before it, with its text and its other metadata unchanged,
    with [chunk_index = i] and with [total_chunks] the number of chunks of
    that same document. *)
Theorem chunk_documents_numbers_chunks documents :
  List.map page_content (chunk_documents svc documents)
  = List.map page_content (List.concat (List.map (split svc) documents))
  /\ forall j doc i chunk,
       documents !! j = Some doc ->
       split svc doc !! i = Some chunk ->
       exists out,
         chunk_documents svc documents
           !! (List.length (chunk_documents svc (take j documents)) + i)%nat
         = Some out
         /\ page_content out = page_content chunk
         /\ md_chunk_index (metadata out) = Some i
         /\ md_total_chunks (metadata out)
            = Some (List.length (split svc doc))
         /\ md_source (metadata out) = md_source (metadata chunk)
         /\ md_title (metadata out) = md_title (metadata chunk)
         /\ md_section (metadata out) = md_section (metadata chunk)
         /\ md_content_type (metadata out) = md_content_type (metadata chunk).
Proof.
  split; [apply chunk_documents_texts|].
  intros j doc i chunk Hdoc Hchunk.
  assert (Hsplit : chunk_documents svc documents
                   = (chunk_documents svc (take j documents)
                      ++ chunk_documents svc [doc]
                      ++ chunk_documents svc (drop (S j) documents))%list).
  { rewrite <- !chunk_documents_app. f_equal. symmetry.
    by apply take_drop_middle. }
  rewrite Hsplit.
  rewrite lookup_app_r by lia.
  replace (List.length (chunk_documents svc (take j documents)) + i
           - List.length (chunk_documents svc (take j documents)))%nat
    with i by lia.
  assert (Hone : chunk_documents svc [doc]
                 = imap (fun i chunk =>
                           set_chunk i (List.length (split svc doc)) chunk)
                        (split svc doc)).
  { unfold chunk_documents. cbn [List.map List.concat]. apply app_nil_r. }
  rewrite Hone.
  rewrite lookup_app_l.
  2:{ rewrite length_imap. by eapply lookup_lt_Some. }
  rewrite list_lookup_imap, Hchunk. cbn [fmap option_fmap option_map].
  eexists. split; [reflexivity|]. done.
Qed.

End Chunks.

Section Setup.
Import Py Indexer.
Variable svc : Services.

(** X16. [setup_pinecone_index] creates the index only when it is
    missing: when "cerebras-docs" is listed, no [create_index] call is
    made; when it is not listed (and the listing does not fail), exactly
    one is made, for "cerebras-docs" with dimension 1024.  The stored
    vectors are never touched, and when the call returns the index
    exists. *)
Theorem setup_creates_only_a_missing_index s :
  exists r s' new,
    setup_pinecone_index svc s = (r, s')
    /\ log s' = (log s ++ new)%list
    /\ store s' = store s
    /\ (index_exists svc || created s = true ->
        List.filter is_mutation new = [] /\ created s' = created s)
    /\ (index_exists svc || created s = false ->
        list_indexes_fault svc = None ->
        List.filter is_mutation new = [EvCreateIndex "cerebras-docs" 1024])
    /\ (r = Ok tt -> index_exists svc || created s' = true).
Proof.
  rewrite (setup_cases svc s). cbv zeta.
  destruct (polls_quiet (S (polls_not_ready svc))) as (_ & _ & _ & Hquiet).
  set (polls := repeat (EvDescribeIndex INDEX_NAME) (S (polls_not_ready svc)))
    in *.
  destruct (list_indexes_fault svc) as [e|].
  { eexists _, _, _. split; [reflexivity|]. cbn [log store created].
    repeat split; done. }
  destruct (index_exists svc || created s) eqn:Hex.
  { eexists _, _, _. split; [reflexivity|]. cbn [log store created].
    repeat split; done. }
  destruct (create_index_fault svc) as [e|].
  { eexists _, _, _. split; [reflexivity|]. cbn [log store created].
    repeat split; done. }
  destruct (wait_ready_fault svc) as [e|].
  - eexists _, _, _. split; [reflexivity|]. cbn [log store created].
    repeat split; try done. intros _ _.
    rewrite List.filter_app, Hquiet. reflexivity.
  - eexists _, _, _. split; [reflexivity|]. cbn [log store created].
    repeat split; try done.
    + intros _ _. rewrite !List.filter_app, Hquiet. reflexivity.
    + intros _. apply orb_true_r.
Qed.

End Setup.

Section FailedBatches.
Import Py Indexer.
Variable svc : Services.

(** The document at offset [n] is stored when its batch goes through,
    whatever happens to the other batches. *)
Lemma stored_vector_present_in_batch documents n doc :
  batch_succeeds svc documents (batch_of n) ->
  documents !! n = Some doc ->
  exists v,
    In v (List.concat (List.map (batch_stored svc documents)
                         (batch_offsets (List.length documents))))
    /\ v_id v = vector_id n.
Proof.
  intros (embeddings & Hemb & Hlen & Hupsert) Hdoc.
  pose proof (lookup_lt_Some _ _ _ Hdoc) as Hn.
  pose proof (Nat.div_mod_eq n 10) as Hdiv.
  pose proof (Nat.mod_upper_bound n 10) as Hmod.
  pose proof (Nat.div_mod_eq (List.length documents + 10 - 1) 10) as Hdiv'.
  pose proof (Nat.mod_upper_bound (List.length documents + 10 - 1) 10) as Hmod'.
  unfold batch_of, batch_size in *.
  set (i := (n / 10 * 10)%nat) in *. set (j := (n mod 10)%nat).
  assert (Hij : (i + j)%nat = n) by (subst i j; lia).
  assert (Hbatch : batch_at documents i !! j = Some doc).
  { unfold batch_at, batch_size. apply lookup_take_Some. split; [|subst j; lia].
    by rewrite lookup_drop, Hij. }
  destruct (lookup_lt_is_Some_2 embeddings j) as [embedding Hembedding].
  { rewrite Hlen. by eapply lookup_lt_Some. }
  exists (make_vector i j (doc, embedding)). split.
  - apply in_concat. exists (batch_stored svc documents i). split.
    + apply in_map. unfold batch_offsets, batch_size. apply in_map_iff.
      exists (n / 10)%nat. split; [done|]. apply in_seq. lia.
    + unfold batch_stored. rewrite Hemb, Hupsert.
      apply list_elem_of_In. unfold batch_vectors.
      apply elem_of_lookup_imap. exists j, (doc, embedding).
      split; [done|]. by apply lookup_zip_Some.
  - simpl. by rewrite Hij.
Qed.

(** X17. A batch that fails does not stop the run.  Once the index is set
    up, [populate_index] raises only what [describe_index_stats] raises,
    whatever the embedding service and the upserts do; and the document
    at every offset [n] whose own batch goes through ends up stored under
    "doc_n" with its metadata, also when other batches failed. *)
Theorem failed_batch_does_not_stop_the_run documents s s0 :
  setup_pinecone_index svc s = (Ok tt, s0) ->
  exists r s',
    populate_index svc documents s = (r, s')
    /\ (r = Ok tt \/ exists e, stats_fault svc = Some e /\ r = Raised e)
    /\ (forall n doc,
          documents !! n = Some doc ->
          batch_succeeds svc documents (batch_of n) ->
          exists v,
            store s' !! ("doc_" ++ pretty n) = Some v
            /\ v_metadata v = vector_metadata doc).
Proof.
  intros Hsetup. destruct documents as [|d ds].
  { exists (Ok tt), s. split; [done|]. split; [by left|]. by intros n doc. }
  rewrite (populate_index_run svc d ds s s0 Hsetup).
  eexists _, _. split; [reflexivity|]. split.
  { destruct (stats_fault svc) as [e|]; [right; by exists e|by left]. }
  intros n doc Hdoc Hbatch. cbn [store]. rewrite upsert_batches.
  change (S (List.length ds)) with (List.length (d :: ds)).
  set (documents := d :: ds) in *.
  rewrite upsert_all_lookup.
  destruct (stored_vector_present_in_batch documents n doc Hbatch Hdoc)
    as (v & Hv & Hid).
  fold (vector_id n).
  match goal with |- context [last ?l] => destruct (last l) as [w|] eqn:Hlast end.
  - exists w. split; [done|].
    apply last_Some_elem_of, list_elem_of_In, filter_In in Hlast as [Hw Hwid].
    apply String.eqb_eq in Hwid.
    apply stored_vector_origin in Hw as (n' & doc' & Hdoc' & Hid' & Hmeta').
    rewrite Hid' in Hwid. apply vector_id_inj in Hwid. subst n'.
    rewrite Hdoc in Hdoc'. by injection Hdoc' as <-.
  - exfalso. apply last_None in Hlast.
    assert (Hin : In v (List.filter (fun v => String.eqb (v_id v) (vector_id n))
                          (List.concat (List.map (batch_stored svc documents)
                             (batch_offsets (List.length documents)))))).
    { apply filter_In. split; [done|]. by apply String.eqb_eq. }
    rewrite Hlast in Hin. done.
Qed.

(** X18. The vectors of a batch are built from [zip(batch, embeddings)]:
    when the embedding service returns fewer vectors than it was given
    texts, only that many documents of the batch, from its start, get a
    vector, and no error is raised for the others. *)
Theorem batch_vectors_follow_the_shorter_list i (batch : list Document)
        (embeddings : list Embedding) :
  List.map v_id (batch_vectors i batch embeddings)
  = List.map (fun j => vector_id (i + j))
             (seq 0 (Nat.min (List.length batch) (List.length embeddings)))
  /\ List.map v_metadata (batch_vectors i batch embeddings)
     = List.map vector_metadata (take (List.length embeddings) batch).
Proof.
  unfold batch_vectors. split.
  - apply list_eq. intros j.
    change (List.map ?f ?l) with (f <$> l).
    rewrite !list_lookup_fmap, list_lookup_imap.
    destruct (zip batch embeddings !! j) as [[doc embedding]|] eqn:Hzip.
    + simpl. pose proof (lookup_lt_Some _ _ _ Hzip) as Hlt.
      rewrite length_zip_with in Hlt.
      rewrite lookup_seq_lt by lia. done.
    + simpl. apply lookup_ge_None in Hzip. rewrite length_zip_with in Hzip.
      rewrite lookup_seq_ge by lia. done.
  - apply list_eq. intros j.
    change (List.map ?f ?l) with (f <$> l).
    rewrite !list_lookup_fmap, list_lookup_imap.
    destruct (zip batch embeddings !! j) as [[doc embedding]|] eqn:Hzip.
    + apply lookup_zip_Some in Hzip as [Hdoc Hemb].
      pose proof (lookup_lt_Some _ _ _ Hemb) as Hlt.
      rewrite lookup_take_lt by done. by rewrite Hdoc.
    + simpl. destruct (take (List.length embeddings) batch !! j) as [doc|] eqn:Hdoc;
        [|done].
      apply lookup_take_Some in Hdoc as [Hdoc Hj]. exfalso.
      destruct (lookup_lt_is_Some_2 embeddings j Hj) as [embedding Hemb].
      assert (Hsome : zip batch embeddings !! j = Some (doc, embedding))
        by (by apply lookup_zip_Some).
      congruence.
Qed.

End FailedBatches.

Section FailedBatchExample.
Import Py Indexer.

Lemma failed_batch_does_not_stop_the_run_witness :
  exists r s',
    populate_index Scenario.full_batches_fail Scenario.twelve_documents initial
    = (r, s')
    /\ (r = Ok tt
        \/ exists e, stats_fault Scenario.full_batches_fail = Some e
                     /\ r = Raised e)
    /\ (forall n doc,
          Scenario.twelve_documents !! n = Some doc ->
          batch_succeeds Scenario.full_batches_fail Scenario.twelve_documents
            (batch_of n) ->
          exists v,
            store s' !! ("doc_" ++ pretty n) = Some v
            /\ v_metadata v = vector_metadata doc).
Proof.
  apply (failed_batch_does_not_stop_the_run Scenario.full_batches_fail
           Scenario.twelve_documents initial
           (snd (setup_pinecone_index Scenario.full_batches_fail initial))).
  reflexivity.
Defined.

End FailedBatchExample.

Section Main.
Import Py Indexer.
Variable svc : Services.

(** What [setup_pinecone_index] raises is what one of its Pinecone calls
    raises. *)
Lemma setup_outcome s :
  exists r s0 new0,
    setup_pinecone_index svc s = (r, s0)
    /\ log s0 = (log s ++ new0)%list
    /\ embedded new0 = []
    /\ match r with
       | Ok _ => True
       | Raised e =>
           list_indexes_fault svc = Some e \/ create_index_fault svc = Some e
           \/ wait_ready_fault svc = Some e \/ index_fault svc = Some e
       end
    /\ (list_indexes_fault svc = None -> create_index_fault svc = None ->
        wait_ready_fault svc = None -> index_fault svc = None -> r = Ok tt).
Proof.
  destruct (setup_run svc s) as (r & new & Hrun & Hemb & _).
  eexists r, _, new. split; [exact Hrun|]. split; [done|]. split; [exact Hemb|].
  revert Hrun. rewrite (setup_cases svc s). cbv zeta.
  destruct (list_indexes_fault svc) as [e|].
  { intros [= <- _]. split; [auto|done]. }
  destruct (index_exists svc || created s).
  { destruct (index_fault svc) as [e|]; intros [= <- _]; split; auto; done. }
  destruct (create_index_fault svc) as [e|].
  { intros [= <- _]. split; [auto|done]. }
  destruct (wait_ready_fault svc) as [e|].
  { intros [= <- _]. split; [auto|done]. }
  destruct (index_fault svc) as [e|]; intros [= <- _]; split; auto; done.
Qed.

(** [populate_index]: its outcome, and the texts it sends to the
    embedding service. *)
Lemma populate_index_outcome documents s :
  exists r s' new,
    populate_index svc documents s = (r, s')
    /\ log s' = (log s ++ new)%list
    /\ match r with
       | Ok _ => True
       | Raised e =>
           list_indexes_fault svc = Some e \/ create_index_fault svc = Some e
           \/ wait_ready_fault svc = Some e \/ index_fault svc = Some e
           \/ stats_fault svc = Some e
       end
    /\ (list_indexes_fault svc = None -> create_index_fault svc = None ->
        wait_ready_fault svc = None -> index_fault svc = None ->
        List.concat (embedded new) = List.map page_content documents
        /\ (stats_fault svc = None -> r = Ok tt)).
Proof.
  destruct documents as [|d ds].
  { exists (Ok tt), s, []. simpl. rewrite app_nil_r. repeat split; done. }
  destruct (setup_outcome s) as (r0 & s0 & new0 & Hsetup & Hlog0 & Hemb0 & Hr0 & Hok0).
  destruct r0 as [[]|e].
  - rewrite (populate_index_run svc d ds s s0 Hsetup).
    change (S (List.length ds)) with (List.length (d :: ds)).
    set (documents := d :: ds) in *.
    set (offsets := batch_offsets (List.length documents)).
    set (events := List.concat (List.map (batch_events svc documents) offsets)).
    eexists _, _, (new0 ++ events ++ [EvDescribeStats])%list.
    split; [reflexivity|]. cbn [log].
    split; [by rewrite Hlog0, <- app_assoc|]. split.
    { destruct (stats_fault svc) as [e|]; [|done]. by do 4 right. }
    intros _ _ _ _. split.
    + unfold embedded. rewrite !omap_app. fold (embedded new0).
      fold (embedded events). rewrite Hemb0. subst events.
      rewrite embedded_batches. simpl. rewrite app_nil_r.
      subst offsets. unfold batch_offsets, batch_at, batch_size.
      rewrite List.map_map. rewrite <- (List.map_map _ (List.map page_content)).
      rewrite <- List.concat_map. by rewrite windows_cover.
    + intros Hstats. by rewrite Hstats.
  - unfold populate_index. unfold bind at 1. rewrite Hsetup.
    eexists _, _, new0. split; [reflexivity|]. split; [done|]. split.
    { destruct Hr0 as [?|[?|[?|?]]]; auto. }
    intros H1 H2 H3 H4. by specialize (Hok0 H1 H2 H3 H4).
Qed.

(** [main] up to the call of [populate_index]. *)
Lemma main_run s :
  reaches_crawl svc ->
  exists s1 new1,
    log s1 = (log s ++ new1)%list
    /\ embedded new1 = []
    /\ main svc s =
       match crawled_documents svc with
       | [] => (Ok tt, s1)
       | _ :: _ =>
           populate_index svc (chunk_documents svc (crawled_documents svc)) s1
       end.
Proof.
  intros (Hc & Hp & Hi). unfold main, crawled_documents.
  rewrite Hc, Hp. cbn [negb orb].
  unfold bind at 1. unfold fault. rewrite Hi. unfold ret at 1.
  unfold bind at 1. rewrite crawl_all_run.
  destruct (List.length (primary_documents svc) <? 5)%nat eqn:Hfew.
  - unfold bind at 1. unfold crawl_fallback. ix_run.
    eexists _, [EvCrawlFirecrawl "https://inference-docs.cerebras.ai/";
                EvCrawlFallback fallback_urls].
    split; [|split; [done|]]; cycle 1.
    + by destruct (primary_documents svc ++ fallback_documents svc fallback_urls)%list.
    + cbn [log]. by rewrite <- app_assoc.
  - unfold bind at 1. unfold ret at 1. rewrite app_nil_r.
    eexists _, [EvCrawlFirecrawl "https://inference-docs.cerebras.ai/"].
    split; [|split; [done|]]; cycle 1.
    + by destruct (primary_documents svc).
    + done.
Qed.

(** X19. What [main] can raise: only what building the clients raises,
    or one of the Pinecone calls of [setup_pinecone_index] ([list_indexes],
    [create_index], a [describe_index] poll, [Index]), or
    [describe_index_stats].  An error of the embedding service or of an
    upsert never comes out of [main]. *)
Theorem main_raises_only_setup_errors s e s' :
  main svc s = (Raised e, s') ->
  init_fault svc = Some e \/ list_indexes_fault svc = Some e
  \/ create_index_fault svc = Some e \/ wait_ready_fault svc = Some e
  \/ index_fault svc = Some e \/ stats_fault svc = Some e.
Proof.
  assert (Hcases :
            negb (cohere_key svc) || negb (pinecone_key svc) = true
            \/ (exists e, init_fault svc = Some e
                          /\ negb (cohere_key svc) || negb (pinecone_key svc)
                             = false)
            \/ reaches_crawl svc).
  { unfold reaches_crawl.
    destruct (cohere_key svc), (pinecone_key svc); simpl; auto.
    destruct (init_fault svc) as [e0|]; [|by right; right].
    right. left. by exists e0. }
  destruct Hcases as [Hkeys|[(e0 & Hinit & Hkeys)|Hreach]].
  - unfold main. by rewrite Hkeys.
  - unfold main. rewrite Hkeys. unfold bind at 1, fault. rewrite Hinit.
    unfold raise. intros [= <- _]. by left.
  - destruct (main_run s Hreach) as (s1 & new1 & _ & _ & ->).
    destruct (crawled_documents svc) as [|d ds]; [done|].
    destruct (populate_index_outcome (chunk_documents svc (d :: ds)) s1)
      as (r & s'' & new & -> & _ & Hr & _).
    intros [= -> _]. destruct Hr as [?|[?|[?|[?|?]]]]; auto 8.
Qed.

(** X20. What [main] indexes: when the keys are set, the clients are
    built and the index can be set up, the texts sent to the embedding
    service are, in order, the texts of the chunks of the crawled
    documents: those of the primary crawl, followed by those of the
    fallback crawl when the primary crawl gave fewer than five. *)
Theorem main_embeds_the_chunks_of_the_crawl s :
  reaches_crawl svc ->
  list_indexes_fault svc = None ->
  create_index_fault svc = None ->
  wait_ready_fault svc = None ->
  index_fault svc = None ->
  exists r s' new,
    main svc s = (r, s')
    /\ log s' = (log s ++ new)%list
    /\ List.concat (embedded new)
       = List.map page_content (chunk_documents svc (crawled_documents svc)).
Proof.
  intros Hreach H1 H2 H3 H4.
  destruct (main_run s Hreach) as (s1 & new1 & Hlog1 & Hemb1 & ->).
  destruct (crawled_documents svc) as [|d ds] eqn:Hcrawl.
  { exists (Ok tt), s1, new1. split; [done|]. split; [done|]. by rewrite Hemb1. }
  destruct (populate_index_outcome (chunk_documents svc (d :: ds)) s1)
    as (r & s' & new & -> & Hlog & _ & Hok).
  destruct (Hok H1 H2 H3 H4) as [Hembedded _].
  exists r, s', (new1 ++ new)%list. split; [done|]. split.
  - by rewrite Hlog, Hlog1, app_assoc.
  - unfold embedded in *. rewrite omap_app, Hemb1. exact Hembedded.
Qed.

End Main.

Section MainExample.
Import Py Indexer.

Lemma main_embeds_the_chunks_of_the_crawl_witness :
  exists r s' new,
    main Scenario.full_batches_fail initial = (r, s')
    /\ log s' = (log initial ++ new)%list
    /\ List.concat (embedded new)
       = List.map page_content
           (chunk_documents Scenario.full_batches_fail
              (crawled_documents Scenario.full_batches_fail)).
Proof.
  apply (main_embeds_the_chunks_of_the_crawl Scenario.full_batches_fail initial).
  - repeat split; reflexivity.
  - reflexivity.
  - reflexivity.
  - reflexivity.
  - reflexivity.
Defined.

(** The embedding service is down for every batch and
    [describe_index_stats] raises: what comes out of [main] is the error
    of [describe_index_stats]. *)
Lemma main_raises_only_setup_errors_witness :
  main Scenario.stats_down initial
  = (Raised (Exn "service unavailable"),
     snd (main Scenario.stats_down initial))
  /\ stats_fault Scenario.stats_down = Some (Exn "service unavailable").
Proof.
  assert (Hrun : main Scenario.stats_down initial
                 = (Raised (Exn "service unavailable"),
                    snd (main Scenario.stats_down initial)))
    by (vm_compute; reflexivity).
  split; [exact Hrun|].
  destruct (main_raises_only_setup_errors Scenario.stats_down initial
              (Exn "service unavailable")
              (snd (main Scenario.stats_down initial)) Hrun)
    as [H|[H|[H|[H|[H|H]]]]]; try discriminate H.
  exact H.
Defined.

End MainExample.


(** ** The crawler's [clean_text] *)

Section PageScanning.
Import Chars Re Normalizer Indexer.

(** A pass whose replacement is the matched text changes nothing. *)
Lemma sub_same (m : matcher) :
  (forall prev t repl k, m prev t = Some (repl, k) -> repl = take k t) ->
  forall s prev k, sub m prev k s = drop k s.
Proof.
  intros Hm. induction s as [|c rest IH]; intros prev k.
  - by rewrite drop_nil.
  - destruct k as [|k]; cbn [sub drop]; [|apply IH].
    destruct (m prev (c :: rest)) as [[repl [|k]]|] eqn:Hmatch.
    + by rewrite IH.
    + rewrite (Hm _ _ _ _ Hmatch), IH. cbn [take].
      by rewrite <- app_comm_cons, take_drop.
    + by rewrite IH.
Qed.

(** A pass whose replacements are no longer than what they replace does
    not lengthen the text. *)
Lemma sub_length (m : matcher) :
  (forall prev t repl k,
      m prev t = Some (repl, k) ->
      (List.length repl <= k)%nat /\ (List.length repl <= List.length t)%nat) ->
  forall s prev k, (List.length (sub m prev k s) <= List.length s - k)%nat.
Proof.
  intros Hm. induction s as [|c rest IH]; intros prev k; [simpl; lia|].
  destruct k as [|k]; cbn [sub].
  2:{ specialize (IH (Some c) k). simpl. lia. }
  destruct (m prev (c :: rest)) as [[repl [|k]]|] eqn:Hmatch.
  - specialize (IH (Some c) 0%nat). simpl in *. lia.
  - destruct (Hm _ _ _ _ Hmatch) as [Hk Hlen].
    specialize (IH (Some c) k). rewrite length_app. simpl in *. lia.
  - specialize (IH (Some c) 0%nat). simpl in *. lia.
Qed.

Lemma span_length (p : ascii -> bool) s : (span p s <= List.length s)%nat.
Proof.
  induction s as [|c rest IH]; [done|]. simpl. destruct (p c); lia.
Qed.

Lemma starts_with_eqb lit : forall s,
  starts_with Ascii.eqb lit s = true -> exists r, s = (lit ++ r)%list.
Proof.
  induction lit as [|c lit IH]; intros s Hs; [by exists s|].
  destruct s as [|d s]; [done|]. cbn [starts_with] in Hs.
  apply andb_true_iff in Hs as [Hc Hs]. apply Ascii.eqb_eq in Hc as ->.
  destruct (IH s Hs) as (r & ->). by exists r.
Qed.

Lemma to_fence_found : forall s n,
  to_fence s = Some n ->
  exists r, s = (take n s ++ fence ++ r)%list /\ List.length (take n s) = n.
Proof.
  induction s as [|c rest IH]; intros n; [done|].
  cbn [to_fence].
  destruct (starts_with Ascii.eqb fence (c :: rest)) eqn:Hhere.
  - intros [= <-]. apply starts_with_eqb in Hhere as (r & Hr).
    exists r. by rewrite take_0.
  - destruct (to_fence rest) as [k|] eqn:Hrest; [|done].
    intros [= <-]. destruct (IH k eq_refl) as (r & Hr & Hlen).
    exists r. cbn [take]. split; [|simpl; by rewrite Hlen].
    by rewrite <- app_comm_cons, <- Hr.
Qed.

(** A text that neither starts nor ends with whitespace is left alone by
    [strip]. *)
Lemma strip_fixed s :
  (forall c t, s = c :: t -> is_space c = false) ->
  (forall c, last s = Some c -> is_space c = false) ->
  strip s = s.
Proof.
  intros Hhead Hlast. unfold strip.
  rewrite (lstrip_fixed s Hhead). by apply rstrip_fixed.
Qed.

(** What the code-block pattern matches starts and ends with a fence, so
    stripping it gives it back. *)
Lemma m_code_block_same prev t repl k :
  m_code_block prev t = Some (repl, k) -> repl = take k t.
Proof.
  unfold m_code_block.
  destruct (starts_with Ascii.eqb fence t) eqn:Hopen; [|done].
  destruct (to_fence (drop 3 t)) as [n|] eqn:Hclose; [|done].
  intros [= <- <-].
  apply starts_with_eqb in Hopen as (t1 & ->).
  change (drop 3 (fence ++ t1)%list) with t1 in Hclose.
  destruct (to_fence_found t1 n Hclose) as (r & Hr & Hlen).
  set (body := take n t1) in *.
  assert (Htake : take (3 + n + 3) (fence ++ t1)%list
                  = (fence ++ body ++ fence)%list).
  { rewrite Hr. rewrite (app_assoc body fence r), (app_assoc fence _ r).
    rewrite take_app_length'; [done|].
    rewrite !length_app, Hlen. simpl. lia. }
  change (S (S (S (n + 3)))) with (3 + n + 3)%nat.
  rewrite Htake. apply strip_fixed.
  - by intros c u [= <- _].
  - intros c. rewrite (app_assoc fence body fence).
    unfold fence at 2. simpl list_ascii_of_string.
    change ["`"; "`"; "`"]%char with (["`"; "`"] ++ ["`"])%char%list.
    rewrite (app_assoc _ _ ["`"%char]), last_snoc. by intros [= <-].
Qed.

End PageScanning.

Section Runs.
Import Chars Re Normalizer Indexer.

Variable p : ascii -> bool.
Variable repl : string.
Hypothesis repl_in_class :
  Forall (fun c => p c = true) (list_ascii_of_string repl).
Hypothesis repl_length : List.length (list_ascii_of_string repl) = 3%nat.

Lemma run_pass_nil : re_sub (m_run p repl) [] = [].
Proof. reflexivity. Qed.

Lemma run_pass_at s :
  (3 <= span p s)%nat ->
  re_sub (m_run p repl) s
  = (list_ascii_of_string repl ++ re_sub (m_run p repl) (drop (span p s) s))%list.
Proof.
  intros Hlong. destruct s as [|c rest]; [simpl in Hlong; lia|].
  destruct (span p (c :: rest)) as [|a] eqn:Hspan; [lia|].
  rewrite (re_sub_match (m_run p repl) (fun _ _ _ => eq_refl) c rest
             (list_ascii_of_string repl) a); [done|].
  unfold m_run. rewrite Hspan.
  by destruct (Nat.leb_spec 3 (S a)); [|lia].
Qed.

Lemma run_pass_copy c rest :
  (span p (c :: rest) < 3)%nat ->
  re_sub (m_run p repl) (c :: rest) = c :: re_sub (m_run p repl) rest.
Proof.
  intros Hshort. apply (re_sub_copy (m_run p repl) (fun _ _ _ => eq_refl)).
  unfold m_run. by destruct (Nat.leb_spec 3 (span p (c :: rest))); [lia|].
Qed.

Lemma span_app_class u v :
  Forall (fun c => p c = true) u ->
  span p (u ++ v) = (List.length u + span p v)%nat.
Proof.
  induction 1 as [|c u Hc _ IH]; [done|]. simpl. by rewrite Hc, IH.
Qed.

Lemma span_drop_span s : span p (drop (span p s) s) = 0%nat.
Proof.
  induction s as [|c rest IH]; [done|]. cbn [span].
  destruct (p c) eqn:Hc; [exact IH|]. cbn [drop span]. by rewrite Hc.
Qed.

(** A run of fewer than three is copied. *)
Lemma run_pass_span_short : forall s,
  (span p s < 3)%nat -> span p (re_sub (m_run p repl) s) = span p s.
Proof.
  induction s as [|c rest IH]; intros Hshort; [done|].
  rewrite (run_pass_copy c rest Hshort). cbn [span] in *.
  destruct (p c); [|done]. rewrite IH; [done|lia].
Qed.

Lemma short_runs_after_run u v :
  Forall (fun c => p c = true) u ->
  (List.length u <= 3)%nat ->
  span p v = 0%nat ->
  short_runs p v = true ->
  short_runs p (u ++ v) = true.
Proof.
  intros Hu. induction Hu as [|c u Hc Hu IH]; intros Hlen Hv Hshort; [done|].
  rewrite <- app_comm_cons. cbn [short_runs].
  apply andb_true_iff. split.
  - rewrite app_comm_cons, span_app_class by (by constructor).
    rewrite Hv. apply Nat.leb_le. simpl in *. lia.
  - apply IH; [simpl in Hlen; lia|done|done].
Qed.

(** After the pass no run of the class is longer than three. *)
Lemma run_pass_short_runs : forall s,
  short_runs p (re_sub (m_run p repl) s) = true.
Proof.
  apply shorter_first. intros s IH.
  destruct (Nat.le_gt_cases 3 (span p s)) as [Hlong|Hshort].
  - rewrite (run_pass_at s Hlong).
    apply short_runs_after_run; [done|lia| |].
    + rewrite run_pass_span_short; rewrite span_drop_span; [done|lia].
    + apply IH. rewrite length_drop.
      pose proof (span_length p s). lia.
  - destruct s as [|c rest]; [done|].
    pose proof (run_pass_span_short (c :: rest) Hshort) as Hspan.
    rewrite (run_pass_copy c rest Hshort) in *. cbn [short_runs].
    apply andb_true_iff. split.
    + apply Nat.leb_le. rewrite Hspan. lia.
    + apply IH. simpl. lia.
Qed.

(** The runs of a class that the pass does not rewrite. *)
Variable q : ascii -> bool.
Hypothesis classes_apart : forall c, p c = true -> q c = false.

Lemma repl_apart : Forall (fun c => q c = false) (list_ascii_of_string repl).
Proof. eapply Forall_impl; [exact repl_in_class|]. exact classes_apart. Qed.

Lemma span_long_head s :
  (3 <= span p s)%nat -> exists c rest, s = c :: rest /\ p c = true.
Proof.
  destruct s as [|c rest]; [simpl; lia|]. cbn [span].
  destruct (p c) eqn:Hc; [|lia]. intros _. by exists c, rest.
Qed.

Lemma run_pass_span_other : forall s,
  span q (re_sub (m_run p repl) s) = span q s.
Proof.
  induction s as [|c rest IH]; [done|].
  destruct (Nat.le_gt_cases 3 (span p (c :: rest))) as [Hlong|Hshort].
  - rewrite (run_pass_at _ Hlong).
    destruct (span_long_head _ Hlong) as (c' & rest' & [= <- <-] & Hc).
    cbn [span]. rewrite (classes_apart c Hc).
    pose proof repl_apart as Hq.
    destruct (list_ascii_of_string repl) as [|d r]; [done|].
    inversion Hq as [|? ? Hd _]; subst. simpl. by rewrite Hd.
  - rewrite (run_pass_copy c rest Hshort). cbn [span]. by rewrite IH.
Qed.

Lemma short_runs_drop n : forall s,
  short_runs q s = true -> short_runs q (drop n s) = true.
Proof.
  induction n as [|n IH]; intros s Hs; [by rewrite drop_0|].
  destruct s as [|c rest]; [done|]. cbn [drop]. apply IH.
  cbn [short_runs] in Hs. by apply andb_true_iff in Hs as [_ ?].
Qed.

Lemma short_runs_after_others u v :
  Forall (fun c => q c = false) u ->
  short_runs q v = true -> short_runs q (u ++ v) = true.
Proof.
  intros Hu Hv. induction Hu as [|c u Hc _ IH]; [done|].
  rewrite <- app_comm_cons. cbn [short_runs span]. by rewrite Hc.
Qed.

Lemma run_pass_keeps_short_runs : forall s,
  short_runs q s = true -> short_runs q (re_sub (m_run p repl) s) = true.
Proof.
  apply (shorter_first
           (fun s => short_runs q s = true ->
                     short_runs q (re_sub (m_run p repl) s) = true)).
  intros s IH Hs.
  destruct (Nat.le_gt_cases 3 (span p s)) as [Hlong|Hshort].
  - rewrite (run_pass_at s Hlong).
    apply short_runs_after_others; [exact repl_apart|].
    apply IH; [|by apply short_runs_drop].
    rewrite length_drop. pose proof (span_length p s). lia.
  - destruct s as [|c rest]; [done|].
    pose proof (run_pass_span_other (c :: rest)) as Hspan.
    rewrite (run_pass_copy c rest Hshort) in *. cbn [short_runs] in *.
    apply andb_true_iff in Hs as [Hhere Hrest].
    apply andb_true_iff. split.
    + by rewrite Hspan.
    + apply IH; [simpl; lia|done].
Qed.

End Runs.

Section ShortRuns.
Import Chars Re Normalizer Indexer.
Variable q : ascii -> bool.

Lemma span_app_le u v : (span q u <= span q (u ++ v))%nat.
Proof.
  induction u as [|c u IH]; [simpl; lia|]. simpl. destruct (q c); lia.
Qed.

Lemma short_runs_prefix u : forall v,
  short_runs q (u ++ v) = true -> short_runs q u = true.
Proof.
  induction u as [|c u IH]; intros v Hs; [done|].
  rewrite <- app_comm_cons in Hs. cbn [short_runs] in *.
  apply andb_true_iff in Hs as [Hhere Hrest].
  apply andb_true_iff. split; [|by eapply IH].
  apply Nat.leb_le. apply Nat.leb_le in Hhere.
  pose proof (span_app_le (c :: u) v) as Hle.
  rewrite <- app_comm_cons in Hle. lia.
Qed.

Lemma short_runs_strip s :
  short_runs q s = true -> short_runs q (strip s) = true.
Proof.
  intros Hs. unfold strip.
  destruct (rstrip_split (lstrip s)) as (tail & Hsplit & _ & _).
  apply (short_runs_prefix _ tail). rewrite <- Hsplit.
  unfold lstrip. by apply short_runs_drop.
Qed.

(** With short runs, no four characters of the class stand in a row. *)
Lemma short_runs_no_four a r b :
  Forall (fun c => q c = true) r ->
  List.length r = 4%nat ->
  short_runs q (a ++ r ++ b) = false.
Proof.
  intros Hr Hlen. destruct (short_runs q (a ++ r ++ b)) eqn:Hs; [|done].
  apply (short_runs_drop q (List.length a)) in Hs.
  rewrite drop_app_length in Hs.
  destruct r as [|c r]; [done|]. rewrite <- app_comm_cons in Hs.
  cbn [short_runs] in Hs. apply andb_true_iff in Hs as [Hhere _].
  apply Nat.leb_le in Hhere.
  rewrite app_comm_cons, (span_app_class q _ b Hr) in Hhere. lia.
Qed.

End ShortRuns.

Section CleanText.
Import Chars Re Normalizer Indexer.

Lemma clean_text_chars_of_string text :
  list_ascii_of_string (clean_text text)
  = match text with
    | EmptyString => []
    | String _ _ => clean_text_chars (list_ascii_of_string text)
    end.
Proof.
  destruct text; [done|]. unfold clean_text.
  by rewrite list_ascii_of_string_of_list_ascii.
Qed.

Lemma tidy_code_blocks_same s : tidy_code_blocks s = s.
Proof.
  unfold tidy_code_blocks, re_sub.
  by rewrite (sub_same m_code_block m_code_block_same), drop_0.
Qed.

(** The passes after the first write no whitespace of their own. *)
Lemma clean_text_chars_forall (P : ascii -> Prop) s :
  P "."%char -> P "-"%char ->
  Forall P (collapse_whitespace s) -> Forall P (clean_text_chars s).
Proof.
  intros Hdot Hdash Hall. unfold clean_text_chars.
  fold (collapse_whitespace s). rewrite tidy_code_blocks_same.
  apply strip_forall.
  apply sub_forall.
  { intros prev t r k _. unfold m_run. destruct (3 <=? _)%nat; [|done].
    intros [= <- _]. by repeat constructor. }
  apply sub_forall.
  { intros prev t r k _. unfold m_run. destruct (3 <=? _)%nat; [|done].
    intros [= <- _]. by repeat constructor. }
  apply sub_forall.
  { intros prev t r k _. unfold m_contents.
    destruct (starts_with same_letter _ t); [|done].
    destruct (starts_with same_letter _ _); by intros [= <- _]. }
  apply sub_forall; [|done].
  intros prev t r k _. unfold m_skip_link.
  destruct (starts_with Ascii.eqb _ t); [|done]. by intros [= <- _].
Qed.

(** X21. The pass of [clean_text] over code blocks changes nothing:
    what the pattern matches starts and ends with a backtick, so
    stripping the match gives the match back, whatever the text. *)
Theorem code_block_pass_changes_nothing s :
  tidy_code_blocks s = s.
Proof.
  unfold tidy_code_blocks, re_sub.
  rewrite (sub_same m_code_block m_code_block_same).
  apply drop_0.
Qed.

(** X22. Whatever the page, every whitespace character of the text that
    [clean_text] returns is the space character U+0020, and that text
    neither starts nor ends with whitespace. *)
Theorem clean_text_whitespace_is_spaces text :
  let out := list_ascii_of_string (clean_text text) in
  Forall (fun c => is_space c = true -> c = space) out
  /\ (forall c, head out = Some c -> is_space c = false)
  /\ (forall c, last out = Some c -> is_space c = false).
Proof.
  cbn zeta. rewrite clean_text_chars_of_string.
  destruct text as [|c0 text]; [done|].
  set (s := list_ascii_of_string (String c0 text)). split.
  - apply clean_text_chars_forall; [done|done|].
    eapply Forall_impl; [apply collapse_whitespace_blank|].
    intros c Hc Hs. by apply blank_is_the_space, Hc.
  - unfold clean_text_chars. apply strip_ends.
Qed.

(** X23. The text that [clean_text] returns has no four dots in a row
    and no four dashes in a row. *)
Theorem clean_text_runs_are_short text a b :
  clean_text text <> a ++ "...." ++ b
  /\ clean_text text <> a ++ "----" ++ b.
Proof.
  assert (Hruns : short_runs is_dot (list_ascii_of_string (clean_text text))
                  = true
                  /\ short_runs is_dash (list_ascii_of_string (clean_text text))
                     = true).
  { rewrite clean_text_chars_of_string. destruct text as [|c0 text]; [done|].
    unfold clean_text_chars. split.
    - apply short_runs_strip.
      apply (run_pass_keeps_short_runs is_dash "---");
        [by repeat constructor|done| |].
      + intros c. unfold is_dash, is_dot, is_char.
        intros H1%Nat.eqb_eq. apply Nat.eqb_neq. lia.
      + apply (run_pass_short_runs is_dot "..."); [by repeat constructor|done].
    - apply short_runs_strip.
      apply (run_pass_short_runs is_dash "---"); [by repeat constructor|done]. }
  destruct Hruns as [Hdots Hdashes]. split; intros Heq; rewrite Heq in *.
  - rewrite !list_ascii_of_string_app in Hdots.
    rewrite short_runs_no_four in Hdots; [done|by repeat constructor|done].
  - rewrite !list_ascii_of_string_app in Hdashes.
    rewrite short_runs_no_four in Hdashes; [done|by repeat constructor|done].
Qed.

(** X24. [clean_text] never returns a text longer than the page it was
    given. *)
Theorem clean_text_is_no_longer text :
  (String.length (clean_text text) <= String.length text)%nat.
Proof.
  assert (Hlen : forall t, String.length t = List.length (list_ascii_of_string t)).
  { induction t as [|c t IH]; [done|]. simpl. by rewrite IH. }
  rewrite !Hlen, clean_text_chars_of_string.
  destruct text as [|c0 text]; [done|].
  set (s := list_ascii_of_string (String c0 text)).
  assert (Hpass : forall m t,
            (forall prev t repl k,
                m prev t = Some (repl, k) ->
                (List.length repl <= k)%nat
                /\ (List.length repl <= List.length t)%nat) ->
            (List.length (re_sub m t) <= List.length t)%nat).
  { intros m t Hm. pose proof (sub_length m Hm t None 0%nat). unfold re_sub. lia. }
  unfold clean_text_chars. rewrite tidy_code_blocks_same.
  assert (Hstrip : forall t, (List.length (strip t) <= List.length t)%nat).
  { intros t. unfold strip, rstrip, lstrip.
    rewrite length_rev, length_drop, length_rev, length_drop. lia. }
  etrans; [apply Hstrip|].
  assert (Hrun : forall p r prev t repl k,
            List.length (list_ascii_of_string r) = 3%nat ->
            m_run p r prev t = Some (repl, k) ->
            (List.length repl <= k)%nat
            /\ (List.length repl <= List.length t)%nat).
  { intros p r prev t repl k Hr. unfold m_run.
    destruct (Nat.leb_spec 3 (span p t)); [|done]. intros [= <- <-].
    pose proof (span_length p t). lia. }
  etrans; [apply Hpass; intros prev t repl k; by apply Hrun|].
  etrans; [apply Hpass; intros prev t repl k; by apply Hrun|].
  etrans.
  { apply Hpass. intros prev t repl k. unfold m_contents.
    destruct (starts_with same_letter _ t); [|done].
    destruct (starts_with same_letter _ _); intros [= <- <-]; simpl; lia. }
  etrans.
  { apply Hpass. intros prev t repl k. unfold m_skip_link.
    destruct (starts_with Ascii.eqb _ t); [|done].
    intros [= <- <-]; simpl; lia. }
  apply Hpass. intros prev t repl k. unfold m_whitespace.
  destruct (Nat.leb_spec 1 (span is_space t)); [|done]. intros [= <- <-].
  pose proof (span_length is_space t). simpl. lia.
Qed.

End CleanText.
